(** * camchess: evaluator, move ordering and alpha-beta search

    A shallow embedding of [eval.py] and [engine.py], and of the parts of
    [gui.py] that place the board on the canvas, turn clicks into moves,
    answer a draw offer and draw the evaluation bar.

    The rules library (python-chess) is not part of the repository.  The
    engine only talks to it through a handful of queries on a mutable
    [chess.Board]; those queries form the class [PositionAdapter] below and
    every general theorem is stated for an arbitrary instance of it.  The
    board is mutated in place by [push]/[pop], so the search functions are
    written in state-passing style over a [World] that holds the board and
    the engine's fields. *)

From Stdlib Require Import ZArith List Bool Lia String Ascii Sorted.
From stdpp Require Import gmap list.
From Corelib Require PrimFloat FloatOps SpecFloat Uint63Axioms.
From Stdlib Require DecimalN DecimalString.
Import ListNotations.
Local Open Scope Z_scope.

(** ** Data model *)

(** [chess.Color] is [bool]: [chess.WHITE = True], [chess.BLACK = False]. *)
Definition Color := bool.
Definition WHITE : Color := true.
Definition BLACK : Color := false.

(** [chess.PieceType], the six piece classes. *)
Inductive PieceType := PAWN | KNIGHT | BISHOP | ROOK | QUEEN | KING.

(** [chess.Square] is an [int]; the library hands out 0 (a1) .. 63 (h8). *)
Definition Square := Z.

Record Piece := mkPiece { piece_type : PieceType; color : Color }.

(** [chess.Move]: origin, destination and the promotion piece, if any. *)
Record Move := mkMove {
  from_square : Square;
  to_square : Square;
  promotion : option PieceType
}.

(** Python numbers as the search uses them: an [int] or [±math.inf]. *)
Inductive Num := NegInf | Int (z : Z) | PosInf.

Definition num_ltb (a b : Num) : bool :=
  match a, b with
  | NegInf, NegInf => false
  | NegInf, _ => true
  | Int _, NegInf => false
  | Int x, Int y => x <? y
  | Int _, PosInf => true
  | PosInf, _ => false
  end.

Definition num_leb (a b : Num) : bool := negb (num_ltb b a).

(** [max(a, b)] keeps its first argument unless the second is greater;
    [min(a, b)] keeps its first argument unless the second is smaller. *)
Definition py_max (a b : Num) : Num := if num_ltb a b then b else a.
Definition py_min (a b : Num) : Num := if num_ltb b a then b else a.

(** The order of Python numbers read off two integers: which of the three
    kinds a number is, and where it lies among the integers. *)
Definition tier (a : Num) : Z :=
  match a with NegInf => -1 | Int _ => 0 | PosInf => 1 end.

Definition within (a : Num) : Z :=
  match a with Int z => z | _ => 0 end.

Inductive Exn := OverflowError | IndexError.

(** [int(x)]: the identity on an [int], [OverflowError] on an infinity. *)
Definition py_int (x : Num) : option Z :=
  match x with Int z => Some z | _ => None end.

(** [l[i]] on a Python list: negative indices count from the end, anything
    outside [-len, len) raises [IndexError] (here [None]). *)
Definition py_index {A} (l : list A) (i : Z) : option A :=
  let n := Z.of_nat (length l) in
  if 0 <=? i then l !! Z.to_nat i
  else if - n <=? i then l !! Z.to_nat (n + i)
  else None.

(** ** eval.py *)

Definition PIECE_VALUES (pt : PieceType) : Z :=
  match pt with
  | PAWN => 100 | KNIGHT => 300 | BISHOP => 325
  | ROOK => 500 | QUEEN => 900 | KING => 0
  end.

Definition PIECE_SQUARE_TABLE (pt : PieceType) : list Z :=
  match pt with
  | PAWN =>
    [  0;  0;  0;  0;  0;  0;  0;  0;
      50; 50; 50; 50; 50; 50; 50; 50;
      10; 10; 20; 30; 30; 20; 10; 10;
       5;  5; 10; 25; 25; 10;  5;  5;
       0;  0;  0; 20; 20;  0;  0;  0;
       5; -5;-10;  0;  0;-10; -5;  5;
       5; 10; 10;-20;-20; 10; 10;  5;
       0;  0;  0;  0;  0;  0;  0;  0 ]
  | KNIGHT =>
    [ -50;-40;-30;-30;-30;-30;-40;-50;
      -40;-20;  0;  0;  0;  0;-20;-40;
      -30;  0; 10; 15; 15; 10;  0;-30;
      -30;  5; 15; 20; 20; 15;  5;-30;
      -30;  0; 15; 20; 20; 15;  0;-30;
      -30;  5; 10; 15; 15; 10;  5;-30;
      -40;-20;  0;  5;  5;  0;-20;-40;
      -50;-40;-30;-30;-30;-30;-40;-50 ]
  | BISHOP =>
    [ -20;-10;-10;-10;-10;-10;-10;-20;
      -10;  0;  0;  0;  0;  0;  0;-10;
      -10;  0;  5; 10; 10;  5;  0;-10;
      -10;  5;  5; 10; 10;  5;  5;-10;
      -10;  0; 10; 10; 10; 10;  0;-10;
      -10; 10; 10; 10; 10; 10; 10;-10;
      -10;  5;  0;  0;  0;  0;  5;-10;
      -20;-10;-10;-10;-10;-10;-10;-20 ]
  | ROOK =>
    [  0;  0;  0;  0;  0;  0;  0;  0;
       5; 10; 10; 10; 10; 10; 10;  5;
      -5;  0;  0;  0;  0;  0;  0; -5;
      -5;  0;  0;  0;  0;  0;  0; -5;
      -5;  0;  0;  0;  0;  0;  0; -5;
      -5;  0;  0;  0;  0;  0;  0; -5;
      -5;  0;  0;  0;  0;  0;  0; -5;
       0;  0;  0;  5;  5;  0;  0;  0 ]
  | QUEEN =>
    [ -20;-10;-10; -5; -5;-10;-10;-20;
      -10;  0;  0;  0;  0;  0;  0;-10;
      -10;  0;  5;  5;  5;  5;  0;-10;
       -5;  0;  5;  5;  5;  5;  0; -5;
        0;  0;  5;  5;  5;  5;  0; -5;
      -10;  5;  5;  5;  5;  5;  0;-10;
      -10;  0;  5;  0;  0;  0;  0;-10;
      -20;-10;-10; -5; -5;-10;-10;-20 ]
  | KING =>
    [ -30;-40;-40;-50;-50;-40;-40;-30;
      -30;-40;-40;-50;-50;-40;-40;-30;
      -30;-40;-40;-50;-50;-40;-40;-30;
      -30;-40;-40;-50;-50;-40;-40;-30;
      -20;-30;-30;-40;-40;-30;-30;-20;
      -10;-20;-20;-20;-20;-20;-20;-10;
       20; 20;  0;  0;  0;  0; 20; 20;
       20; 30; 10;  0;  0; 10; 30; 20 ]
  end.

Definition MATE_SCORE : Z := 10000.
Definition DRAW_SCORE : Z := 0.

(** [chess.square_mirror(square)] is [square ^ 0x38]: the rank is flipped. *)
Definition square_mirror (square : Square) : Square := Z.lxor square 56.

Definition pieceSquareTableValue (pt : PieceType) (square : Square)
    (c : Color) : option Z :=
  let table := PIECE_SQUARE_TABLE pt in
  let index := if c then square else square_mirror square in
  py_index table index.

(** ** The position adapter

    What the engine asks of a [chess.Board].  [push] and [pop] mutate the
    board; here they return the new board.  [is_game_over] is the query with
    [claim_draw = True].  [piece_map] lists the items of the dictionary in
    iteration order.  [transposition_key] and [zobrist_hash] are the optional
    methods probed by [_hash]; [py_hash] is the interpreter's [hash] on the
    FEN string. *)
Class PositionAdapter (Board : Type) := {
  turn : Board -> Color;
  legal_moves : Board -> list Move;
  push : Board -> Move -> Board;
  pop : Board -> Board;
  is_check : Board -> bool;
  is_checkmate : Board -> bool;
  is_stalemate : Board -> bool;
  is_insufficient_material : Board -> bool;
  can_claim_draw : Board -> bool;
  is_game_over : Board -> bool;
  piece_map : Board -> list (Square * Piece);
  piece_at : Board -> Square -> option Piece;
  is_capture : Board -> Move -> bool;
  transposition_key : option (Board -> Z);
  zobrist_hash : option (Board -> Z);
  fen : Board -> string;
  py_hash : string -> Z
}.

Section Evaluator.
Context {Board : Type} `{PositionAdapter Board}.

(** One iteration of the loop over [board.piece_map().items()]. *)
Definition piece_term (square : Square) (piece : Piece) : option Z :=
  match pieceSquareTableValue (piece_type piece) square (color piece) with
  | Some pst =>
      let value := PIECE_VALUES (piece_type piece) + pst in
      Some (if color piece then value else - value)
  | None => None
  end.

Fixpoint material_loop (items : list (Square * Piece)) (score : Z)
    : option Z :=
  match items with
  | [] => Some score
  | (square, piece) :: rest =>
      match piece_term square piece with
      | Some t => material_loop rest (score + t)
      | None => None
      end
  end.

(** [evaluate(board)]; [None] stands for the [IndexError] of a table
    lookup outside the 64 entries. *)
Definition evaluate (board : Board) : option Z :=
  if is_checkmate board then
    Some (if turn board then - MATE_SCORE else MATE_SCORE)
  else if is_stalemate board || is_insufficient_material board
          || can_claim_draw board then
    Some DRAW_SCORE
  else
    match material_loop (piece_map board) 0 with
    | Some score =>
        let mobility := Z.of_nat (length (legal_moves board)) in
        Some (score + (if turn board then mobility else - mobility))
    | None => None
    end.
End Evaluator.

(** What the piece loop computes, as a sum: the terms are added up, and
    the loop fails if one of them does. *)
Fixpoint sum_terms (items : list (Square * Piece)) : option Z :=
  match items with
  | [] => Some 0
  | it :: rest =>
      match piece_term (fst it) (snd it), sum_terms rest with
      | Some t, Some s => Some (t + s)
      | _, _ => None
      end
  end.

(** ** engine.py: move ordering *)

(** [list.sort(key = key, reverse = True)] on the decorated list: the keys
    have been computed once per element, the sort is stable, and with
    [reverse = True] elements with equal keys still keep their original
    order.  Insertion from the right realises exactly that order. *)
Fixpoint insert_desc {A} (x : Z * A) (l : list (Z * A)) : list (Z * A) :=
  match l with
  | [] => [x]
  | y :: rest =>
      if fst x <? fst y then y :: insert_desc x rest else x :: y :: rest
  end.

Fixpoint sort_desc {A} (l : list (Z * A)) : list (Z * A) :=
  match l with
  | [] => []
  | x :: rest => insert_desc x (sort_desc rest)
  end.

Section MoveOrdering.
Context {Board : Type} `{PositionAdapter Board}.

(** The inner function [key(move)]; it reads and mutates the enclosing
    [board], so it takes the board and returns it after the probe. *)
Definition key (board : Board) (move : Move) : Z * Board :=
  let score := 0 in
  let score :=
    if is_capture board move then
      let capturedPiece := piece_at board (to_square move) in
      let attackingPiece := piece_at board (from_square move) in
      let score :=
        match capturedPiece with
        | Some cp => score + (10000 + PIECE_VALUES (piece_type cp) * 10)
        | None => score
        end in
      match attackingPiece with
      | Some ap => score - PIECE_VALUES (piece_type ap)
      | None => score
      end
    else score in
  let score :=
    match promotion move with
    | Some pt => score + (9000 + PIECE_VALUES pt)
    | None => score
    end in
  let board := push board move in
  let score := if is_check board then score + 500 else score in
  let board := pop board in
  (score, board).

(** The key pass of [sort]: [key] is called once per move, in list order,
    each call on the board the previous one left behind. *)
Fixpoint decorate (board : Board) (moves : list Move)
    : list (Z * Move) * Board :=
  match moves with
  | [] => ([], board)
  | mv :: rest =>
      let '(k, board1) := key board mv in
      let '(ks, board2) := decorate board1 rest in
      ((k, mv) :: ks, board2)
  end.

Definition move_ordering (board : Board) : list Move * Board :=
  let moves := legal_moves board in
  let '(keyed, board') := decorate board moves in
  (map snd (sort_desc keyed), board').
End MoveOrdering.

(** ** engine.py: the search engine *)

(** A cache key is the tuple [(self._hash(board), depth, board.turn)]. *)
Definition CacheKey : Type := Z * Z * bool.

(** The objects a search call reads and writes: the board it is handed and
    the two fields of the [MiniMaxEngine] instance. *)
Record World (Board : Type) := mkWorld {
  board : Board;
  tt : gmap CacheKey Z;
  nodes : Z
}.
Arguments mkWorld {Board}.
Arguments board {Board}.
Arguments tt {Board}.
Arguments nodes {Board}.

(** How a call ends: normally with a value, with an exception, or (in the
    model only) with the recursion budget [fuel] used up.  The state is kept
    on an exception: Python does not roll mutations back. *)
Inductive Outcome (S A : Type) :=
| Ok (a : A) (s : S)
| Raise (e : Exn) (s : S)
| OutOfFuel.
Arguments Ok {S A}.
Arguments Raise {S A}.
Arguments OutOfFuel {S A}.

Record SearchResult := mkSearchResult {
  score : Z;
  move : option Move
}.

Section Engine.
Context {Board : Type} `{PositionAdapter Board}.

Definition set_board (w : World Board) (b : Board) : World Board :=
  mkWorld b (tt w) (nodes w).

Definition world_push (w : World Board) (mv : Move) : World Board :=
  set_board w (push (board w) mv).

Definition world_pop (w : World Board) : World Board :=
  set_board w (pop (board w)).

Definition store (k : CacheKey) (v : Z) (w : World Board) : World Board :=
  mkWorld (board w) (<[k := v]> (tt w)) (nodes w).

(** [MiniMaxEngine._hash] *)
Definition _hash (b : Board) : Z :=
  match transposition_key with
  | Some f => f b
  | None =>
      match zobrist_hash with
      | Some g => g b
      | None => py_hash (fen b)
      end
  end.

Definition cache_key (b : Board) (depth : Z) : CacheKey :=
  (_hash b, depth, turn b).

Section Loops.
(** [self.minimax] as seen from inside the body: the recursive call. *)
Variable self_minimax :
  Z -> Num -> Num -> World Board -> Outcome (World Board) Z.
Variable depth : Z.

(** The [for mv in move_ordering(board)] loop of the White branch. *)
Fixpoint max_loop (mvs : list Move) (best alpha beta : Num)
    (w : World Board) : Outcome (World Board) Num :=
  match mvs with
  | [] => Ok best w
  | mv :: rest =>
      match self_minimax (depth - 1) alpha beta (world_push w mv) with
      | Ok val w1 =>
          let w2 := world_pop w1 in
          let best := py_max best (Int val) in
          let alpha := py_max alpha best in
          if num_leb beta alpha then Ok best w2
          else max_loop rest best alpha beta w2
      | Raise e s => Raise e s
      | OutOfFuel => OutOfFuel
      end
  end.

(** The loop of the Black branch. *)
Fixpoint min_loop (mvs : list Move) (best alpha beta : Num)
    (w : World Board) : Outcome (World Board) Num :=
  match mvs with
  | [] => Ok best w
  | mv :: rest =>
      match self_minimax (depth - 1) alpha beta (world_push w mv) with
      | Ok val w1 =>
          let w2 := world_pop w1 in
          let best := py_min best (Int val) in
          let beta := py_min beta best in
          if num_leb beta alpha then Ok best w2
          else min_loop rest best alpha beta w2
      | Raise e s => Raise e s
      | OutOfFuel => OutOfFuel
      end
  end.

(** The two loops of [best_move]: no window, strict improvement only. *)
Fixpoint root_loop_white (mvs : list Move) (best_score : Num)
    (best_move : option Move) (w : World Board)
    : Outcome (World Board) (Num * option Move) :=
  match mvs with
  | [] => Ok (best_score, best_move) w
  | mv :: rest =>
      match self_minimax (depth - 1) NegInf PosInf (world_push w mv) with
      | Ok sc w1 =>
          let w2 := world_pop w1 in
          if num_ltb best_score (Int sc)
          then root_loop_white rest (Int sc) (Some mv) w2
          else root_loop_white rest best_score best_move w2
      | Raise e s => Raise e s
      | OutOfFuel => OutOfFuel
      end
  end.

Fixpoint root_loop_black (mvs : list Move) (best_score : Num)
    (best_move : option Move) (w : World Board)
    : Outcome (World Board) (Num * option Move) :=
  match mvs with
  | [] => Ok (best_score, best_move) w
  | mv :: rest =>
      match self_minimax (depth - 1) NegInf PosInf (world_push w mv) with
      | Ok sc w1 =>
          let w2 := world_pop w1 in
          if num_ltb (Int sc) best_score
          then root_loop_black rest (Int sc) (Some mv) w2
          else root_loop_black rest best_score best_move w2
      | Raise e s => Raise e s
      | OutOfFuel => OutOfFuel
      end
  end.
End Loops.

(** [MiniMaxEngine.minimax].  [fuel] bounds the depth of the Python call
    stack; [depth] is the integer argument, tested with [depth == 0]. *)
Fixpoint minimax (fuel : nat) (depth : Z) (alpha beta : Num)
    (w : World Board) : Outcome (World Board) Z :=
  match fuel with
  | O => OutOfFuel
  | S fuel' =>
      let w := mkWorld (board w) (tt w) (nodes w + 1) in
      let k := cache_key (board w) depth in
      match tt w !! k with
      | Some v => Ok v w
      | None =>
          if (depth =? 0) || is_game_over (board w) then
            match evaluate (board w) with
            | Some val => Ok val (store k val w)
            | None => Raise IndexError w
            end
          else
            let white := turn (board w) in
            let '(mvs, b') := move_ordering (board w) in
            let w := set_board w b' in
            let looped :=
              if white
              then max_loop (minimax fuel') depth mvs NegInf alpha beta w
              else min_loop (minimax fuel') depth mvs PosInf alpha beta w in
            match looped with
            | Ok best w' =>
                match py_int best with
                | Some v => Ok v (store k v w')
                | None => Raise OverflowError w'
                end
            | Raise e s => Raise e s
            | OutOfFuel => OutOfFuel
            end
      end
  end.

(** [MiniMaxEngine.best_move] *)
Definition best_move (fuel : nat) (depth : Z) (w : World Board)
    : Outcome (World Board) SearchResult :=
  let w := mkWorld (board w) (tt w) 0 in
  let white := turn (board w) in
  let '(mvs, b') := move_ordering (board w) in
  let w := set_board w b' in
  let looped :=
    if white
    then root_loop_white (minimax fuel) depth mvs NegInf None w
    else root_loop_black (minimax fuel) depth mvs PosInf None w in
  match looped with
  | Ok (best_score, best_mv) w' =>
      match py_int best_score with
      | Some sc => Ok (mkSearchResult sc best_mv) w'
      | None => Raise OverflowError w'
      end
  | Raise e s => Raise e s
  | OutOfFuel => OutOfFuel
  end.

(** ** The reference search

    Plain minimax as the specification words it: no window, no pruning,
    no cache, the same [evaluate], the same depth and terminal test.  It
    works on board values and visits the legal moves in any order. *)
Fixpoint plain_minimax (depth : nat) (b : Board) : option Num :=
  match depth with
  | O => option_map Int (evaluate b)
  | S d =>
      if is_game_over b then option_map Int (evaluate b)
      else
        let step acc mv :=
          match acc, plain_minimax d (push b mv) with
          | Some best, Some val =>
              Some (if turn b then py_max best val else py_min best val)
          | _, _ => None
          end in
        fold_left step (legal_moves b)
          (Some (if turn b then NegInf else PosInf))
  end.
End Engine.

(** ** Tabulated games

    A finite table of positions is enough to run the engine on concrete
    inputs.  Row [i] of the table records what the rules library answers in
    position [i]: the FEN, the side to move, the pieces, the en-passant
    square, whether the side to move is in check, whether the material is
    insufficient, whether a draw can be claimed, and the legal moves in
    generation order, each with the row it leads to.  A board is the current
    row together with the stack of rows it came through, so that [pop]
    undoes [push] the way the library's move stack does. *)
Record Position := mkPosition {
  pos_fen : string;
  pos_turn : Color;
  pos_pieces : list (Square * Piece);
  pos_ep : option Square;
  pos_check : bool;
  pos_insufficient : bool;
  pos_claim : bool;
  pos_moves : list (Move * nat)
}.

Definition Game := list Position.

Record TBoard := mkTBoard { current : nat; stack : list nat }.

(** The row used for an index outside the table: an empty board on which
    nobody can move. *)
Definition off_table : Position :=
  mkPosition "off-table" WHITE [] None false true true [].

Definition piece_type_eqb (a b : PieceType) : bool :=
  match a, b with
  | PAWN, PAWN | KNIGHT, KNIGHT | BISHOP, BISHOP
  | ROOK, ROOK | QUEEN, QUEEN | KING, KING => true
  | _, _ => false
  end.

Definition promotion_eqb (a b : option PieceType) : bool :=
  match a, b with
  | Some x, Some y => piece_type_eqb x y
  | None, None => true
  | _, _ => false
  end.

Definition move_eqb (a b : Move) : bool :=
  (from_square a =? from_square b) && (to_square a =? to_square b)
  && promotion_eqb (promotion a) (promotion b).

Fixpoint find_piece (pieces : list (Square * Piece)) (sq : Square)
    : option Piece :=
  match pieces with
  | [] => None
  | (s, p) :: rest => if s =? sq then Some p else find_piece rest sq
  end.

Fixpoint find_move (mvs : list (Move * nat)) (mv : Move) : option nat :=
  match mvs with
  | [] => None
  | (m, next) :: rest => if move_eqb m mv then Some next else find_move rest mv
  end.

Definition occupied_by (pos : Position) (c : Color) (sq : Square) : bool :=
  match find_piece (pos_pieces pos) sq with
  | Some p => Bool.eqb (color p) c
  | None => false
  end.

(** [Board.is_en_passant] and [Board.is_capture] as the library defines
    them on the piece placement. *)
Definition tab_is_en_passant (pos : Position) (mv : Move) : bool :=
  match pos_ep pos with
  | Some ep =>
      (ep =? to_square mv)
      && match find_piece (pos_pieces pos) (from_square mv) with
         | Some p => piece_type_eqb (piece_type p) PAWN
         | None => false
         end
      && ((Z.abs (to_square mv - from_square mv) =? 7)
          || (Z.abs (to_square mv - from_square mv) =? 9))
      && match find_piece (pos_pieces pos) (to_square mv) with
         | Some _ => false
         | None => true
         end
  | None => false
  end.

Definition tab_is_capture (pos : Position) (mv : Move) : bool :=
  (negb (from_square mv =? to_square mv)
   && (occupied_by pos (negb (pos_turn pos)) (from_square mv)
       || occupied_by pos (negb (pos_turn pos)) (to_square mv)))
  || tab_is_en_passant pos mv.

(** A stand-in for the interpreter's string hash: injective, so that two
    rows share a cache key only when they share the FEN. *)
Fixpoint poly_hash (s : string) (acc : Z) : Z :=
  match s with
  | EmptyString => acc
  | String c rest => poly_hash rest (acc * 257 + Z.of_N (N_of_ascii c) + 1)
  end.

Section Tabulated.
Variable g : Game.

Definition row (i : nat) : Position := nth i g off_table.
Definition here (b : TBoard) : Position := row (current b).

Definition tab_push (b : TBoard) (mv : Move) : TBoard :=
  match find_move (pos_moves (here b)) mv with
  | Some next => mkTBoard next (current b :: stack b)
  | None => mkTBoard (current b) (current b :: stack b)
  end.

Definition tab_pop (b : TBoard) : TBoard :=
  match stack b with
  | prev :: rest => mkTBoard prev rest
  | [] => b
  end.

Definition no_moves (pos : Position) : bool :=
  match pos_moves pos with [] => true | _ => false end.

Definition tab_is_checkmate (b : TBoard) : bool :=
  pos_check (here b) && no_moves (here b).

Definition tab_is_stalemate (b : TBoard) : bool :=
  negb (pos_check (here b)) && no_moves (here b).

Definition tab_is_game_over (b : TBoard) : bool :=
  tab_is_checkmate b || pos_insufficient (here b) || no_moves (here b)
  || pos_claim (here b).

#[export] Instance tabulated : PositionAdapter TBoard := {
  turn b := pos_turn (here b);
  legal_moves b := map fst (pos_moves (here b));
  push := tab_push;
  pop := tab_pop;
  is_check b := pos_check (here b);
  is_checkmate := tab_is_checkmate;
  is_stalemate := tab_is_stalemate;
  is_insufficient_material b := pos_insufficient (here b);
  can_claim_draw b := pos_claim (here b);
  is_game_over := tab_is_game_over;
  piece_map b := pos_pieces (here b);
  piece_at b sq := find_piece (pos_pieces (here b)) sq;
  is_capture b mv := tab_is_capture (here b) mv;
  transposition_key := None;
  zobrist_hash := None;
  fen b := pos_fen (here b);
  py_hash s := poly_hash s 0
}.
End Tabulated.

Definition start_at (i : nat) : TBoard := mkTBoard i [].

Definition fresh_world {Board} (b : Board) : World Board := mkWorld b ∅ 0.

(** *** Writing rows

    The FEN of a row is printed from its pieces, so that the cache key of a
    row is the key the engine would compute for that placement.  None of the
    tabulated positions has castling rights. *)
Definition piece_symbol (p : Piece) : ascii :=
  match piece_type p, color p with
  | PAWN, true => "P" | KNIGHT, true => "N" | BISHOP, true => "B"
  | ROOK, true => "R" | QUEEN, true => "Q" | KING, true => "K"
  | PAWN, false => "p" | KNIGHT, false => "n" | BISHOP, false => "b"
  | ROOK, false => "r" | QUEEN, false => "q" | KING, false => "k"
  end%char.

Definition digit (n : nat) : ascii := ascii_of_nat (48 + n).

Definition flush (empty : nat) (rest : string) : string :=
  match empty with O => rest | _ => String (digit empty) rest end.

Fixpoint fen_files (pieces : list (Square * Piece)) (rank : Z)
    (files : list Z) (empty : nat) : string :=
  match files with
  | [] => flush empty EmptyString
  | f :: rest =>
      match find_piece pieces (8 * rank + f) with
      | Some p => flush empty (String (piece_symbol p)
                                 (fen_files pieces rank rest O))
      | None => fen_files pieces rank rest (S empty)
      end
  end.

Definition fen_board (pieces : list (Square * Piece)) : string :=
  String.concat "/"%string
    (map (fun r => fen_files pieces r [0; 1; 2; 3; 4; 5; 6; 7] O)
         [7; 6; 5; 4; 3; 2; 1; 0]).

Definition square_name (sq : Square) : string :=
  String (ascii_of_nat (97 + Z.to_nat (sq mod 8)))
    (String (digit (1 + Z.to_nat (sq / 8))) EmptyString).

(** [clocks] is the tail of the FEN: halfmove clock and move number. *)
Definition chess_row (c : Color) (pieces : list (Square * Piece))
    (ep : option Square) (check : bool) (clocks : string)
    (mvs : list (Move * nat)) : Position :=
  let side : string := if c then "w"%string else "b"%string in
  let ep_field : string :=
    match ep with Some sq => square_name sq | None => "-"%string end in
  mkPosition
    (String.append (fen_board pieces)
       (String.append " " (String.append side (String.append " - "
          (String.append ep_field (String.append " " clocks))))))
    c pieces ep check false false mvs.

Definition wK := mkPiece KING WHITE.
Definition wQ := mkPiece QUEEN WHITE.
Definition wR := mkPiece ROOK WHITE.
Definition wB := mkPiece BISHOP WHITE.
Definition wN := mkPiece KNIGHT WHITE.
Definition wP := mkPiece PAWN WHITE.
Definition bK := mkPiece KING BLACK.
Definition bP := mkPiece PAWN BLACK.
Definition bQ := mkPiece QUEEN BLACK.

Definition mv (f t : Square) : Move := mkMove f t None.
Definition promote (f t : Square) (pt : PieceType) : Move :=
  mkMove f t (Some pt).

(** Moves whose resulting position lies past the last row of a table lead
    to [off_table]. *)
Definition beyond : nat := 1000.
Definition leaving (mvs : list Move) : list (Move * nat) :=
  map (fun m => (m, beyond)) mvs.

(** *** A stalemate

    [7k/5Q2/6K1/8/8/8/8/8 b - - 0 1]: Black to move, not in check, no legal
    move. *)
Definition stalemate_game : Game :=
  [ chess_row BLACK [(63, bK); (53, wQ); (46, wK)] None false "0 1" [] ].

(** *** A checkmate

    [7k/6Q1/6K1/8/8/8/8/8 b - - 0 1]: Black to move, in check from g7, no
    legal move. *)
Definition checkmate_game : Game :=
  [ chess_row BLACK [(63, bK); (54, wQ); (46, wK)] None true "0 1" [] ].

(** *** A position and its colour-swapped mirror image

    Row 0 is [4k3/8/8/8/4P3/8/8/4K3 w - - 0 1], row 1 is
    [4k3/8/8/4p3/8/8/8/4K3 b - - 0 1]; each side to move has five king moves
    and one pawn move. *)
Definition mirror_game : Game :=
  [ chess_row WHITE [(60, bK); (28, wP); (4, wK)] None false "0 1"
      (leaving [mv 4 13; mv 4 12; mv 4 11; mv 4 5; mv 4 3; mv 28 36]);
    chess_row BLACK [(60, bK); (36, bP); (4, wK)] None false "0 1"
      (leaving [mv 60 61; mv 60 59; mv 60 53; mv 60 52; mv 60 51;
                mv 36 28]) ].

(** The placement after a move that is not an en-passant capture, listed
    from h8 down to a1 as the library does. *)
Definition play (pieces : list (Square * Piece)) (m : Move)
    : list (Square * Piece) :=
  match find_piece pieces (from_square m) with
  | Some p =>
      let moved :=
        match promotion m with
        | Some pt => mkPiece pt (color p)
        | None => p
        end in
      sort_desc
        ((to_square m, moved)
         :: List.filter (fun it => negb ((fst it =? from_square m)
                                    || (fst it =? to_square m))) pieces)
  | None => pieces
  end.

(** *** A position with a capture and a promotion

    Row 0 is [7k/1P6/8/3p4/8/8/8/K2Q4 w - - 0 1].  White has 24 legal moves,
    generated in this order: the queen's moves from the highest target
    square down, the king's moves, then the four promotions on b8.  Rows 1
    to 24 are the positions after each of them, with Black's replies. *)
Definition ordering_pieces : list (Square * Piece) :=
  [(63, bK); (49, wP); (35, bP); (3, wQ); (0, wK)].

Definition Kg8 := mv 63 62.
Definition Kh7 := mv 63 55.
Definition Kg7 := mv 63 54.
Definition d5d4 := mv 35 27.
Definition Qxd5 := mv 3 35.
Definition b8Q := promote 49 57 QUEEN.

(** Each entry: the move, whether it gives check, the clocks after it and
    Black's legal replies. *)
Definition ordering_moves : list (Move * bool * string * list Move) :=
  [ (mv 3 39, true, "1 1"%string, [Kg8; Kg7]);
    (Qxd5, false, "0 1"%string, [Kh7; Kg7]);
    (mv 3 30, false, "1 1"%string, [Kh7; d5d4]);
    (mv 3 27, true, "1 1"%string, [Kg8; Kh7]);
    (mv 3 24, false, "1 1"%string, [Kg8; Kh7; Kg7; d5d4]);
    (mv 3 21, false, "1 1"%string, [Kg8; Kh7; Kg7; d5d4]);
    (mv 3 19, false, "1 1"%string, [Kg8; Kg7; d5d4]);
    (mv 3 17, false, "1 1"%string, [Kg8; Kh7; Kg7; d5d4]);
    (mv 3 12, false, "1 1"%string, [Kg8; Kh7; Kg7; d5d4]);
    (mv 3 11, false, "1 1"%string, [Kg8; Kh7; Kg7; d5d4]);
    (mv 3 10, false, "1 1"%string, [Kg8; Kg7; d5d4]);
    (mv 3 7, true, "1 1"%string, [Kg8; Kg7]);
    (mv 3 6, false, "1 1"%string, [Kh7; d5d4]);
    (mv 3 5, false, "1 1"%string, [Kg8; Kh7; Kg7; d5d4]);
    (mv 3 4, false, "1 1"%string, [Kg8; Kh7; Kg7; d5d4]);
    (mv 3 2, false, "1 1"%string, [Kg8; Kh7; Kg7; d5d4]);
    (mv 3 1, false, "1 1"%string, [Kg8; Kg7; d5d4]);
    (mv 0 9, false, "1 1"%string, [Kg8; Kh7; Kg7; d5d4]);
    (mv 0 8, false, "1 1"%string, [Kg8; Kh7; Kg7; d5d4]);
    (mv 0 1, false, "1 1"%string, [Kg8; Kh7; Kg7; d5d4]);
    (b8Q, true, "0 1"%string, [Kh7; Kg7]);
    (promote 49 57 ROOK, true, "0 1"%string, [Kh7; Kg7]);
    (promote 49 57 BISHOP, false, "0 1"%string, [Kg8; Kh7; Kg7; d5d4]);
    (promote 49 57 KNIGHT, false, "0 1"%string, [Kg8; Kh7; Kg7; d5d4]) ].

Definition number_from {A} (start : nat) (l : list A) : list (A * nat) :=
  combine l (seq start (length l)).

Definition ordering_game : Game :=
  chess_row WHITE ordering_pieces None false "0 1"
    (number_from 1 (map (fun e => fst (fst (fst e))) ordering_moves))
  :: map (fun e =>
            match e with
            | (m, check, clocks, replies) =>
                chess_row BLACK (play ordering_pieces m) None check clocks
                  (leaving replies)
            end) ordering_moves.

(** *** A position with an en-passant capture

    Row 0 is [4k3/8/8/3pP3/8/8/8/4K3 w - d6 0 2]: Black has just played
    d7-d5.  White's legal moves in generation order are five king moves,
    e5-e6 and the en-passant capture e5xd6.  Rows 1 to 7 follow them. *)
Definition ep_pieces : list (Square * Piece) :=
  [(60, bK); (36, wP); (35, bP); (4, wK)].

Definition exd6 := mv 36 43.

Definition ep_replies : list Move :=
  [mv 60 61; mv 60 59; mv 60 53; mv 60 52; mv 60 51; d5d4].

Definition ep_game : Game :=
  chess_row WHITE ep_pieces (Some 43) false "0 2"
    (number_from 1 [mv 4 13; mv 4 12; mv 4 11; mv 4 5; mv 4 3; mv 36 44; exd6])
  :: map (fun m => chess_row BLACK (play ep_pieces m) None false "1 2"
                     (leaving ep_replies))
       [mv 4 13; mv 4 12; mv 4 11; mv 4 5; mv 4 3]
  ++ [ chess_row BLACK (play ep_pieces (mv 36 44)) None false "0 2"
         (leaving [mv 60 61; mv 60 59; mv 60 52; d5d4]);
       chess_row BLACK [(60, bK); (43, wP); (4, wK)] None false "0 2"
         (leaving [mv 60 61; mv 60 59; mv 60 53; mv 60 51]) ].

(** *** A game tree with a transposition

    An abstract two-player game, not a chess position: nine positions named
    by their labels, the moves between them, and piece lists that only serve
    to give the leaves their static values.  Position P is reached from the
    root R both through A and through B.

<<
      R (White) -- a --> A (Black) -- x1 --> C (White) -- c1 --> Lc
                                   -- x2 --> P (White) -- p1 --> L1
                                                        -- p2 --> L2
                -- b --> B (Black) -- y1 --> P
>>
    Lc and L1 are stalemates (value 0); in L2 White is a queen up and Black
    has one move, to the stalemate E.  No move is a capture, a promotion or
    a check, so every move list keeps its generation order. *)
Definition bare_kings : list (Square * Piece) := [(60, bK); (4, wK)].

Definition node (label : string) (c : Color) (mvs : list (Move * nat))
    : Position :=
  mkPosition label c bare_kings None false false false mvs.

Definition transposition_game : Game :=
  [ node "R" WHITE [(mv 4 3, 1%nat); (mv 4 5, 2%nat)];
    node "A" BLACK [(mv 60 59, 3%nat); (mv 60 61, 4%nat)];
    node "B" BLACK [(mv 60 61, 4%nat)];
    node "C" WHITE [(mv 4 12, 5%nat)];
    node "P" WHITE [(mv 4 11, 6%nat); (mv 4 13, 7%nat)];
    node "Lc" BLACK [];
    node "L1" BLACK [];
    mkPosition "L2" BLACK [(60, bK); (4, wK); (3, wQ)] None false false false
      [(mv 60 52, 8%nat)];
    node "E" WHITE [] ].

(** *** A game tree in which a cached cutoff decides the root

    The tree of the transposition game with one change: after c1, in Lc,
    Black is a queen up and has a move, so that Lc has the static value
    -896 instead of 0.  The root move a is then worth -896, and the root
    move b, which leads through B to the transposition P, is worth 894. *)
Definition second_choice_game : Game :=
  [ node "R" WHITE [(mv 4 3, 1%nat); (mv 4 5, 2%nat)];
    node "A" BLACK [(mv 60 59, 3%nat); (mv 60 61, 4%nat)];
    node "B" BLACK [(mv 60 61, 4%nat)];
    node "C" WHITE [(mv 4 12, 5%nat)];
    node "P" WHITE [(mv 4 11, 6%nat); (mv 4 13, 7%nat)];
    mkPosition "Lc" BLACK [(60, bK); (59, bQ); (4, wK)] None false false false
      [(mv 60 52, 8%nat)];
    node "L1" BLACK [];
    mkPosition "L2" BLACK [(60, bK); (4, wK); (3, wQ)] None false false false
      [(mv 60 52, 8%nat)];
    node "E" WHITE [] ].

(** Every piece of every row stands on one of the 64 squares. *)
Definition table_on_board (g : Game) : bool :=
  forallb (fun pos =>
             forallb (fun it => (0 <=? fst it) && (fst it <? 64))
                     (pos_pieces pos)) g.

(** The engine after one full-window search of the root of the
    transposition game to depth 3, starting with an empty cache. *)
Definition primed_world : World TBoard :=
  match @minimax TBoard (tabulated transposition_game) 4 3 NegInf PosInf
          (fresh_world (start_at 0)) with
  | Ok _ w => w
  | _ => fresh_world (start_at 0)
  end.

(** ** Vocabulary of the statements *)

Section Vocabulary.
Context {Board : Type} `{PositionAdapter Board}.

(** The heuristic score [key] gives a move on a board, and its promotion
    and check terms. *)
Definition heuristic (b : Board) (m : Move) : Z := fst (key b m).

Definition promotion_bonus (m : Move) : Z :=
  match promotion m with
  | Some pt => 9000 + PIECE_VALUES pt
  | None => 0
  end.

Definition check_bonus (b : Board) (m : Move) : Z :=
  if is_check (push b m) then 500 else 0.

(** A list in descending order of heuristic score. *)
Definition descending (b : Board) (l : list Move) : Prop :=
  StronglySorted (fun m m' => heuristic b m' <= heuristic b m) l.

(** What the engine relies on from the rules library. *)
Definition pop_undoes_push : Prop :=
  forall b m, In m (legal_moves b) -> pop (push b m) = b.

Definition moves_unless_over : Prop :=
  forall b, is_game_over b = false -> legal_moves b <> [].

Definition squares_on_board : Prop :=
  forall b sq p, In (sq, p) (piece_map b) -> 0 <= sq < 64.

(** The colour-swapped mirror image of a placement entry. *)
Definition mirror_item (it : Square * Piece) : Square * Piece :=
  (square_mirror (fst it),
   mkPiece (piece_type (snd it)) (negb (color (snd it)))).

(** [b'] is the mirror-image colour swap of [b]: the same pieces reflected
    and recoloured (in whatever order the dictionary yields them), the
    other side to move, and the same terminal status and number of legal
    moves. *)
Record mirror_image (b b' : Board) : Prop := {
  mirror_pieces : Permutation (piece_map b') (map mirror_item (piece_map b));
  mirror_turn : turn b' = negb (turn b);
  mirror_checkmate : is_checkmate b' = is_checkmate b;
  mirror_stalemate : is_stalemate b' = is_stalemate b;
  mirror_insufficient :
    is_insufficient_material b' = is_insufficient_material b;
  mirror_claim : can_claim_draw b' = can_claim_draw b;
  mirror_mobility : length (legal_moves b') = length (legal_moves b)
}.

(** [x] comes before [y] in [l]. *)
Definition precedes {A} (x y : A) (l : list A) : Prop :=
  exists l1 l2 l3, l = l1 ++ x :: l2 ++ y :: l3.

(** The cache keys of the nodes of the full game tree below [b], down to
    [d] plies; a node that is terminal has no children in the search. *)
Fixpoint tree_keys (d : nat) (b : Board) : list CacheKey :=
  cache_key b (Z.of_nat d)
  :: match d with
     | O => []
     | S d' =>
         if is_game_over b then []
         else flat_map (fun m => tree_keys d' (push b m)) (legal_moves b)
     end.

(** None of the keys is in the cache. *)
Definition absent (keys : list CacheKey) (t : gmap CacheKey Z) : Prop :=
  forall k, In k keys -> t !! k = None.

(** The static value, where [evaluate] returns one. *)
Definition static (b : Board) : Z :=
  match evaluate b with Some v => v | None => 0 end.

(** The value of [plain_minimax] where every evaluation succeeds. *)
Fixpoint plain_value (d : nat) (b : Board) : Num :=
  match d with
  | O => Int (static b)
  | S d' =>
      if is_game_over b then Int (static b)
      else
        fold_left
          (fun acc m =>
             (if turn b then py_max else py_min) acc
               (plain_value d' (push b m)))
          (legal_moves b) (if turn b then NegInf else PosInf)
  end.

(** What an alpha-beta search with window [(alpha, beta)] promises about
    its result [r] for a node of true value [v]: a value at or below
    [alpha] gives a result at or below [alpha], a value at or above [beta]
    a result at or above [beta], and a value strictly inside the window is
    returned exactly. *)
Definition bounds (alpha beta r v : Num) : Prop :=
  (num_ltb alpha v = false -> num_ltb alpha r = false)
  /\ (num_ltb v beta = false -> num_ltb r beta = false)
  /\ (num_ltb alpha v = true -> num_ltb v beta = true -> r = v).

(** A session with one engine instance: the caller hands a board to
    [minimax] or to [best_move], any number of times.  A call that raises
    leaves the engine as it was at the raise. *)
Inductive Call :=
| call_minimax (b : Board) (depth : Z) (alpha beta : Num)
| call_best_move (b : Board) (depth : Z).

Definition world_after {A} (o : Outcome (World Board) A)
    : option (World Board) :=
  match o with
  | Ok _ w => Some w
  | Raise _ w => Some w
  | OutOfFuel => None
  end.

Definition run_call (fuel : nat) (c : Call) (w : World Board)
    : option (World Board) :=
  match c with
  | call_minimax b depth alpha beta =>
      world_after (minimax fuel depth alpha beta (set_board w b))
  | call_best_move b depth =>
      world_after (best_move fuel depth (set_board w b))
  end.

(** What a call returned, when it returned normally. *)
Definition outcome_value {A} (o : Outcome (World Board) A) : option A :=
  match o with
  | Ok a _ => Some a
  | _ => None
  end.

Definition outcome_map {A B} (f : A -> B) (o : Outcome (World Board) A)
    : Outcome (World Board) B :=
  match o with
  | Ok a w => Ok (f a) w
  | Raise e w => Raise e w
  | OutOfFuel => OutOfFuel
  end.

(** The cache [t'] extends [t], and every key it adds is for a remaining
    depth of at most [d]. *)
Definition grows (d : Z) (t t' : gmap CacheKey Z) : Prop :=
  t ⊆ t'
  /\ forall k, t !! k = None -> is_Some (t' !! k) -> snd (fst k) <= d.

(** The four loops of the engine have one shape: push a move, call
    [minimax] with parameters read off the loop variables, pop, update the
    loop variables with the returned value, maybe break.  [search_loop] is
    that shape with the loop variables gathered in [acc]. *)
Section SearchLoop.
Context {Acc : Type}.
Variable call : Acc -> World Board -> Outcome (World Board) Z.
Variable step : Acc -> Move -> Z -> Acc.
Variable stop : Acc -> bool.

Fixpoint search_loop (mvs : list Move) (acc : Acc) (w : World Board)
    : Outcome (World Board) Acc :=
  match mvs with
  | [] => Ok acc w
  | m :: rest =>
      match call acc (world_push w m) with
      | Ok val w1 =>
          let acc' := step acc m val in
          if stop acc' then Ok acc' (world_pop w1)
          else search_loop rest acc' (world_pop w1)
      | Raise e s => Raise e s
      | OutOfFuel => OutOfFuel
      end
  end.
End SearchLoop.

(** The loop variables of the two [minimax] loops and of the two
    [best_move] loops, and their updates. *)
Definition Window : Type := Num * Num * Num.

Definition max_step (acc : Window) (_ : Move) (val : Z) : Window :=
  match acc with
  | (best, alpha, beta) =>
      let best := py_max best (Int val) in (best, py_max alpha best, beta)
  end.

Definition min_step (acc : Window) (_ : Move) (val : Z) : Window :=
  match acc with
  | (best, alpha, beta) =>
      let best := py_min best (Int val) in (best, alpha, py_min beta best)
  end.

Definition cutoff (acc : Window) : bool :=
  match acc with (_, alpha, beta) => num_leb beta alpha end.

Definition windowed (rec : Z -> Num -> Num -> World Board
                           -> Outcome (World Board) Z)
    (depth : Z) (acc : Window) : World Board -> Outcome (World Board) Z :=
  match acc with (_, alpha, beta) => rec (depth - 1) alpha beta end.

Definition white_step (acc : Num * option Move) (m : Move) (sc : Z)
    : Num * option Move :=
  if num_ltb (fst acc) (Int sc) then (Int sc, Some m) else acc.

Definition black_step (acc : Num * option Move) (m : Move) (sc : Z)
    : Num * option Move :=
  if num_ltb (Int sc) (fst acc) then (Int sc, Some m) else acc.

Fixpoint session (fuel : nat) (calls : list Call) (w : World Board)
    : option (World Board) :=
  match calls with
  | [] => Some w
  | c :: rest =>
      match run_call fuel c w with
      | Some w' => session fuel rest w'
      | None => None
      end
  end.
(** After the first iteration the loop variables hold a move and an
    integer score. *)
Definition chosen (acc : Num * option Move) : Prop :=
  exists sc m, acc = (Int sc, Some m).

End Vocabulary.

(** The engine after a full-window search of position A of the
    transposition game to depth 2, starting with an empty cache. *)
Definition subtree_world : World TBoard :=
  match @minimax TBoard (tabulated transposition_game) 3 2 NegInf PosInf
          (fresh_world (start_at 1)) with
  | Ok _ w => w
  | _ => fresh_world (start_at 1)
  end.

(** The engine of [primed_world] after two more calls on it. *)
Definition later_calls : list (@Call TBoard) :=
  [ call_best_move (start_at 0) 3;
    call_minimax (start_at 4) 1 NegInf PosInf ].

Definition session_end : World TBoard :=
  match @session TBoard (tabulated transposition_game) 4 later_calls
          primed_world with
  | Some w => w
  | None => primed_world
  end.

(** ** More vocabulary for the search *)

Section SearchVocabulary.
Context {Board : Type} `{PositionAdapter Board}.

(** No position within [n] plies of [b] is game over. *)
Fixpoint alive_for (n : nat) (b : Board) : bool :=
  match n with
  | O => true
  | S n' =>
      negb (is_game_over b)
      && forallb (fun m => alive_for n' (push b m)) (legal_moves b)
  end.

(** Every cache entry is for a remaining depth of at least 0. *)
Definition no_negative_depth (t : gmap CacheKey Z) : Prop :=
  forall k, is_Some (t !! k) -> 0 <= snd (fst k).

(** The scores the loop of [best_move] sees, in the order it sees them:
    each root move with the value [minimax] returns for it, every call made
    on the engine as the previous one left it. *)
Fixpoint root_scores (fuel : nat) (depth : Z) (mvs : list Move)
    (w : World Board) : list (Move * Z) :=
  match mvs with
  | [] => []
  | m :: rest =>
      match minimax fuel (depth - 1) NegInf PosInf (world_push w m) with
      | Ok sc w1 => (m, sc) :: root_scores fuel depth rest (world_pop w1)
      | _ => []
      end
  end.

(** [s] is a better score than [t] for the side [c]. *)
Definition better (c : Color) (s t : Z) : Prop :=
  if c then t < s else s < t.

(** The test and the update of the two [best_move] loops, by side. *)
Definition improves (c : Color) (best : Num) (s : Z) : bool :=
  if c then num_ltb best (Int s) else num_ltb (Int s) best.

Definition root_step (c : Color) :
    Num * option Move -> Move -> Z -> Num * option Move :=
  if c then white_step else black_step.
End SearchVocabulary.

(** The engine after a search of position P of the transposition game to
    depth 1 with the window (-inf, 0), and after [best_move] on the root to
    depth 3, each starting with an empty cache. *)
Definition cutoff_world : World TBoard :=
  match @minimax TBoard (tabulated transposition_game) 2 1 NegInf (Int 0)
          (fresh_world (start_at 4)) with
  | Ok _ w => w
  | _ => fresh_world (start_at 4)
  end.

Definition root_search_world : World TBoard :=
  match @best_move TBoard (tabulated transposition_game) 4 3
          (fresh_world (start_at 0)) with
  | Ok _ w => w
  | _ => fresh_world (start_at 0)
  end.

(** The engine after [best_move] on the root of the second-choice game to
    depth 3, starting with an empty cache. *)
Definition second_choice_world : World TBoard :=
  match @best_move TBoard (tabulated second_choice_game) 4 3
          (fresh_world (start_at 0)) with
  | Ok _ w => w
  | _ => fresh_world (start_at 0)
  end.

(** ** gui.py: board geometry *)

(** [chess.square_file], [chess.square_rank] and [chess.square]. *)
Definition square_file (square : Square) : Z := Z.land square 7.
Definition square_rank (square : Square) : Z := Z.shiftr square 3.
Definition chess_square (file_index rank_index : Z) : Square :=
  rank_index * 8 + file_index.

(** The fields of [ChessApp] that place the board on the canvas. *)
Record Canvas := mkCanvas {
  square_size : Z;
  margin : Z;
  flipped : bool
}.

(** [ChessApp._square_to_xy]: the top-left corner of a square. *)
Definition _square_to_xy (self : Canvas) (square : Square) : Z * Z :=
  let file := square_file square in
  let rank := square_rank square in
  let '(col, row) :=
    if negb (flipped self) then (file, 7 - rank) else (7 - file, rank) in
  let x := margin self + col * square_size self in
  let y := margin self + row * square_size self in
  (x, y).

(** [ChessApp._xy_to_square]: the square under a canvas point, if any.
    The coordinates of a click are integers and [//] is floor division. *)
Definition _xy_to_square (self : Canvas) (x y : Z) : option Square :=
  let x := x - margin self in
  let y := y - margin self in
  if (x <? 0) || (y <? 0) then None
  else
    let col := x / square_size self in
    let row := y / square_size self in
    if (col <? 0) || (7 <? col) || (row <? 0) || (7 <? row) then None
    else
      let '(file, rank) :=
        if negb (flipped self) then (col, 7 - row) else (7 - col, row) in
      Some (chess_square file rank).

(** [ChessApp.flip_board] on the fields that place the board. *)
Definition flip_board (self : Canvas) : Canvas :=
  mkCanvas (square_size self) (margin self) (negb (flipped self)).

(** The canvas as [ChessApp.__init__] sets it up for a player with the
    white pieces. *)
Definition initial_canvas : Canvas := mkCanvas 150 50 false.

(** ** gui.py: entering a move *)

(** The four radio buttons of the promotion dialog and [PROMO_MAP]. *)
Inductive PromoChoice := choice_Q | choice_R | choice_B | choice_N.

Definition PROMO_MAP (choice : PromoChoice) : PieceType :=
  match choice with
  | choice_Q => QUEEN
  | choice_R => ROOK
  | choice_B => BISHOP
  | choice_N => KNIGHT
  end.

(** The test [mv.from_square == from_sq and mv.to_square == to_sq], and
    [mv.promotion is not None]. *)
Definition joins (from_sq to_sq : Square) (mv : Move) : bool :=
  (from_square mv =? from_sq) && (to_square mv =? to_sq).

Definition promotes (mv : Move) : bool :=
  match promotion mv with
  | Some _ => true
  | None => false
  end.

Section MoveEntry.
Context {Board : Type} `{PositionAdapter Board}.

(** [ChessApp._legal_destinations_from] on the live board. *)
Definition _legal_destinations_from (board : Board) (from_sq : Square)
    : gset Z :=
  fold_left
    (fun dests mv =>
       if from_square mv =? from_sq then dests ∪ {[ to_square mv ]}
       else dests)
    (legal_moves board) ∅.

(** [ChessApp._make_move_from_to] on the live board.  [dialog] is what
    [_promotion_dialog] returns when it is shown: the chosen button, or
    [None] when the player cancels. *)
Definition _make_move_from_to (board : Board) (from_sq to_sq : Square)
    (dialog : option PromoChoice) : option Move :=
  let candidates := List.filter (joins from_sq to_sq) (legal_moves board) in
  match candidates with
  | [] => None
  | first :: others =>
      let forced :=
        match others, promotion first with
        | [], None => true
        | _, _ => false
        end in
      if forced then Some first
      else
        let promo_moves := List.filter promotes candidates in
        match promo_moves with
        | first_promo :: _ =>
            match dialog with
            | None => None
            | Some choice =>
                let promo_piece := PROMO_MAP choice in
                match
                  List.find (fun mv => promotion_eqb (promotion mv)
                                         (Some promo_piece)) promo_moves
                with
                | Some mv => Some mv
                | None => Some first_promo
                end
            end
        | [] => Some first
        end
  end.
End MoveEntry.

(** ** gui.py: the draw offer *)

(** How [ChessApp.offer_draw] ends: it returns at once when the game is
    over, ends the game with "Draw agreed.", or shows the refusal. *)
Inductive DrawReply := draw_ignored | draw_agreed | draw_refused.

Section DrawOffer.
Context {Board : Type} `{PositionAdapter Board}.

(** [ChessApp.offer_draw]; [game_over] is the field of that name and
    [displayed] the board [_get_display_board] returns.  [None] stands for
    the [IndexError] of [evaluate]. *)
Definition offer_draw (game_over : bool) (displayed : Board)
    : option DrawReply :=
  if game_over then Some draw_ignored
  else
    match evaluate displayed with
    | Some score =>
        if Z.abs score <=? 500 then Some draw_agreed else Some draw_refused
    | None => None
    end.
End DrawOffer.

(** ** gui.py: the evaluation label and bar

    Python's [float] is the IEEE 754 double, here the kernel's primitive
    float. *)

(** [float(n)], as [/] and [*] convert an [int] operand; exact for the
    integers used here. *)
Definition float_of_int (n : Z) : PrimFloat.float :=
  if n <? 0
  then PrimFloat.opp (PrimFloat.of_uint63 (Uint63Axioms.of_Z (- n)))
  else PrimFloat.of_uint63 (Uint63Axioms.of_Z n).

(** [int(x)] on a float: truncation towards zero; [None] where Python
    raises, on an infinity or a NaN. *)
Definition int_of_float (x : PrimFloat.float) : option Z :=
  match FloatOps.Prim2SF x with
  | SpecFloat.S754_zero _ => Some 0
  | SpecFloat.S754_finite s m e =>
      let magnitude :=
        match e with
        | Z0 => Zpos m
        | Zpos p => Zpos m * 2 ^ Zpos p
        | Zneg p => Zpos m / 2 ^ Zpos p
        end in
      Some (if s then - magnitude else magnitude)
  | _ => None
  end.

(** The nearest integer to [num / den], ties to the even one. *)
Definition round_half_even (num den : Z) : Z :=
  let q := num / den in
  let r := num mod den in
  if 2 * r <? den then q
  else if den <? 2 * r then q + 1
  else if Z.even q then q else q + 1.

(** A natural number in decimal, and in two digits. *)
Definition decimal (n : Z) : string :=
  DecimalString.NilZero.string_of_uint (N.to_uint (Z.to_N n)).

Definition two_digits (n : Z) : string :=
  if n <? 10 then String.append "0" (decimal n) else decimal n.

(** The format [f"{x:.2f}"]: the exact value of the double, correctly
    rounded to two decimals. *)
Definition format_2f (x : PrimFloat.float) : string :=
  match FloatOps.Prim2SF x with
  | SpecFloat.S754_zero s => String.append (if s then "-" else "") "0.00"
  | SpecFloat.S754_infinity s => String.append (if s then "-" else "") "inf"
  | SpecFloat.S754_nan => "nan"
  | SpecFloat.S754_finite s m e =>
      let cents :=
        match e with
        | Z0 => 100 * Zpos m
        | Zpos p => 100 * Zpos m * 2 ^ Zpos p
        | Zneg p => round_half_even (100 * Zpos m) (2 ^ Zpos p)
        end in
      String.append (if s then "-" else "")
        (String.append (decimal (cents / 100))
           (String.append "." (two_digits (cents mod 100))))
  end%string.

(** [ChessApp._format_eval_text] *)
Definition _format_eval_text (score : Z) : string :=
  if MATE_SCORE - 50 <=? Z.abs score then "MATE"%string
  else format_2f (PrimFloat.div (float_of_int score) (float_of_int 100)).

(** The height of the evaluation canvas as [_build_ui] creates it. *)
Definition eval_canvas_height : Z := 280.

(** The local [white_h] of [ChessApp._update_eval_bar]: the height of the
    white part of the bar on a canvas of height [h]. *)
Definition white_height (h score : Z) : option Z :=
  let CLIP := 1000 in
  let s := Z.max (- CLIP) (Z.min CLIP score) in
  let frac :=
    PrimFloat.div (float_of_int (s + CLIP)) (float_of_int (2 * CLIP)) in
  int_of_float (PrimFloat.mul (float_of_int h) frac).

Section EvalBar.
Context {Board : Type} `{PositionAdapter Board}.

(** [ChessApp._update_eval_bar]: the text of the label and the height of
    the white rectangle it draws; [None] where [evaluate] raises. *)
Definition _update_eval_bar (board : Board) : option (string * Z) :=
  match evaluate board with
  | Some score =>
      match white_height eval_canvas_height score with
      | Some white_h => Some (_format_eval_text score, white_h)
      | None => None
      end
  | None => None
  end.
End EvalBar.

(** The integers [lo], [lo + 1], ..., [lo + n - 1]. *)
Definition consecutive (lo : Z) (n : nat) : list Z :=
  map (fun i => lo + Z.of_nat i) (seq 0 n).

(** * Properties *)

(** ** Python numbers *)

Lemma num_ltb_irrefl (a : Num) : num_ltb a a = false.
Proof. destruct a; simpl; auto. apply Z.ltb_irrefl. Qed.

Lemma py_max_int (a : Num) (z : Z) :
  a <> PosInf -> exists v, py_max a (Int z) = Int v.
Proof.
  intros Ha. unfold py_max. destruct a as [|x|]; simpl; eauto.
  - destruct (x <? z); eauto.
  - congruence.
Qed.

Lemma py_min_int (a : Num) (z : Z) :
  a <> NegInf -> exists v, py_min a (Int z) = Int v.
Proof.
  intros Ha. unfold py_min. destruct a as [|x|]; simpl; eauto.
  - congruence.
  - destruct (z <? x); eauto.
Qed.

(** ** The evaluator *)

Lemma square_mirror_involutive (sq : Square) :
  square_mirror (square_mirror sq) = sq.
Proof.
  unfold square_mirror.
  rewrite Z.lxor_assoc, Z.lxor_nilpotent. apply Z.lxor_0_r.
Qed.

Lemma py_index_in_range {A} (l : list A) (i : Z) :
  0 <= i < Z.of_nat (length l) -> is_Some (py_index l i).
Proof.
  intros Hi. unfold py_index.
  destruct (Z.leb_spec 0 i); [|lia].
  apply lookup_lt_is_Some. lia.
Qed.

Lemma square_mirror_range (sq : Square) :
  0 <= sq < 64 -> 0 <= square_mirror sq < 64.
Proof.
  intros Hsq. unfold square_mirror.
  assert (Hcases : forall n : nat, (n < 64)%nat ->
            0 <= Z.lxor (Z.of_nat n) 56 < 64).
  { intros n Hn. do 64 (destruct n as [|n]; [vm_compute; split; congruence|]).
    lia. }
  specialize (Hcases (Z.to_nat sq)). rewrite Z2Nat.id in Hcases by lia.
  apply Hcases. lia.
Qed.

Lemma table_length (pt : PieceType) : length (PIECE_SQUARE_TABLE pt) = 64%nat.
Proof. destruct pt; reflexivity. Qed.

Lemma pieceSquareTableValue_some (pt : PieceType) (sq : Square) (c : Color) :
  0 <= sq < 64 -> is_Some (pieceSquareTableValue pt sq c).
Proof.
  intros Hsq. unfold pieceSquareTableValue.
  apply py_index_in_range. rewrite table_length.
  destruct c; [lia|]. pose proof (square_mirror_range sq Hsq). lia.
Qed.

Lemma piece_term_some (sq : Square) (p : Piece) :
  0 <= sq < 64 -> is_Some (piece_term sq p).
Proof.
  intros Hsq. unfold piece_term.
  destruct (pieceSquareTableValue_some (piece_type p) sq (color p) Hsq)
    as [v ->]. eauto.
Qed.

Lemma piece_term_mirror (it : Square * Piece) :
  piece_term (fst (mirror_item it)) (snd (mirror_item it))
  = option_map Z.opp (piece_term (fst it) (snd it)).
Proof.
  destruct it as [sq [pt c]]. unfold piece_term, pieceSquareTableValue.
  simpl. destruct c; simpl.
  - rewrite square_mirror_involutive.
    destruct (py_index (PIECE_SQUARE_TABLE pt) sq); reflexivity.
  - destruct (py_index (PIECE_SQUARE_TABLE pt) (square_mirror sq)); simpl;
      [f_equal; lia | reflexivity].
Qed.

Lemma material_loop_sum (items : list (Square * Piece)) (acc : Z) :
  material_loop items acc = option_map (Z.add acc) (sum_terms items).
Proof.
  revert acc. induction items as [|[sq p] rest IH]; intros acc; simpl.
  - f_equal. lia.
  - destruct (piece_term sq p) as [t|]; [|reflexivity].
    rewrite IH. destruct (sum_terms rest); simpl; [f_equal; lia | reflexivity].
Qed.

Lemma sum_terms_perm (l1 l2 : list (Square * Piece)) :
  Permutation l1 l2 -> sum_terms l1 = sum_terms l2.
Proof.
  induction 1 as [|x l l' _ IH|x y l|l l' l'' _ IH1 _ IH2]; simpl.
  - reflexivity.
  - rewrite IH. reflexivity.
  - destruct (piece_term (fst x) (snd x)), (piece_term (fst y) (snd y)),
      (sum_terms l); try reflexivity. f_equal. lia.
  - congruence.
Qed.

Lemma sum_terms_mirror (items : list (Square * Piece)) :
  sum_terms (map mirror_item items) = option_map Z.opp (sum_terms items).
Proof.
  induction items as [|it rest IH]; [reflexivity|].
  cbn [map sum_terms]. rewrite piece_term_mirror, IH.
  destruct (piece_term (fst it) (snd it)), (sum_terms rest); simpl;
    try reflexivity. f_equal. lia.
Qed.

Lemma sum_terms_some (items : list (Square * Piece)) :
  (forall sq p, In (sq, p) items -> 0 <= sq < 64) ->
  is_Some (sum_terms items).
Proof.
  induction items as [|[sq p] rest IH]; intros Hall; simpl; [eauto|].
  destruct (piece_term_some sq p) as [t ->]; [apply (Hall sq p); now left|].
  destruct IH as [s ->]; [|eauto].
  intros sq' p' Hin. apply (Hall sq' p'). now right.
Qed.

Section EvaluatorFacts.
Context {Board : Type} `{PositionAdapter Board}.

Lemma evaluate_some (b : Board) :
  squares_on_board -> is_Some (evaluate b).
Proof.
  intros Hsq. unfold evaluate.
  destruct (is_checkmate b); [eauto|].
  destruct (is_stalemate b || is_insufficient_material b || can_claim_draw b);
    [eauto|].
  rewrite material_loop_sum.
  destruct (sum_terms_some (piece_map b)) as [s ->]; [apply Hsq|].
  simpl. eauto.
Qed.

(** C5.  On a terminal position [evaluate] answers before any piece is
    scored.  Checkmate is tested first and gives [MATE_SCORE] = 10000
    against the side to move: negative when White is mated, positive when
    Black is.  Otherwise stalemate, insufficient material or a claimable
    draw gives exactly 0, whatever the pieces on the board. *)
Theorem evaluate_terminal_policy (b : Board) :
  (is_checkmate b = true ->
   evaluate b = Some (if turn b then - MATE_SCORE else MATE_SCORE))
  /\ (is_checkmate b = false ->
      is_stalemate b = true \/ is_insufficient_material b = true
        \/ can_claim_draw b = true ->
      evaluate b = Some 0)
  /\ MATE_SCORE = 10000.
Proof.
  unfold evaluate. split; [|split].
  - intros ->. reflexivity.
  - intros -> Hdraw.
    assert (is_stalemate b || is_insufficient_material b || can_claim_draw b
            = true) as ->; [|reflexivity].
    destruct Hdraw as [-> | [-> | ->]];
      destruct (is_stalemate b), (is_insufficient_material b); reflexivity.
  - reflexivity.
Qed.

(** C6.  If [b'] is the mirror-image colour swap of [b], then [evaluate]
    on [b'] is the exact negation of [evaluate] on [b] (and fails on one
    exactly when it fails on the other). *)
Theorem evaluate_mirror_negates (b b' : Board) :
  mirror_image b b' ->
  evaluate b' = option_map Z.opp (evaluate b).
Proof.
  intros [Hp Ht Hcm Hsm Him Hcd Hmob]. unfold evaluate.
  rewrite Hcm, Hsm, Him, Hcd, Ht, Hmob.
  destruct (is_checkmate b).
  { destruct (turn b); reflexivity. }
  destruct (is_stalemate b || is_insufficient_material b || can_claim_draw b).
  { reflexivity. }
  rewrite !material_loop_sum, (sum_terms_perm _ _ Hp), sum_terms_mirror.
  destruct (sum_terms (piece_map b)) as [s|]; simpl; [|reflexivity].
  f_equal. destruct (turn b); simpl; lia.
Qed.
End EvaluatorFacts.

(** ** The stable descending sort *)

Section SortFacts.
Context {A : Type}.
Implicit Types (x : Z * A) (l : list (Z * A)).

Lemma insert_desc_perm x l : Permutation (insert_desc x l) (x :: l).
Proof.
  induction l as [|y rest IH]; simpl; [reflexivity|].
  destruct (fst x <? fst y); [|reflexivity].
  rewrite IH. apply perm_swap.
Qed.

Lemma sort_desc_perm l : Permutation (sort_desc l) l.
Proof.
  induction l as [|x rest IH]; simpl; [reflexivity|].
  rewrite insert_desc_perm. now constructor.
Qed.

Lemma insert_desc_sorted x l :
  StronglySorted (fun a b => fst b <= fst a) l ->
  StronglySorted (fun a b => fst b <= fst a) (insert_desc x l).
Proof.
  induction 1 as [|y rest Hs IH Hy]; simpl.
  - repeat constructor.
  - destruct (Z.ltb_spec (fst x) (fst y)) as [Hlt|Hge].
    + constructor; [exact IH|].
      eapply Permutation_Forall; [symmetry; apply insert_desc_perm|].
      constructor; [lia | exact Hy].
    + constructor; [constructor; assumption|].
      constructor; [lia|].
      eapply List.Forall_impl; [|exact Hy]. simpl. intros z Hz. lia.
Qed.

Lemma sort_desc_sorted l :
  StronglySorted (fun a b => fst b <= fst a) (sort_desc l).
Proof.
  induction l as [|x rest IH]; simpl; [constructor|].
  now apply insert_desc_sorted.
Qed.

Lemma insert_desc_filter (s : Z) x l :
  List.filter (fun e => fst e =? s) (insert_desc x l)
  = List.filter (fun e => fst e =? s) (x :: l).
Proof.
  induction l as [|y rest IH]; [reflexivity|].
  cbn [insert_desc]. destruct (Z.ltb_spec (fst x) (fst y)) as [Hlt|Hge];
    [|reflexivity].
  cbn [List.filter] in *. rewrite IH.
  destruct (Z.eqb_spec (fst x) s), (Z.eqb_spec (fst y) s);
    try reflexivity. lia.
Qed.

Lemma sort_desc_filter (s : Z) l :
  List.filter (fun e => fst e =? s) (sort_desc l)
  = List.filter (fun e => fst e =? s) l.
Proof.
  induction l as [|x rest IH]; [reflexivity|].
  cbn [sort_desc]. rewrite insert_desc_filter.
  cbn [List.filter]. now rewrite IH.
Qed.

(** Sorting a list by a key function [f], decorated and undecorated. *)
Variable f : A -> Z.

Lemma sort_by_perm (l : list A) :
  Permutation (map snd (sort_desc (map (fun a => (f a, a)) l))) l.
Proof.
  rewrite sort_desc_perm, map_map. simpl. now rewrite map_id.
Qed.

Lemma sort_by_keyed (l : list A) :
  Forall (fun e => fst e = f (snd e)) (sort_desc (map (fun a => (f a, a)) l)).
Proof.
  eapply Permutation_Forall; [symmetry; apply sort_desc_perm|].
  apply List.Forall_forall. intros e He. apply in_map_iff in He.
  destruct He as [a [<- _]]. reflexivity.
Qed.

Lemma sort_by_sorted (l : list A) :
  StronglySorted (fun a b => f b <= f a)
    (map snd (sort_desc (map (fun a => (f a, a)) l))).
Proof.
  pose proof (sort_desc_sorted (map (fun a => (f a, a)) l)) as Hs.
  pose proof (sort_by_keyed l) as Hk.
  induction Hs as [|e rest Hs IH He]; simpl; [constructor|].
  inversion Hk as [|? ? Hke Hkr]; subst.
  constructor; [now apply IH|].
  apply List.Forall_forall. intros a Ha. apply in_map_iff in Ha.
  destruct Ha as [e' [<- He']].
  rewrite List.Forall_forall in He, Hkr.
  rewrite <- Hke, <- (Hkr e' He'). now apply He.
Qed.

Lemma sort_by_stable (s : Z) (l : list A) :
  List.filter (fun a => f a =? s)
    (map snd (sort_desc (map (fun a => (f a, a)) l)))
  = List.filter (fun a => f a =? s) l.
Proof.
  assert (Hmap : forall k : list (Z * A),
            Forall (fun e => fst e = f (snd e)) k ->
            List.filter (fun a => f a =? s) (map snd k)
            = map snd (List.filter (fun e => fst e =? s) k)).
  { induction 1 as [|e k He _ IH]; [reflexivity|].
    simpl. rewrite He, IH. now destruct (f (snd e) =? s). }
  rewrite (Hmap _ (sort_by_keyed l)), sort_desc_filter.
  rewrite <- Hmap.
  - rewrite map_map. simpl. now rewrite map_id.
  - apply List.Forall_forall. intros e He. apply in_map_iff in He.
    destruct He as [a [<- _]]. reflexivity.
Qed.
End SortFacts.

Lemma sorted_app_order {A} (R : A -> A -> Prop) (l1 l2 : list A) :
  StronglySorted R (l1 ++ l2) ->
  forall a b, In a l1 -> In b l2 -> R a b.
Proof.
  induction l1 as [|x l1 IH]; simpl; intros Hs a b Ha Hb; [contradiction|].
  inversion Hs as [|? ? Hs' Hx]; subst.
  destruct Ha as [<-|Ha].
  - rewrite List.Forall_forall in Hx. apply Hx, in_or_app. now right.
  - now apply IH.
Qed.

Lemma sorted_precedes {A} (f : A -> Z) (l : list A) (x y : A) :
  StronglySorted (fun a b => f b <= f a) l ->
  In x l -> In y l -> f y < f x -> precedes x y l.
Proof.
  intros Hs Hx Hy Hlt.
  destruct (in_split _ _ Hx) as [l1 [l2 ->]].
  apply in_app_or in Hy. destruct Hy as [Hy|[->|Hy]].
  - pose proof (sorted_app_order _ _ _ Hs y x Hy (or_introl eq_refl)).
    simpl in *. lia.
  - lia.
  - destruct (in_split _ _ Hy) as [l3 [l4 ->]].
    now exists l1, l3, l4.
Qed.

(** ** Move ordering *)

Section OrderingFacts.
Context {Board : Type} `{PositionAdapter Board}.

Lemma key_board (b : Board) (m : Move) : snd (key b m) = pop (push b m).
Proof. reflexivity. Qed.

Lemma key_score (b : Board) (m : Move) :
  heuristic b m
  = (if is_capture b m then
       match piece_at b (to_square m), piece_at b (from_square m) with
       | Some cp, Some ap =>
           10000 + PIECE_VALUES (piece_type cp) * 10
           - PIECE_VALUES (piece_type ap)
       | Some cp, None => 10000 + PIECE_VALUES (piece_type cp) * 10
       | None, Some ap => - PIECE_VALUES (piece_type ap)
       | None, None => 0
       end
     else 0)
    + promotion_bonus m + check_bonus b m.
Proof.
  unfold heuristic, key, promotion_bonus, check_bonus. cbn [fst].
  destruct (is_capture b m), (piece_at b (to_square m)),
    (piece_at b (from_square m)), (promotion m), (is_check (push b m)); lia.
Qed.

Lemma piece_value_bounds (pt : PieceType) : 0 <= PIECE_VALUES pt <= 900.
Proof. destruct pt; simpl; lia. Qed.

Lemma promotion_bonus_bounds (m : Move) : 0 <= promotion_bonus m <= 9900.
Proof.
  unfold promotion_bonus. destruct (promotion m) as [pt|]; [|lia].
  pose proof (piece_value_bounds pt). lia.
Qed.

Lemma check_bonus_bounds (b : Board) (m : Move) : 0 <= check_bonus b m <= 500.
Proof. unfold check_bonus. destruct (is_check (push b m)); lia. Qed.

(** The moves come back in some order whatever the board does. *)
Lemma decorate_moves (b : Board) (mvs : list Move) :
  map snd (fst (decorate b mvs)) = mvs.
Proof.
  revert b. induction mvs as [|m rest IH]; intros b; [reflexivity|].
  cbn [decorate]. destruct (key b m) as [k b1].
  specialize (IH b1). destruct (decorate b1 rest) as [ks b2].
  simpl in *. now rewrite IH.
Qed.

Lemma move_ordering_perm (b : Board) :
  Permutation (fst (move_ordering b)) (legal_moves b).
Proof.
  unfold move_ordering.
  pose proof (decorate_moves b (legal_moves b)) as Hd.
  destruct (decorate b (legal_moves b)) as [keyed b']. simpl in *.
  rewrite sort_desc_perm. now rewrite Hd.
Qed.

Lemma move_ordering_in (b : Board) (m : Move) :
  In m (fst (move_ordering b)) <-> In m (legal_moves b).
Proof.
  split; apply Permutation_in;
    [|symmetry]; apply move_ordering_perm.
Qed.

Lemma move_ordering_nil (b : Board) :
  legal_moves b = [] -> move_ordering b = ([], b).
Proof. unfold move_ordering. intros ->. reflexivity. Qed.

Lemma move_ordering_nonempty (b : Board) :
  legal_moves b <> [] -> fst (move_ordering b) <> [].
Proof.
  intros Hne Hnil. apply Hne.
  pose proof (move_ordering_perm b) as Hp. rewrite Hnil in Hp.
  now apply Permutation_nil.
Qed.

(** When [pop] undoes [push], every probe leaves the board as it was, so
    all keys are taken on the same board. *)
Lemma decorate_frame (b : Board) (mvs : list Move) :
  pop_undoes_push ->
  (forall m, In m mvs -> In m (legal_moves b)) ->
  decorate b mvs = (map (fun m => (heuristic b m, m)) mvs, b).
Proof.
  intros Hpp. induction mvs as [|m rest IH]; intros Hlegal; [reflexivity|].
  cbn [decorate map].
  pose proof (key_board b m) as Hk. unfold heuristic.
  destruct (key b m) as [k b1]. simpl in Hk. subst b1.
  rewrite (Hpp b m) by (apply Hlegal; now left).
  rewrite IH by (intros m' Hm'; apply Hlegal; now right).
  reflexivity.
Qed.

Lemma move_ordering_frame (b : Board) :
  pop_undoes_push ->
  move_ordering b
  = (map snd (sort_desc (map (fun m => (heuristic b m, m)) (legal_moves b))),
     b).
Proof.
  intros Hpp. unfold move_ordering.
  rewrite (decorate_frame b (legal_moves b) Hpp) by auto. reflexivity.
Qed.

(** C8.  [move_ordering] returns a permutation of the legal moves, in
    descending order of heuristic score: a move with a strictly higher score
    comes before one with a lower score, and moves with equal scores keep
    the order in which the adapter enumerated them. *)
Theorem move_ordering_stable_descending (b : Board) :
  pop_undoes_push ->
  Permutation (fst (move_ordering b)) (legal_moves b)
  /\ descending b (fst (move_ordering b))
  /\ (forall m m', In m (legal_moves b) -> In m' (legal_moves b) ->
        heuristic b m' < heuristic b m ->
        precedes m m' (fst (move_ordering b)))
  /\ (forall s,
        List.filter (fun m => heuristic b m =? s) (fst (move_ordering b))
        = List.filter (fun m => heuristic b m =? s) (legal_moves b)).
Proof.
  intros Hpp.
  assert (Hsorted : descending b (fst (move_ordering b))).
  { rewrite (move_ordering_frame b Hpp). apply sort_by_sorted. }
  split; [apply move_ordering_perm|]. split; [exact Hsorted|]. split.
  - intros m m' Hm Hm' Hlt.
    apply (sorted_precedes (heuristic b)); auto; now apply move_ordering_in.
  - intros s. rewrite (move_ordering_frame b Hpp). apply sort_by_stable.
Qed.

(** C3, as the code has it.  For a legal capture whose destination square
    holds a piece, the heuristic score is the capture term 10000 + 10 x the
    captured piece's value - the capturing piece's value, plus the promotion
    and check terms.  Such a capture is ordered ahead of every legal move
    that is neither a capture nor a promotion, and ahead of every legal
    non-capture whatsoever when 10 x captured - capturing exceeds 400. *)
Theorem capture_term_and_rank (b : Board) (c : Move) (cp ap : Piece) :
  pop_undoes_push ->
  In c (legal_moves b) ->
  is_capture b c = true ->
  piece_at b (to_square c) = Some cp ->
  piece_at b (from_square c) = Some ap ->
  heuristic b c
  = (10000 + 10 * PIECE_VALUES (piece_type cp)
     - PIECE_VALUES (piece_type ap))
    + promotion_bonus c + check_bonus b c
  /\ (forall q, In q (legal_moves b) -> is_capture b q = false ->
        promotion q = None ->
        precedes c q (fst (move_ordering b)))
  /\ (forall q, In q (legal_moves b) -> is_capture b q = false ->
        400 < 10 * PIECE_VALUES (piece_type cp)
              - PIECE_VALUES (piece_type ap) ->
        precedes c q (fst (move_ordering b))).
Proof.
  intros Hpp Hc Hcap Hto Hfrom.
  assert (Hscore : heuristic b c
    = (10000 + 10 * PIECE_VALUES (piece_type cp)
       - PIECE_VALUES (piece_type ap))
      + promotion_bonus c + check_bonus b c).
  { rewrite key_score, Hcap, Hto, Hfrom. lia. }
  destruct (move_ordering_stable_descending b Hpp) as (_ & _ & Hrank & _).
  pose proof (piece_value_bounds (piece_type cp)).
  pose proof (piece_value_bounds (piece_type ap)).
  pose proof (promotion_bonus_bounds c).
  pose proof (check_bonus_bounds b c).
  split; [exact Hscore|]. split.
  - intros q Hq Hquiet Hnopromo. apply Hrank; auto.
    rewrite Hscore, (key_score b q), Hquiet.
    unfold promotion_bonus at 1. rewrite Hnopromo.
    pose proof (check_bonus_bounds b q). lia.
  - intros q Hq Hquiet Hgap. apply Hrank; auto.
    rewrite Hscore, (key_score b q), Hquiet.
    pose proof (promotion_bonus_bounds q).
    pose proof (check_bonus_bounds b q). lia.
Qed.
End OrderingFacts.

(** ** The search engine *)

Section CacheGrowth.

Lemma grows_refl (d : Z) (t : gmap CacheKey Z) : grows d t t.
Proof.
  split; [reflexivity|]. intros k Hnone [v Hv]. congruence.
Qed.

Lemma grows_trans (d : Z) (t1 t2 t3 : gmap CacheKey Z) :
  grows d t1 t2 -> grows d t2 t3 -> grows d t1 t3.
Proof.
  intros [Hs12 Hd12] [Hs23 Hd23]. split; [now transitivity t2|].
  intros k Hnone Hsome.
  destruct (t2 !! k) as [v|] eqn:Hk; [apply Hd12; eauto | apply Hd23; auto].
Qed.

Lemma grows_weaken (d d' : Z) (t t' : gmap CacheKey Z) :
  d <= d' -> grows d t t' -> grows d' t t'.
Proof.
  intros Hle [Hs Hd]. split; [exact Hs|].
  intros k Hnone Hsome. specialize (Hd k Hnone Hsome). lia.
Qed.

Lemma grows_insert (d : Z) (k : CacheKey) (v : Z) (t : gmap CacheKey Z) :
  t !! k = None -> snd (fst k) <= d -> grows d t (<[k := v]> t).
Proof.
  intros Hnone Hd. split; [now apply insert_subseteq|].
  intros k' Hk' [v' Hv'].
  destruct (decide (k = k')) as [<-|Hne]; [exact Hd|].
  rewrite lookup_insert_ne in Hv' by exact Hne. congruence.
Qed.

Lemma grows_fresh (d : Z) (k : CacheKey) (t t' : gmap CacheKey Z) :
  grows d t t' -> t !! k = None -> d < snd (fst k) -> t' !! k = None.
Proof.
  intros [_ Hd] Hnone Hlt.
  destruct (t' !! k) as [v|] eqn:Hk; [|reflexivity].
  specialize (Hd k Hnone (ltac:(eauto))). lia.
Qed.
End CacheGrowth.

Section LoopFacts.
Context {Board : Type} `{PositionAdapter Board} {Acc : Type}.
Variable call : Acc -> World Board -> Outcome (World Board) Z.
Variable step : Acc -> Move -> Z -> Acc.
Variable stop : Acc -> bool.

(** If every call only extends the cache, so does the loop, however it
    ends. *)
Lemma search_loop_grows (d : Z) :
  (forall acc w w', world_after (call acc w) = Some w' ->
                    grows d (tt w) (tt w')) ->
  forall mvs acc w w',
    world_after (search_loop call step stop mvs acc w) = Some w' ->
    grows d (tt w) (tt w').
Proof.
  intros Hcall. induction mvs as [|m rest IH]; intros acc w w' Hend.
  - simpl in Hend. injection Hend as <-. apply grows_refl.
  - cbn [search_loop] in Hend.
    pose proof (Hcall acc (world_push w m)) as Hc.
    destruct (call acc (world_push w m)) as [val w1|e s|];
      [| exact (Hc _ Hend) | discriminate].
    specialize (Hc w1 eq_refl). simpl in Hc.
    destruct (stop (step acc m val)).
    + simpl in Hend. injection Hend as <-. exact Hc.
    + eapply grows_trans; [exact Hc|]. exact (IH _ _ _ Hend).
Qed.

(** If every call returns the board it was given and [pop] undoes [push],
    the loop returns the board it was given. *)
Lemma search_loop_frame :
  pop_undoes_push ->
  (forall acc w v w', call acc w = Ok v w' -> board w' = board w) ->
  forall mvs acc w acc' w',
    (forall m, In m mvs -> In m (legal_moves (board w))) ->
    search_loop call step stop mvs acc w = Ok acc' w' ->
    board w' = board w.
Proof.
  intros Hpp Hcall. induction mvs as [|m rest IH];
    intros acc w acc' w' Hlegal Hrun.
  - simpl in Hrun. now injection Hrun as _ <-.
  - cbn [search_loop] in Hrun.
    destruct (call acc (world_push w m)) as [val w1|e s|] eqn:Hc;
      try discriminate.
    apply Hcall in Hc. simpl in Hc.
    assert (Hback : board (world_pop w1) = board w).
    { simpl. rewrite Hc. apply Hpp, Hlegal. now left. }
    destruct (stop (step acc m val)).
    + injection Hrun as _ <-. exact Hback.
    + rewrite <- Hback. eapply IH; [|exact Hrun].
      rewrite Hback. intros m' Hm'. apply Hlegal. now right.
Qed.

(** If every call returns, the loop returns. *)
Lemma search_loop_total :
  (forall acc w, exists v w', call acc w = Ok v w') ->
  forall mvs acc w, exists acc' w',
    search_loop call step stop mvs acc w = Ok acc' w'.
Proof.
  intros Hcall. induction mvs as [|m rest IH]; intros acc w; [simpl; eauto|].
  cbn [search_loop]. destruct (Hcall acc (world_push w m)) as (v & w1 & ->).
  destruct (stop (step acc m v)); eauto.
Qed.

(** A property of the loop variables that every update preserves holds at
    the end; one that every update establishes holds after at least one
    iteration. *)
Lemma search_loop_preserves (K : Acc -> Prop) :
  (forall acc m v, K acc -> K (step acc m v)) ->
  forall mvs acc w acc' w',
    K acc -> search_loop call step stop mvs acc w = Ok acc' w' -> K acc'.
Proof.
  intros Hstep. induction mvs as [|m rest IH]; intros acc w acc' w' HK Hrun.
  - simpl in Hrun. now injection Hrun as <- _.
  - cbn [search_loop] in Hrun.
    destruct (call acc (world_push w m)) as [val w1|e s|]; try discriminate.
    destruct (stop (step acc m val)).
    + injection Hrun as <- _. now apply Hstep.
    + eapply IH; [|exact Hrun]. now apply Hstep.
Qed.

Lemma search_loop_establishes (K J : Acc -> Prop) :
  (forall acc m v, K acc -> K (step acc m v) /\ J (step acc m v)) ->
  (forall acc m v, J acc -> K acc -> J (step acc m v)) ->
  forall mvs acc w acc' w',
    mvs <> [] -> K acc ->
    search_loop call step stop mvs acc w = Ok acc' w' -> J acc'.
Proof.
  intros Hstep HJ mvs acc w acc' w' Hne HK Hrun.
  destruct mvs as [|m rest]; [congruence|].
  cbn [search_loop] in Hrun.
  destruct (call acc (world_push w m)) as [val w1|e s|]; try discriminate.
  destruct (Hstep acc m val HK) as [HK' HJ'].
  destruct (stop (step acc m val)).
  - now injection Hrun as <- _.
  - apply (search_loop_preserves (fun a => J a /\ K a)) in Hrun; [tauto| |tauto].
    intros a m' v' [Ha1 Ha2]. split; [now apply HJ | now apply Hstep].
Qed.
End LoopFacts.

Section LoopShapes.
Context {Board : Type} `{PositionAdapter Board}.
Variable rec : Z -> Num -> Num -> World Board -> Outcome (World Board) Z.
Variable depth : Z.

Lemma max_loop_shape mvs best alpha beta w :
  max_loop rec depth mvs best alpha beta w
  = outcome_map (fun acc : Window => fst (fst acc))
      (search_loop (windowed rec depth) max_step cutoff mvs
         (best, alpha, beta) w).
Proof.
  revert best alpha w. induction mvs as [|m rest IH]; intros best alpha w;
    [reflexivity|].
  cbn [max_loop search_loop windowed].
  destruct (rec (depth - 1) alpha beta (world_push w m)) as [val w1|e s|];
    try reflexivity.
  cbn [max_step cutoff].
  destruct (num_leb beta (py_max alpha (py_max best (Int val))));
    [reflexivity | apply IH].
Qed.

Lemma min_loop_shape mvs best alpha beta w :
  min_loop rec depth mvs best alpha beta w
  = outcome_map (fun acc : Window => fst (fst acc))
      (search_loop (windowed rec depth) min_step cutoff mvs
         (best, alpha, beta) w).
Proof.
  revert best beta w. induction mvs as [|m rest IH]; intros best beta w;
    [reflexivity|].
  cbn [min_loop search_loop windowed].
  destruct (rec (depth - 1) alpha beta (world_push w m)) as [val w1|e s|];
    try reflexivity.
  cbn [min_step cutoff].
  destruct (num_leb (py_min beta (py_min best (Int val))) alpha);
    [reflexivity | apply IH].
Qed.

Lemma root_loop_white_shape mvs best_score best_mv w :
  root_loop_white rec depth mvs best_score best_mv w
  = search_loop (fun _ => rec (depth - 1) NegInf PosInf) white_step
      (fun _ => false) mvs (best_score, best_mv) w.
Proof.
  revert best_score best_mv w.
  induction mvs as [|m rest IH]; intros best_score best_mv w; [reflexivity|].
  cbn [root_loop_white search_loop].
  destruct (rec (depth - 1) NegInf PosInf (world_push w m)) as [sc w1|e s|];
    try reflexivity.
  unfold white_step. cbn [fst].
  destruct (num_ltb best_score (Int sc)); apply IH.
Qed.

Lemma root_loop_black_shape mvs best_score best_mv w :
  root_loop_black rec depth mvs best_score best_mv w
  = search_loop (fun _ => rec (depth - 1) NegInf PosInf) black_step
      (fun _ => false) mvs (best_score, best_mv) w.
Proof.
  revert best_score best_mv w.
  induction mvs as [|m rest IH]; intros best_score best_mv w; [reflexivity|].
  cbn [root_loop_black search_loop].
  destruct (rec (depth - 1) NegInf PosInf (world_push w m)) as [sc w1|e s|];
    try reflexivity.
  unfold black_step. cbn [fst].
  destruct (num_ltb (Int sc) best_score); apply IH.
Qed.
End LoopShapes.

Section EngineFacts.
Context {Board : Type} `{PositionAdapter Board}.

Lemma world_after_map {A B} (f : A -> B) (o : Outcome (World Board) A) :
  world_after (outcome_map f o) = world_after o.
Proof. destruct o; reflexivity. Qed.

Lemma outcome_map_ok {A B} (f : A -> B) (o : Outcome (World Board) A) b w :
  outcome_map f o = Ok b w -> exists a, o = Ok a w /\ b = f a.
Proof. destruct o; simpl; intros Ho; inversion Ho; eauto. Qed.

(** The body of [minimax] with the loops in their common shape. *)
Lemma minimax_step (fuel : nat) (depth : Z) (alpha beta : Num)
    (w : World Board) :
  minimax (S fuel) depth alpha beta w
  = let w0 := mkWorld (board w) (tt w) (nodes w + 1) in
    let k := cache_key (board w) depth in
    match tt w !! k with
    | Some v => Ok v w0
    | None =>
        if (depth =? 0) || is_game_over (board w) then
          match evaluate (board w) with
          | Some val => Ok val (store k val w0)
          | None => Raise IndexError w0
          end
        else
          let w1 := set_board w0 (snd (move_ordering (board w))) in
          let mvs := fst (move_ordering (board w)) in
          let looped :=
            outcome_map (fun acc : Window => fst (fst acc))
              (search_loop (windowed (minimax fuel) depth)
                 (if turn (board w) then max_step else min_step) cutoff mvs
                 (if turn (board w) then NegInf else PosInf, alpha, beta)
                 w1) in
          match looped with
          | Ok best w' =>
              match py_int best with
              | Some v => Ok v (store k v w')
              | None => Raise OverflowError w'
              end
          | Raise e s => Raise e s
          | OutOfFuel => OutOfFuel
          end
    end.
Proof.
  cbn [minimax board tt nodes]. cbv zeta.
  destruct (tt w !! cache_key (board w) depth); [reflexivity|].
  destruct ((depth =? 0) || is_game_over (board w)); [reflexivity|].
  destruct (move_ordering (board w)) as [mvs b']. cbn [fst snd].
  destruct (turn (board w)).
  - now rewrite max_loop_shape.
  - now rewrite min_loop_shape.
Qed.

Lemma best_move_step (fuel : nat) (depth : Z) (w : World Board) :
  best_move fuel depth w
  = let w0 := mkWorld (board w) (tt w) 0 in
    let w1 := set_board w0 (snd (move_ordering (board w))) in
    let mvs := fst (move_ordering (board w)) in
    let looped :=
      search_loop (fun _ => minimax fuel (depth - 1) NegInf PosInf)
        (if turn (board w) then white_step else black_step)
        (fun _ => false) mvs
        (if turn (board w) then NegInf else PosInf, None) w1 in
    match looped with
    | Ok acc w' =>
        match py_int (fst acc) with
        | Some sc => Ok (mkSearchResult sc (snd acc)) w'
        | None => Raise OverflowError w'
        end
    | Raise e s => Raise e s
    | OutOfFuel => OutOfFuel
    end.
Proof.
  unfold best_move. cbn [board tt nodes]. cbv zeta.
  destruct (move_ordering (board w)) as [mvs b']. cbn [fst snd].
  destruct (turn (board w)).
  - rewrite root_loop_white_shape.
    destruct (search_loop _ _ _ _ _ _) as [[bs bm] w'|e s|]; reflexivity.
  - rewrite root_loop_black_shape.
    destruct (search_loop _ _ _ _ _ _) as [[bs bm] w'|e s|]; reflexivity.
Qed.

(** *** The cache only grows *)

Lemma minimax_grows (fuel : nat) :
  forall depth alpha beta w w',
    world_after (minimax fuel depth alpha beta w) = Some w' ->
    grows depth (tt w) (tt w').
Proof.
  induction fuel as [|fuel IH]; intros depth alpha beta w w' Hend;
    [discriminate|].
  rewrite minimax_step in Hend. cbv zeta in Hend.
  destruct (tt w !! cache_key (board w) depth) as [v|] eqn:Hmiss.
  { injection Hend as <-. apply grows_refl. }
  destruct ((depth =? 0) || is_game_over (board w)).
  { destruct (evaluate (board w)); injection Hend as <-;
      [now apply grows_insert | apply grows_refl]. }
  set (loop := search_loop _ _ _ _ _ _) in Hend.
  assert (Hloop : forall w'', world_after loop = Some w'' ->
                              grows (depth - 1) (tt w) (tt w'')).
  { intros w'' Hw''. subst loop.
    apply search_loop_grows with (d := depth - 1) in Hw''; [exact Hw''|].
    intros [[best a] b] u u' Hu. exact (IH _ _ _ _ _ Hu). }
  destruct loop as [[[best a] b] w''|e s|]; simpl in Hend;
    [| injection Hend as <- | discriminate].
  - specialize (Hloop w'' eq_refl).
    destruct (py_int best); injection Hend as <-; simpl.
    + eapply grows_trans;
        [eapply grows_weaken; [|exact Hloop]; lia|].
      apply grows_insert; [|reflexivity].
      eapply grows_fresh; [exact Hloop|exact Hmiss|]. simpl. lia.
    + eapply grows_weaken; [|exact Hloop]. lia.
  - eapply grows_weaken; [|exact (Hloop s eq_refl)]. lia.
Qed.

Lemma best_move_grows (fuel : nat) (depth : Z) (w w' : World Board) :
  world_after (best_move fuel depth w) = Some w' ->
  grows (depth - 1) (tt w) (tt w').
Proof.
  rewrite best_move_step. cbv zeta. intros Hend.
  set (loop := search_loop _ _ _ _ _ _) in Hend.
  assert (Hloop : forall w'', world_after loop = Some w'' ->
                              grows (depth - 1) (tt w) (tt w'')).
  { intros w'' Hw''. subst loop.
    apply search_loop_grows with (d := depth - 1) in Hw''; [exact Hw''|].
    intros _ u u' Hu. exact (minimax_grows _ _ _ _ _ _ Hu). }
  destruct loop as [acc w''|e s|]; simpl in Hend; [| |discriminate].
  - destruct (py_int (fst acc)); injection Hend as <-; now apply Hloop.
  - injection Hend as <-. now apply Hloop.
Qed.

(** Write-once: when [minimax] stores the value of its loop, the key is
    still absent from the cache, because the calls below it only add keys
    of smaller depth. *)
Lemma minimax_store_is_fresh (fuel : nat) (depth : Z) (acc : Window)
    (step : Window -> Move -> Z -> Window) (mvs : list Move)
    (w w' : World Board) :
  tt w !! cache_key (board w) depth = None ->
  world_after (search_loop (windowed (minimax fuel) depth) step cutoff mvs
                 acc (set_board w (snd (move_ordering (board w)))))
  = Some w' ->
  tt w' !! cache_key (board w) depth = None.
Proof.
  intros Hmiss Hend.
  apply search_loop_grows with (d := depth - 1) in Hend.
  - eapply grows_fresh; [exact Hend|exact Hmiss|]. simpl. lia.
  - intros [[best a] b] u u' Hu. exact (minimax_grows _ _ _ _ _ _ Hu).
Qed.

Lemma run_call_grows (fuel : nat) (c : Call) (w w' : World Board) :
  run_call fuel c w = Some w' -> tt w ⊆ tt w'.
Proof.
  destruct c as [b depth alpha beta|b depth]; simpl; intros Hend.
  - now apply minimax_grows in Hend as [Hsub _].
  - now apply best_move_grows in Hend as [Hsub _].
Qed.

(** C9.  Through any sequence of [minimax] and [best_move] calls on one
    engine instance, on whatever boards and however the calls end, an entry
    of the cache is never removed and never given another score: what
    is mapped at some point is mapped to the same score after all later
    calls. *)
Theorem cache_entries_persist (fuel : nat) (calls : list Call)
    (w w' : World Board) (k : CacheKey) (v : Z) :
  session fuel calls w = Some w' ->
  tt w !! k = Some v ->
  tt w' !! k = Some v.
Proof.
  revert w. induction calls as [|c rest IH]; intros w Hrun Hk.
  - simpl in Hrun. now injection Hrun as <-.
  - cbn [session] in Hrun.
    destruct (run_call fuel c w) as [w1|] eqn:Hc; [|discriminate].
    apply (IH w1 Hrun).
    apply run_call_grows in Hc.
    eapply lookup_weaken; eassumption.
Qed.

(** *** Cache hits *)

Lemma minimax_hit (fuel : nat) (depth : Z) (alpha beta : Num)
    (w : World Board) (v : Z) :
  tt w !! cache_key (board w) depth = Some v ->
  minimax (S fuel) depth alpha beta w
  = Ok v (mkWorld (board w) (tt w) (nodes w + 1)).
Proof. intros Hhit. rewrite minimax_step. cbv zeta. now rewrite Hhit. Qed.

Lemma minimax_stores (fuel : nat) (depth : Z) (alpha beta : Num)
    (w w' : World Board) (v : Z) :
  minimax fuel depth alpha beta w = Ok v w' ->
  tt w' !! cache_key (board w) depth = Some v.
Proof.
  destruct fuel as [|fuel]; [discriminate|].
  rewrite minimax_step. cbv zeta.
  destruct (tt w !! cache_key (board w) depth) as [v0|] eqn:Hk.
  { intros Ho. inversion Ho; subst. exact Hk. }
  destruct ((depth =? 0) || is_game_over (board w)).
  { destruct (evaluate (board w)); intros Ho; inversion Ho; subst.
    apply lookup_insert_eq. }
  destruct (outcome_map _ _) as [best w''|e s|]; try discriminate.
  destruct (py_int best); intros Ho; inversion Ho; subst.
  apply lookup_insert_eq.
Qed.

(** C4, as the code has it.  After a [minimax] call has returned, and so
    stored, a score, a second call on that engine with the same cache key
    (whatever the window and the board object) returns exactly that score
    and does no further work: the cache and the board are untouched.  The
    node counter counts the visit itself: it goes up by exactly one. *)
Theorem requery_returns_stored_score (fuel fuel' : nat) (depth : Z)
    (alpha beta alpha' beta' : Num) (w w1 : World Board) (v : Z)
    (b' : Board) :
  minimax fuel depth alpha beta w = Ok v w1 ->
  cache_key b' depth = cache_key (board w) depth ->
  minimax (S fuel') depth alpha' beta' (set_board w1 b')
  = Ok v (mkWorld b' (tt w1) (nodes w1 + 1)).
Proof.
  intros Hfirst Hkey. apply minimax_stores in Hfirst.
  rewrite (minimax_hit fuel' depth alpha' beta' (set_board w1 b') v);
    [reflexivity|].
  simpl. now rewrite Hkey.
Qed.

(** *** The board is handed back as it was received *)

Lemma minimax_frame (fuel : nat) :
  pop_undoes_push ->
  forall depth alpha beta w v w',
    minimax fuel depth alpha beta w = Ok v w' -> board w' = board w.
Proof.
  intros Hpp. induction fuel as [|fuel IH];
    intros depth alpha beta w v w' Hrun; [discriminate|].
  rewrite minimax_step in Hrun. cbv zeta in Hrun.
  destruct (tt w !! cache_key (board w) depth).
  { now inversion Hrun. }
  destruct ((depth =? 0) || is_game_over (board w)).
  { destruct (evaluate (board w)); now inversion Hrun. }
  destruct (outcome_map _ _) as [best w''|e s|] eqn:Hloop; try discriminate.
  apply outcome_map_ok in Hloop as (acc & Hloop & _).
  apply search_loop_frame in Hloop; auto.
  - rewrite (move_ordering_frame _ Hpp) in Hloop. simpl in Hloop.
    destruct (py_int best); inversion Hrun; subst. exact Hloop.
  - intros [[best0 a] b] u x u' Hu. exact (IH _ _ _ _ _ _ Hu).
  - cbn [board set_board].
    assert (snd (move_ordering (board w)) = board w) as ->
      by now rewrite (move_ordering_frame _ Hpp).
    intros m. apply move_ordering_in.
Qed.

Lemma best_move_frame (fuel : nat) (depth : Z) (w w' : World Board)
    (r : SearchResult) :
  pop_undoes_push ->
  best_move fuel depth w = Ok r w' -> board w' = board w.
Proof.
  intros Hpp. rewrite best_move_step. cbv zeta. intros Hrun.
  destruct (search_loop _ _ _ _ _ _) as [acc w''|e s|] eqn:Hloop;
    try discriminate.
  apply search_loop_frame in Hloop; auto.
  - rewrite (move_ordering_frame _ Hpp) in Hloop. simpl in Hloop.
    destruct (py_int (fst acc)); inversion Hrun; subst. exact Hloop.
  - intros _ u x u' Hu. exact (minimax_frame _ Hpp _ _ _ _ _ _ Hu).
  - cbn [board set_board].
    assert (snd (move_ordering (board w)) = board w) as ->
      by now rewrite (move_ordering_frame _ Hpp).
    intros m. apply move_ordering_in.
Qed.

(** C7.  Provided the rules library's [pop] undoes its [push] on legal
    moves, every make is matched by an unmake: the check probe of [key],
    [move_ordering], [minimax] (cache hit, leaf, full loop or beta cutoff)
    and [best_move] all hand the board back, on normal return, exactly as
    they received it, and so with the same identity, side to move and
    legal moves. *)
Theorem board_restored_on_return :
  pop_undoes_push ->
  (forall b m, In m (legal_moves b) -> snd (key b m) = b)
  /\ (forall b, snd (move_ordering b) = b)
  /\ (forall fuel depth alpha beta w v w',
        minimax fuel depth alpha beta w = Ok v w' ->
        board w' = board w
        /\ _hash (board w') = _hash (board w)
        /\ turn (board w') = turn (board w)
        /\ legal_moves (board w') = legal_moves (board w))
  /\ (forall fuel depth w r w',
        best_move fuel depth w = Ok r w' ->
        board w' = board w
        /\ _hash (board w') = _hash (board w)
        /\ turn (board w') = turn (board w)
        /\ legal_moves (board w') = legal_moves (board w)).
Proof.
  intros Hpp. repeat split.
  - intros b m Hm. rewrite key_board. now apply Hpp.
  - intros b. now rewrite (move_ordering_frame b Hpp).
  - eapply minimax_frame; eauto.
  - erewrite minimax_frame; eauto.
  - erewrite minimax_frame; eauto.
  - erewrite minimax_frame; eauto.
  - eapply best_move_frame; eauto.
  - erewrite best_move_frame; eauto.
  - erewrite best_move_frame; eauto.
  - erewrite best_move_frame; eauto.
Qed.
End EngineFacts.

Section SearchResults.
Context {Board : Type} `{PositionAdapter Board}.

(** *** The search returns *)

Lemma max_step_int (acc : Window) (m : Move) (v : Z) :
  fst (fst acc) <> PosInf ->
  fst (fst (max_step acc m v)) <> PosInf
  /\ exists z, fst (fst (max_step acc m v)) = Int z.
Proof.
  destruct acc as [[best a] b]. simpl. intros Hb.
  destruct (py_max_int best v Hb) as [z ->]. split; [discriminate|eauto].
Qed.

Lemma min_step_int (acc : Window) (m : Move) (v : Z) :
  fst (fst acc) <> NegInf ->
  fst (fst (min_step acc m v)) <> NegInf
  /\ exists z, fst (fst (min_step acc m v)) = Int z.
Proof.
  destruct acc as [[best a] b]. simpl. intros Hb.
  destruct (py_min_int best v Hb) as [z ->]. split; [discriminate|eauto].
Qed.

(** With a rules library that offers a move whenever the game is not over
    and keeps its pieces on the board, [minimax] at a depth [>= 0] returns
    a score, within [depth + 1] nested calls. *)
Lemma minimax_total (fuel : nat) :
  moves_unless_over -> squares_on_board ->
  forall depth, 0 <= depth < Z.of_nat fuel ->
  forall alpha beta w, exists v w', minimax fuel depth alpha beta w = Ok v w'.
Proof.
  intros Hmoves Hsq. induction fuel as [|fuel IH];
    intros depth Hd alpha beta w; [lia|].
  rewrite minimax_step. cbv zeta.
  destruct (tt w !! cache_key (board w) depth); [eauto|].
  destruct (Z.eqb_spec depth 0) as [->|Hnz]; cbn [orb].
  { destruct (evaluate_some (board w) Hsq) as [val ->]. eauto. }
  destruct (is_game_over (board w)) eqn:Hover.
  { destruct (evaluate_some (board w) Hsq) as [val ->]. eauto. }
  set (step := if turn (board w) then max_step else min_step).
  set (init := (if turn (board w) then NegInf else PosInf, alpha, beta)).
  set (w1 := set_board _ _).
  destruct (search_loop_total (windowed (minimax fuel) depth) step cutoff)
    with (mvs := fst (move_ordering (board w))) (acc := init) (w := w1)
    as (acc' & w'' & Hloop).
  { intros [[best a] b] u. apply IH. lia. }
  rewrite Hloop. cbn [outcome_map].
  assert (Hint : exists z, fst (fst acc') = Int z).
  { pose proof (move_ordering_nonempty _ (Hmoves _ Hover)) as Hne.
    subst step init. destruct (turn (board w)).
    - eapply (search_loop_establishes _ _ _
                (fun a : Window => fst (fst a) <> PosInf)
                (fun a : Window => exists z, fst (fst a) = Int z));
        [| |exact Hne| |exact Hloop]; try (simpl; discriminate).
      + intros a m v. apply max_step_int.
      + intros a m v _ Ha. now apply max_step_int.
    - eapply (search_loop_establishes _ _ _
                (fun a : Window => fst (fst a) <> NegInf)
                (fun a : Window => exists z, fst (fst a) = Int z));
        [| |exact Hne| |exact Hloop]; try (simpl; discriminate).
      + intros a m v. apply min_step_int.
      + intros a m v _ Ha. now apply min_step_int. }
  destruct Hint as [z ->]. simpl. eauto.
Qed.

(** *** The root search *)

(** Without a legal move the loop of [best_move] never runs, the best score
    is still the infinity it started from, and [int] rejects it. *)
Lemma best_move_without_moves (fuel : nat) (depth : Z) (w : World Board) :
  legal_moves (board w) = [] ->
  best_move fuel depth w = Raise OverflowError (mkWorld (board w) (tt w) 0).
Proof.
  intros Hnone. rewrite best_move_step. cbv zeta.
  rewrite (move_ordering_nil _ Hnone). simpl.
  destruct (turn (board w)); reflexivity.
Qed.

Lemma white_step_cases acc m sc :
  white_step acc m sc = (Int sc, Some m) \/ white_step acc m sc = acc.
Proof. unfold white_step. destruct (num_ltb _ _); auto. Qed.

Lemma black_step_cases acc m sc :
  black_step acc m sc = (Int sc, Some m) \/ black_step acc m sc = acc.
Proof. unfold black_step. destruct (num_ltb _ _); auto. Qed.

Lemma white_step_chosen acc m sc :
  acc = (NegInf, None) \/ chosen acc -> chosen (white_step acc m sc).
Proof.
  unfold white_step, chosen. intros [-> | (s0 & m0 & ->)]; simpl; eauto.
  destruct (s0 <? sc); eauto.
Qed.

Lemma black_step_chosen acc m sc :
  acc = (PosInf, None) \/ chosen acc -> chosen (black_step acc m sc).
Proof.
  unfold black_step, chosen. intros [-> | (s0 & m0 & ->)]; simpl; eauto.
  destruct (sc <? s0); eauto.
Qed.

End SearchResults.

(** ** Tabulated games obey the rules library's laws *)

Section TabulatedFacts.
Variable g : Game.

Lemma tabulated_pop_push : @pop_undoes_push TBoard (tabulated g).
Proof.
  intros [cur st] m _. cbn [pop push tabulated].
  unfold tab_push, tab_pop. cbn [current stack].
  destruct (find_move _ m); reflexivity.
Qed.

Lemma tabulated_moves_unless_over : @moves_unless_over TBoard (tabulated g).
Proof.
  intros b. cbn [is_game_over legal_moves tabulated].
  unfold tab_is_game_over, no_moves.
  destruct (pos_moves (here g b)); [|discriminate].
  rewrite orb_true_r. discriminate.
Qed.

Lemma tabulated_squares :
  table_on_board g = true -> @squares_on_board TBoard (tabulated g).
Proof.
  intros Htable b sq p. cbn [piece_map tabulated]. unfold here, row.
  destruct (nth_in_or_default (current b) g off_table) as [Hin | ->];
    [|contradiction].
  unfold table_on_board in Htable. rewrite forallb_forall in Htable.
  specialize (Htable _ Hin). rewrite forallb_forall in Htable.
  intros Hp. specialize (Htable _ Hp). simpl in Htable. lia.
Qed.
End TabulatedFacts.

(** ** The engine on concrete positions *)

(** C1.  The transposition game, root R, depth 3, full window, empty
    cache.  Plain minimax gives 894: White plays b, Black must go to P, and
    at P White has p2 with static value 894.  The engine returns 0.  It
    first meets P below A with beta = 0, cuts off after p1 (value 0) and
    stores that bound, 0, as the score of P at depth 1; below B the cache
    hit hands the 0 back as if it were P's value. *)
Theorem cached_cutoff_changes_score :
  outcome_value
    (@minimax TBoard (tabulated transposition_game) 4 3 NegInf PosInf
       (fresh_world (start_at 0))) = Some 0
  /\ @plain_minimax TBoard (tabulated transposition_game) 3 (start_at 0)
     = Some (Int 894)
  /\ tt primed_world
       !! @cache_key TBoard (tabulated transposition_game) (start_at 4) 1
     = Some 0
  /\ @plain_minimax TBoard (tabulated transposition_game) 1 (start_at 4)
     = Some (Int 894).
Proof. repeat split; vm_compute; reflexivity. Qed.

(** C10.  The second-choice game, root R, depth 3, empty cache.
    [best_move] returns the move b with the score 0.  The position b leads
    to is B, and the minimax value of B to depth 2 is 894: plain minimax
    gives it, and so does the engine's own [minimax] on B with an empty
    cache.  The 0 is the cutoff bound that the search of the first root
    move a left in the cache for P at depth 1 (it met P with beta = -896
    and broke off after p1); below B the cache hit hands it back as P's
    value, which is 894. *)
Theorem best_move_reports_cached_cutoff :
  @best_move TBoard (tabulated second_choice_game) 4 3
    (fresh_world (start_at 0))
  = Ok (mkSearchResult 0 (Some (mv 4 5))) second_choice_world
  /\ @root_scores TBoard (tabulated second_choice_game) 4 3
       (fst (@move_ordering TBoard (tabulated second_choice_game)
               (start_at 0)))
       (fresh_world (start_at 0))
     = [(mv 4 3, -896); (mv 4 5, 0)]
  /\ @push TBoard (tabulated second_choice_game) (start_at 0) (mv 4 5)
     = mkTBoard 2 [0%nat]
  /\ @plain_minimax TBoard (tabulated second_choice_game) 2
       (mkTBoard 2 [0%nat]) = Some (Int 894)
  /\ outcome_value
       (@minimax TBoard (tabulated second_choice_game) 3 2 NegInf PosInf
          (fresh_world (mkTBoard 2 [0%nat]))) = Some 894
  /\ tt second_choice_world
       !! @cache_key TBoard (tabulated second_choice_game) (start_at 4) 1
     = Some 0
  /\ @plain_minimax TBoard (tabulated second_choice_game) 1 (start_at 4)
     = Some (Int 894).
Proof. repeat split; vm_compute; reflexivity. Qed.

(** C2.  The stalemate [7k/5Q2/6K1/8/8/8/8/8 b - - 0 1]: there is no legal
    move and [evaluate] gives 0, but [best_move], at any depth, ends in
    [OverflowError] on [int(best_score)] instead of returning a result with
    an absent move. *)
Theorem best_move_on_stalemate_raises (fuel : nat) (depth : Z) :
  @legal_moves TBoard (tabulated stalemate_game) (start_at 0) = []
  /\ @is_stalemate TBoard (tabulated stalemate_game) (start_at 0) = true
  /\ @evaluate TBoard (tabulated stalemate_game) (start_at 0) = Some 0
  /\ @best_move TBoard (tabulated stalemate_game) fuel depth
       (fresh_world (start_at 0))
     = Raise OverflowError (fresh_world (start_at 0)).
Proof.
  split; [reflexivity|]. split; [reflexivity|]. split; [reflexivity|].
  exact (@best_move_without_moves TBoard (tabulated stalemate_game) fuel
           depth (fresh_world (start_at 0)) eq_refl).
Qed.

(** C3 fails as stated.  In [7k/1P6/8/3p4/8/8/8/K2Q4 w - - 0 1] the capture
    Qxd5 scores 10100 and the non-capturing promotion b8=Q, which gives
    check, scores 10400 and is ordered first.  In
    [4k3/8/8/3pP3/8/8/8/4K3 w - d6 0 2] the en-passant capture exd6 is a
    capture, its destination square is empty, its score is -100 without
    any capture term, and the quiet king move to f2 is ordered before it. *)
Lemma promotion_outranks_capture :
  (In Qxd5 (@legal_moves TBoard (tabulated ordering_game) (start_at 0))
   /\ @is_capture TBoard (tabulated ordering_game) (start_at 0) Qxd5 = true
   /\ In b8Q (@legal_moves TBoard (tabulated ordering_game) (start_at 0))
   /\ @is_capture TBoard (tabulated ordering_game) (start_at 0) b8Q = false
   /\ @heuristic TBoard (tabulated ordering_game) (start_at 0) Qxd5 = 10100
   /\ @heuristic TBoard (tabulated ordering_game) (start_at 0) b8Q = 10400
   /\ precedes b8Q Qxd5
        (fst (@move_ordering TBoard (tabulated ordering_game) (start_at 0))))
  /\ (In exd6 (@legal_moves TBoard (tabulated ep_game) (start_at 0))
      /\ @is_capture TBoard (tabulated ep_game) (start_at 0) exd6 = true
      /\ @piece_at TBoard (tabulated ep_game) (start_at 0) (to_square exd6)
         = None
      /\ @is_capture TBoard (tabulated ep_game) (start_at 0) (mv 4 13)
         = false
      /\ @heuristic TBoard (tabulated ep_game) (start_at 0) exd6 = -100
      /\ precedes (mv 4 13) exd6
           (fst (@move_ordering TBoard (tabulated ep_game) (start_at 0)))).
Proof.
  split; repeat split; try (vm_compute; reflexivity).
  - vm_compute. tauto.
  - vm_compute. tauto.
  - exists [], [],
      (skipn 2 (fst (@move_ordering TBoard (tabulated ordering_game)
                       (start_at 0)))).
    vm_compute. reflexivity.
  - vm_compute. tauto.
  - exists [], [mv 4 12; mv 4 11; mv 4 5; mv 4 3; mv 36 44], [].
    vm_compute. reflexivity.
Qed.

Lemma capture_term_and_rank_witness :
  @pop_undoes_push TBoard (tabulated ordering_game)
  /\ In Qxd5 (@legal_moves TBoard (tabulated ordering_game) (start_at 0))
  /\ @is_capture TBoard (tabulated ordering_game) (start_at 0) Qxd5 = true
  /\ @piece_at TBoard (tabulated ordering_game) (start_at 0)
       (to_square Qxd5) = Some bP
  /\ @piece_at TBoard (tabulated ordering_game) (start_at 0)
       (from_square Qxd5) = Some wQ
  /\ @heuristic TBoard (tabulated ordering_game) (start_at 0) Qxd5
     = (10000 + 10 * 100 - 900) + 0 + 0
  /\ precedes Qxd5 (mv 3 39)
       (fst (@move_ordering TBoard (tabulated ordering_game) (start_at 0))).
Proof.
  assert (Hin : In Qxd5 (@legal_moves TBoard (tabulated ordering_game)
                           (start_at 0))) by (vm_compute; tauto).
  pose proof (@capture_term_and_rank TBoard (tabulated ordering_game)
                (start_at 0) Qxd5 bP wQ (tabulated_pop_push ordering_game)
                Hin eq_refl eq_refl eq_refl) as (Hscore & Hquiet & _).
  split; [apply tabulated_pop_push|]. split; [exact Hin|].
  split; [reflexivity|]. split; [reflexivity|]. split; [reflexivity|].
  split; [exact Hscore|].
  apply Hquiet; [vm_compute; tauto | reflexivity | reflexivity].
Defined.

Lemma move_ordering_stable_descending_witness :
  @pop_undoes_push TBoard (tabulated ordering_game)
  /\ Permutation
       (fst (@move_ordering TBoard (tabulated ordering_game) (start_at 0)))
       (@legal_moves TBoard (tabulated ordering_game) (start_at 0))
  /\ @descending TBoard (tabulated ordering_game) (start_at 0)
       (fst (@move_ordering TBoard (tabulated ordering_game) (start_at 0)))
  /\ List.filter
       (fun m => @heuristic TBoard (tabulated ordering_game) (start_at 0) m
                 =? 500)
       (fst (@move_ordering TBoard (tabulated ordering_game) (start_at 0)))
     = [mv 3 39; mv 3 27; mv 3 7].
Proof.
  pose proof (@move_ordering_stable_descending TBoard
                (tabulated ordering_game) (start_at 0)
                (tabulated_pop_push ordering_game))
    as (Hperm & Hsorted & _ & Hstable).
  split; [apply tabulated_pop_push|]. split; [exact Hperm|].
  split; [exact Hsorted|]. rewrite Hstable. vm_compute. reflexivity.
Defined.

Lemma evaluate_terminal_policy_witness :
  @is_checkmate TBoard (tabulated checkmate_game) (start_at 0) = true
  /\ @evaluate TBoard (tabulated checkmate_game) (start_at 0) = Some 10000
  /\ @is_checkmate TBoard (tabulated stalemate_game) (start_at 0) = false
  /\ @is_stalemate TBoard (tabulated stalemate_game) (start_at 0) = true
  /\ @evaluate TBoard (tabulated stalemate_game) (start_at 0) = Some 0.
Proof.
  split; [reflexivity|]. split.
  { exact (proj1 (@evaluate_terminal_policy TBoard (tabulated checkmate_game)
                    (start_at 0)) eq_refl). }
  split; [reflexivity|]. split; [reflexivity|].
  exact (proj1 (proj2 (@evaluate_terminal_policy TBoard
                         (tabulated stalemate_game) (start_at 0)))
           eq_refl (or_introl eq_refl)).
Defined.

Lemma evaluate_mirror_negates_witness :
  @mirror_image TBoard (tabulated mirror_game) (start_at 0) (start_at 1)
  /\ @evaluate TBoard (tabulated mirror_game) (start_at 1)
     = option_map Z.opp
         (@evaluate TBoard (tabulated mirror_game) (start_at 0))
  /\ @evaluate TBoard (tabulated mirror_game) (start_at 0) = Some 131.
Proof.
  assert (Hmirror : @mirror_image TBoard (tabulated mirror_game)
                      (start_at 0) (start_at 1)).
  { constructor; try reflexivity.
    apply (Permutation_rev [(60, bK); (36, bP); (4, wK)]). }
  split; [exact Hmirror|]. split; [|reflexivity].
  exact (@evaluate_mirror_negates TBoard (tabulated mirror_game)
           (start_at 0) (start_at 1) Hmirror).
Defined.

(** C4 fails as stated on the node counter.  Searching the root of the
    transposition game leaves the counter at 8; asking again, with the same
    key, returns the same score 0 from the cache and leaves it at 9. *)
Lemma requery_counts_a_node :
  @minimax TBoard (tabulated transposition_game) 4 3 NegInf PosInf
    (fresh_world (start_at 0)) = Ok 0 primed_world
  /\ nodes primed_world = 8
  /\ @minimax TBoard (tabulated transposition_game) 4 3 NegInf PosInf
       primed_world
     = Ok 0 (mkWorld (start_at 0) (tt primed_world) 9).
Proof. repeat split; vm_compute; reflexivity. Qed.

Lemma requery_returns_stored_score_witness :
  @minimax TBoard (tabulated transposition_game) 4 3 NegInf PosInf
    (fresh_world (start_at 0)) = Ok 0 primed_world
  /\ @cache_key TBoard (tabulated transposition_game) (mkTBoard 0 [5%nat]) 3
     = @cache_key TBoard (tabulated transposition_game)
         (board (fresh_world (start_at 0))) 3
  /\ @minimax TBoard (tabulated transposition_game) 1 3 (Int 7) (Int 5)
       (set_board primed_world (mkTBoard 0 [5%nat]))
     = Ok 0 (mkWorld (mkTBoard 0 [5%nat]) (tt primed_world)
               (nodes primed_world + 1)).
Proof.
  assert (Hfirst : @minimax TBoard (tabulated transposition_game) 4 3
                     NegInf PosInf (fresh_world (start_at 0))
                   = Ok 0 primed_world) by (vm_compute; reflexivity).
  split; [exact Hfirst|]. split; [reflexivity|].
  exact (@requery_returns_stored_score TBoard (tabulated transposition_game)
           4 0 3 NegInf PosInf (Int 7) (Int 5) (fresh_world (start_at 0))
           primed_world 0 (mkTBoard 0 [5%nat]) Hfirst eq_refl).
Defined.

Lemma board_restored_on_return_witness :
  @pop_undoes_push TBoard (tabulated transposition_game)
  /\ board primed_world = start_at 0
  /\ snd (@move_ordering TBoard (tabulated ordering_game) (start_at 0))
     = start_at 0.
Proof.
  split; [apply tabulated_pop_push|]. split.
  - refine (proj1 (proj1 (proj2 (proj2
      (@board_restored_on_return TBoard (tabulated transposition_game)
         (tabulated_pop_push transposition_game))))
      4%nat 3 NegInf PosInf (fresh_world (start_at 0)) 0 primed_world _)).
    vm_compute. reflexivity.
  - exact (proj1 (proj2
      (@board_restored_on_return TBoard (tabulated ordering_game)
         (tabulated_pop_push ordering_game))) (start_at 0)).
Defined.

Lemma cache_entries_persist_witness :
  @session TBoard (tabulated transposition_game) 4 later_calls primed_world
  = Some session_end
  /\ tt primed_world
       !! @cache_key TBoard (tabulated transposition_game) (start_at 0) 3
     = Some 0
  /\ tt session_end
       !! @cache_key TBoard (tabulated transposition_game) (start_at 0) 3
     = Some 0.
Proof.
  assert (Hrun : @session TBoard (tabulated transposition_game) 4
                   later_calls primed_world = Some session_end)
    by (vm_compute; reflexivity).
  assert (Hk : tt primed_world
                 !! @cache_key TBoard (tabulated transposition_game)
                      (start_at 0) 3 = Some 0)
    by (vm_compute; reflexivity).
  split; [exact Hrun|]. split; [exact Hk|].
  exact (@cache_entries_persist TBoard (tabulated transposition_game) 4
           later_calls primed_world session_end _ 0 Hrun Hk).
Defined.

(** ** Pruning without transpositions

    The order of Python numbers, by linear arithmetic on [tier] and
    [within]. *)

Lemma num_ltb_true (a b : Num) :
  num_ltb a b = true
  <-> tier a < tier b \/ (tier a = tier b /\ within a < within b).
Proof.
  destruct a as [|x|], b as [|y|]; cbn [num_ltb tier within];
    try (split; [discriminate | lia]); try (split; [lia | reflexivity]).
  rewrite Z.ltb_lt. lia.
Qed.

Lemma num_ltb_false (a b : Num) :
  num_ltb a b = false
  <-> tier b < tier a \/ (tier a = tier b /\ within b <= within a).
Proof.
  destruct a as [|x|], b as [|y|]; cbn [num_ltb tier within];
    try (split; [discriminate | lia]); try (split; [lia | reflexivity]).
  rewrite Z.ltb_ge. lia.
Qed.

Lemma num_eq (a b : Num) :
  a = b <-> tier a = tier b /\ within a = within b.
Proof.
  destruct a as [|x|], b as [|y|]; cbn [tier within];
    try (split; [discriminate | lia]); try (split; [lia | reflexivity]).
  split; [intros [= ->]; lia | intros [_ ->]; reflexivity].
Qed.

Lemma tier_range (a : Num) :
  -1 <= tier a <= 1 /\ (tier a <> 0 -> within a = 0).
Proof. destruct a; cbn [tier within]; lia. Qed.

Ltac num_lia :=
  unfold bounds, py_max, py_min, num_leb in *; intros;
  repeat match goal with
         | |- context [if num_ltb ?a ?b then _ else _] =>
             destruct (num_ltb a b) eqn:?
         | H : context [if num_ltb ?a ?b then _ else _] |- _ =>
             destruct (num_ltb a b) eqn:?
         end;
  cbn [negb] in *;
  rewrite ?num_ltb_true, ?num_ltb_false, ?num_eq in *;
  repeat match goal with
         | x : Num |- _ =>
             pose proof (tier_range x);
             generalize dependent (within x); generalize dependent (tier x);
             clear x; intros
         end;
  lia.

Lemma bounds_exact (alpha beta v : Num) : bounds alpha beta v v.
Proof. num_lia. Qed.

Lemma bounds_full_window (r : Z) (v : Num) :
  bounds NegInf PosInf (Int r) v -> v = Int r.
Proof.
  intros (Hlow & Hhigh & Hin). destruct v as [|z|].
  - specialize (Hlow eq_refl). discriminate.
  - symmetry. now apply Hin.
  - specialize (Hhigh eq_refl). discriminate.
Qed.

Lemma py_max_assoc (a b c : Num) :
  py_max (py_max a b) c = py_max a (py_max b c).
Proof. num_lia. Qed.

Lemma py_min_assoc (a b c : Num) :
  py_min (py_min a b) c = py_min a (py_min b c).
Proof. num_lia. Qed.

Lemma py_max_absorb (a b c : Num) :
  py_max (py_max a b) (py_max b c) = py_max a (py_max b c).
Proof. num_lia. Qed.

Lemma py_min_absorb (a b c : Num) :
  py_min (py_min a b) (py_min b c) = py_min a (py_min b c).
Proof. num_lia. Qed.

Lemma py_max_swap (a b c : Num) :
  py_max (py_max a b) c = py_max (py_max a c) b.
Proof. num_lia. Qed.

Lemma py_min_swap (a b c : Num) :
  py_min (py_min a b) c = py_min (py_min a c) b.
Proof. num_lia. Qed.

Lemma py_max_keeps_lower (x y beta : Num) :
  num_ltb x beta = false -> num_ltb (py_max x y) beta = false.
Proof. num_lia. Qed.

Lemma py_max_takes_lower (x y beta : Num) :
  num_ltb y beta = false -> num_ltb (py_max x y) beta = false.
Proof. num_lia. Qed.

Lemma py_min_keeps_upper (x y alpha : Num) :
  num_ltb alpha x = false -> num_ltb alpha (py_min x y) = false.
Proof. num_lia. Qed.

Lemma py_min_takes_upper (x y alpha : Num) :
  num_ltb alpha y = false -> num_ltb alpha (py_min x y) = false.
Proof. num_lia. Qed.

(** One iteration of the White loop that does not break. *)
Lemma max_continue (a beta r v : Num) :
  bounds a beta r v -> num_ltb (py_max a r) beta = true ->
  py_max a r = py_max a v.
Proof. num_lia. Qed.

(** One iteration of the White loop that breaks. *)
Lemma max_break (a beta r v : Num) :
  bounds a beta r v -> num_ltb a beta = true ->
  num_ltb (py_max a r) beta = false ->
  num_ltb v beta = false /\ num_ltb r beta = false.
Proof. num_lia. Qed.

Lemma max_break_bounds (alpha beta best v : Num) :
  num_ltb alpha beta = true -> num_ltb best beta = false ->
  num_ltb v beta = false -> bounds alpha beta best v.
Proof. num_lia. Qed.

Lemma max_end_bounds (alpha beta best v : Num) :
  py_max alpha best = py_max alpha v ->
  num_ltb (py_max alpha best) beta = true -> bounds alpha beta best v.
Proof. num_lia. Qed.

Lemma min_continue (alpha b r v : Num) :
  bounds alpha b r v -> num_ltb alpha (py_min b r) = true ->
  py_min b r = py_min b v.
Proof. num_lia. Qed.

Lemma min_break (alpha b r v : Num) :
  bounds alpha b r v -> num_ltb alpha b = true ->
  num_ltb alpha (py_min b r) = false ->
  num_ltb alpha v = false /\ num_ltb alpha r = false.
Proof. num_lia. Qed.

Lemma min_break_bounds (alpha beta best v : Num) :
  num_ltb alpha beta = true -> num_ltb alpha best = false ->
  num_ltb alpha v = false -> bounds alpha beta best v.
Proof. num_lia. Qed.

Lemma min_end_bounds (alpha beta best v : Num) :
  py_min beta best = py_min beta v ->
  num_ltb alpha (py_min beta best) = true -> bounds alpha beta best v.
Proof. num_lia. Qed.

Section Folds.
Context {A : Type} (f : A -> Num).

Lemma fold_max_lower (l : list A) (X beta : Num) :
  num_ltb X beta = false ->
  num_ltb (fold_left (fun V m => py_max V (f m)) l X) beta = false.
Proof.
  revert X. induction l as [|m rest IH]; intros X HX; [exact HX|].
  cbn [fold_left]. apply IH. now apply py_max_keeps_lower.
Qed.

Lemma fold_min_upper (l : list A) (X alpha : Num) :
  num_ltb alpha X = false ->
  num_ltb alpha (fold_left (fun V m => py_min V (f m)) l X) = false.
Proof.
  revert X. induction l as [|m rest IH]; intros X HX; [exact HX|].
  cbn [fold_left]. apply IH. now apply py_min_keeps_upper.
Qed.

Lemma fold_max_perm (l l' : list A) :
  Permutation l l' ->
  forall X, fold_left (fun V m => py_max V (f m)) l X
            = fold_left (fun V m => py_max V (f m)) l' X.
Proof.
  induction 1 as [|x l l' _ IH|x y l|l l' l'' _ IH1 _ IH2]; intros X;
    cbn [fold_left].
  - reflexivity.
  - apply IH.
  - now rewrite py_max_swap.
  - now rewrite IH1.
Qed.

Lemma fold_min_perm (l l' : list A) :
  Permutation l l' ->
  forall X, fold_left (fun V m => py_min V (f m)) l X
            = fold_left (fun V m => py_min V (f m)) l' X.
Proof.
  induction 1 as [|x l l' _ IH|x y l|l l' l'' _ IH1 _ IH2]; intros X;
    cbn [fold_left].
  - reflexivity.
  - apply IH.
  - now rewrite py_min_swap.
  - now rewrite IH1.
Qed.
End Folds.

Section AddedKeys.
Context {Board : Type} `{PositionAdapter Board} {Acc : Type}.
Variable call : Acc -> World Board -> Outcome (World Board) Z.
Variable step : Acc -> Move -> Z -> Acc.
Variable stop : Acc -> bool.

(** If the call for move [m] adds keys only among [K m], the loop adds
    keys only among those of its moves. *)
Lemma search_loop_adds (K : Move -> list CacheKey) (b : Board) :
  pop_undoes_push ->
  (forall acc w v w', call acc w = Ok v w' -> board w' = board w) ->
  (forall acc m w v w', board w = push b m -> call acc w = Ok v w' ->
     forall k, tt w !! k = None -> is_Some (tt w' !! k) -> In k (K m)) ->
  forall mvs acc w acc' w',
    board w = b -> (forall m, In m mvs -> In m (legal_moves b)) ->
    search_loop call step stop mvs acc w = Ok acc' w' ->
    forall k, tt w !! k = None -> is_Some (tt w' !! k) ->
              In k (flat_map K mvs).
Proof.
  intros Hpp Hframe Hcall.
  induction mvs as [|m rest IH]; intros acc w acc' w' Hb Hlegal Hrun k Hk Hk'.
  - simpl in Hrun. injection Hrun as _ <-. destruct Hk' as [v Hv]. congruence.
  - cbn [search_loop] in Hrun. cbn [flat_map]. apply in_or_app.
    destruct (call acc (world_push w m)) as [val w1|e s|] eqn:Hc;
      try discriminate.
    assert (Hw1 : board (world_pop w1) = b).
    { simpl. rewrite (Hframe _ _ _ _ Hc). simpl. rewrite Hb.
      apply Hpp, Hlegal. now left. }
    destruct (tt w1 !! k) as [v1|] eqn:Hk1.
    { left. eapply (Hcall acc m (world_push w m)); eauto.
      simpl. now rewrite Hb. }
    right. destruct (stop (step acc m val)).
    + injection Hrun as _ <-. simpl in Hk'. destruct Hk' as [v Hv]. congruence.
    + eapply IH; [exact Hw1| |exact Hrun|exact Hk1|exact Hk'].
      intros m' Hm'. apply Hlegal. now right.
Qed.
End AddedKeys.

Section TreeKeys.
Context {Board : Type} `{PositionAdapter Board}.

Lemma depth_pred (d : nat) : Z.of_nat (S d) - 1 = Z.of_nat d.
Proof. lia. Qed.

Lemma depth_succ_nonzero (d : nat) : (Z.of_nat (S d) =? 0) = false.
Proof. apply Z.eqb_neq. lia. Qed.

(** A search to depth [d] from [b] only ever adds keys of the tree below
    [b]. *)
Lemma minimax_adds_tree_keys (d : nat) :
  pop_undoes_push ->
  forall fuel alpha beta w v w',
    minimax fuel (Z.of_nat d) alpha beta w = Ok v w' ->
    forall k, tt w !! k = None -> is_Some (tt w' !! k) ->
              In k (tree_keys d (board w)).
Proof.
  intros Hpp. induction d as [|d IH];
    intros [|fuel] alpha beta w v w' Hrun k Hk Hk'; try discriminate;
    rewrite minimax_step in Hrun; cbv zeta in Hrun;
    (destruct (tt w !! cache_key (board w) _) as [v0|] eqn:Hmiss;
     [injection Hrun as _ <-; simpl in Hk'; destruct Hk' as [x Hx];
      congruence|]).
  - cbn [Z.of_nat Z.eqb orb] in Hrun.
    destruct (evaluate (board w)); inversion Hrun; subst.
    simpl in Hk'. left.
    destruct (decide (cache_key (board w) 0 = k)) as [Heq|Hne]; [exact Heq|].
    rewrite lookup_insert_ne in Hk' by exact Hne.
    destruct Hk' as [x Hx]. congruence.
  - rewrite depth_succ_nonzero in Hrun. cbn [orb] in Hrun.
    cbn [tree_keys].
    destruct (decide (cache_key (board w) (Z.of_nat (S d)) = k)) as [Heq|Hne];
      [now left|right].
    destruct (is_game_over (board w)).
    { destruct (evaluate (board w)); inversion Hrun; subst; simpl in Hk'.
      rewrite lookup_insert_ne in Hk' by exact Hne.
      destruct Hk' as [x Hx]. congruence. }
    destruct (outcome_map _ _) as [best w''|e s|] eqn:Hloop;
      try discriminate.
    apply outcome_map_ok in Hloop as (acc & Hloop & _).
    assert (Hk'' : is_Some (tt w'' !! k)).
    { destruct (py_int best); inversion Hrun; subst; simpl in Hk'.
      now rewrite lookup_insert_ne in Hk' by exact Hne. }
    rewrite (move_ordering_frame _ Hpp) in Hloop. cbn [fst snd] in Hloop.
    eapply (search_loop_adds _ _ _
              (fun m => tree_keys d (push (board w) m)) (board w) Hpp)
      in Hloop; [| | |reflexivity| |exact Hk|exact Hk''].
    + apply in_flat_map in Hloop as (m & Hm & Hin).
      apply in_flat_map. exists m. split; [|exact Hin].
      pose proof (move_ordering_in (board w) m) as Hord.
      rewrite (move_ordering_frame _ Hpp) in Hord. now apply Hord.
    + intros [[b0 a0] c0] u x u' Hu. exact (minimax_frame _ Hpp _ _ _ _ _ _ Hu).
    + intros [[b0 a0] c0] m u x u' Hbu Hu k0 Hk0 Hk0'.
      cbn [windowed] in Hu. rewrite depth_pred in Hu.
      rewrite <- Hbu. exact (IH _ _ _ _ _ _ Hu k0 Hk0 Hk0').
    + intros m Hm.
      pose proof (move_ordering_in (board w) m) as Hord.
      rewrite (move_ordering_frame _ Hpp) in Hord. now apply Hord.
Qed.
End TreeKeys.

Section PruningExact.
Context {Board : Type} `{PositionAdapter Board}.

Lemma absent_app_l (l1 l2 : list CacheKey) (t : gmap CacheKey Z) :
  absent (l1 ++ l2) t -> absent l1 t.
Proof. intros Ha k Hk. apply Ha, in_or_app. now left. Qed.

Lemma nodup_app_disjoint (l1 l2 : list CacheKey) (k : CacheKey) :
  NoDup (l1 ++ l2) -> In k l1 -> In k l2 -> False.
Proof.
  intros Hnd H1 H2. apply NoDup_app in Hnd as (_ & Hdisj & _).
  apply (Hdisj k); now apply list_elem_of_In.
Qed.

(** After the search of one child the keys of its siblings are still
    absent from the cache. *)
Lemma siblings_stay_absent (d fuel : nat) (b : Board) (m : Move)
    (rest : list Move) (alpha beta : Num) (w w1 : World Board) (val : Z) :
  pop_undoes_push -> board w = b ->
  NoDup (flat_map (fun m => tree_keys d (push b m)) (m :: rest)) ->
  absent (flat_map (fun m => tree_keys d (push b m)) (m :: rest)) (tt w) ->
  minimax fuel (Z.of_nat d) alpha beta (world_push w m) = Ok val w1 ->
  absent (flat_map (fun m => tree_keys d (push b m)) rest)
         (tt (world_pop w1)).
Proof.
  intros Hpp Hb Hnd Habs Hcall k Hk. cbn [flat_map] in Hnd, Habs.
  simpl. destruct (tt w1 !! k) as [v|] eqn:Hk1; [exfalso|reflexivity].
  eapply (nodup_app_disjoint _ _ k Hnd); [|exact Hk].
  pose proof (minimax_adds_tree_keys d Hpp _ _ _ _ _ _ Hcall k) as Hadd.
  simpl in Hadd. rewrite Hb in Hadd. apply Hadd; [|eauto].
  apply Habs, in_or_app. now right.
Qed.

Lemma py_max_neg_inf (a : Num) : py_max a NegInf = a.
Proof. destruct a; reflexivity. Qed.

Lemma py_min_pos_inf (a : Num) : py_min a PosInf = a.
Proof. destruct a; reflexivity. Qed.

Lemma window_below (alpha0 best beta : Num) :
  num_ltb (py_max alpha0 best) beta = true -> num_ltb alpha0 beta = true.
Proof. num_lia. Qed.

Lemma window_above (beta0 best alpha : Num) :
  num_ltb alpha (py_min beta0 best) = true -> num_ltb alpha beta0 = true.
Proof. num_lia. Qed.

Section Node.
Variables (d fuel : nat) (b : Board).
Hypothesis Hpp : pop_undoes_push.

(** What the induction on the depth gives for the children of [b]. *)
Hypothesis children :
  forall m a c w r w',
    board w = push b m ->
    NoDup (tree_keys d (push b m)) ->
    absent (tree_keys d (push b m)) (tt w) ->
    num_ltb a c = true ->
    minimax fuel (Z.of_nat d) a c w = Ok r w' ->
    bounds a c (Int r) (plain_value d (push b m)).

Lemma max_loop_bounds (alpha0 beta : Num) :
  forall mvs best alpha V0 w acc' w',
    board w = b ->
    (forall m, In m mvs -> In m (legal_moves b)) ->
    NoDup (flat_map (fun m => tree_keys d (push b m)) mvs) ->
    absent (flat_map (fun m => tree_keys d (push b m)) mvs) (tt w) ->
    py_max alpha0 best = alpha -> py_max alpha0 V0 = alpha ->
    num_ltb alpha beta = true ->
    search_loop (windowed (minimax fuel) (Z.of_nat (S d))) max_step cutoff
      mvs (best, alpha, beta) w = Ok acc' w' ->
    bounds alpha0 beta (fst (fst acc'))
      (fold_left (fun V m => py_max V (plain_value d (push b m))) mvs V0).
Proof.
  induction mvs as [|m rest IH];
    intros best alpha V0 w acc' w' Hb Hlegal Hnd Habs Hbest HV Hwin Hrun.
  - simpl in Hrun. injection Hrun as <- _. cbn [fst fold_left].
    apply max_end_bounds; congruence.
  - cbn [search_loop windowed] in Hrun. rewrite depth_pred in Hrun.
    destruct (minimax fuel (Z.of_nat d) alpha beta (world_push w m))
      as [val w1|e s|] eqn:Hcall; try discriminate.
    assert (Hchild : bounds alpha beta (Int val) (plain_value d (push b m))).
    { eapply (children m alpha beta (world_push w m)); eauto.
      - simpl. now rewrite Hb.
      - cbn [flat_map] in Hnd. now apply NoDup_app in Hnd as (Hn & _ & _).
      - cbn [flat_map] in Habs. now apply absent_app_l in Habs. }
    cbn [max_step cutoff fold_left] in Hrun |- *.
    set (best' := py_max best (Int val)) in *.
    assert (Ha1 : py_max alpha best' = py_max alpha0 best').
    { subst best' alpha. apply py_max_absorb. }
    assert (Ha2 : py_max alpha best' = py_max alpha (Int val)).
    { rewrite Ha1. subst best' alpha. now rewrite py_max_assoc. }
    destruct (num_leb beta (py_max alpha best')) eqn:Hcut;
      unfold num_leb in Hcut.
    + injection Hrun as <- _. cbn [fst].
      apply negb_true_iff in Hcut. rewrite Ha2 in Hcut.
      destruct (max_break _ _ _ _ Hchild Hwin Hcut) as [Hv Hr].
      apply max_break_bounds.
      * apply (window_below alpha0 best). now rewrite Hbest.
      * subst best'. now apply py_max_takes_lower.
      * apply fold_max_lower. now apply py_max_takes_lower.
    + apply negb_false_iff in Hcut.
      eapply IH; [| | | | | |exact Hcut|exact Hrun].
      * simpl. rewrite (minimax_frame _ Hpp _ _ _ _ _ _ Hcall). simpl.
        rewrite Hb. apply Hpp, Hlegal. now left.
      * intros m' Hm'. apply Hlegal. now right.
      * cbn [flat_map] in Hnd. now apply NoDup_app in Hnd as (_ & _ & Hn).
      * eapply siblings_stay_absent; eauto.
      * now rewrite Ha1.
      * rewrite Ha2 in Hcut |- *.
        rewrite (max_continue _ _ _ _ Hchild Hcut).
        rewrite <- HV. now rewrite py_max_assoc.
Qed.

Lemma min_loop_bounds (alpha beta0 : Num) :
  forall mvs best beta V0 w acc' w',
    board w = b ->
    (forall m, In m mvs -> In m (legal_moves b)) ->
    NoDup (flat_map (fun m => tree_keys d (push b m)) mvs) ->
    absent (flat_map (fun m => tree_keys d (push b m)) mvs) (tt w) ->
    py_min beta0 best = beta -> py_min beta0 V0 = beta ->
    num_ltb alpha beta = true ->
    search_loop (windowed (minimax fuel) (Z.of_nat (S d))) min_step cutoff
      mvs (best, alpha, beta) w = Ok acc' w' ->
    bounds alpha beta0 (fst (fst acc'))
      (fold_left (fun V m => py_min V (plain_value d (push b m))) mvs V0).
Proof.
  induction mvs as [|m rest IH];
    intros best beta V0 w acc' w' Hb Hlegal Hnd Habs Hbest HV Hwin Hrun.
  - simpl in Hrun. injection Hrun as <- _. cbn [fst fold_left].
    apply min_end_bounds; congruence.
  - cbn [search_loop windowed] in Hrun. rewrite depth_pred in Hrun.
    destruct (minimax fuel (Z.of_nat d) alpha beta (world_push w m))
      as [val w1|e s|] eqn:Hcall; try discriminate.
    assert (Hchild : bounds alpha beta (Int val) (plain_value d (push b m))).
    { eapply (children m alpha beta (world_push w m)); eauto.
      - simpl. now rewrite Hb.
      - cbn [flat_map] in Hnd. now apply NoDup_app in Hnd as (Hn & _ & _).
      - cbn [flat_map] in Habs. now apply absent_app_l in Habs. }
    cbn [min_step cutoff fold_left] in Hrun |- *.
    set (best' := py_min best (Int val)) in *.
    assert (Ha1 : py_min beta best' = py_min beta0 best').
    { subst best' beta. apply py_min_absorb. }
    assert (Ha2 : py_min beta best' = py_min beta (Int val)).
    { rewrite Ha1. subst best' beta. now rewrite py_min_assoc. }
    destruct (num_leb (py_min beta best') alpha) eqn:Hcut;
      unfold num_leb in Hcut.
    + injection Hrun as <- _. cbn [fst].
      apply negb_true_iff in Hcut. rewrite Ha2 in Hcut.
      destruct (min_break _ _ _ _ Hchild Hwin Hcut) as [Hv Hr].
      apply min_break_bounds.
      * apply (window_above beta0 best). now rewrite Hbest.
      * subst best'. now apply py_min_takes_upper.
      * apply fold_min_upper. now apply py_min_takes_upper.
    + apply negb_false_iff in Hcut.
      eapply IH; [| | | | | |exact Hcut|exact Hrun].
      * simpl. rewrite (minimax_frame _ Hpp _ _ _ _ _ _ Hcall). simpl.
        rewrite Hb. apply Hpp, Hlegal. now left.
      * intros m' Hm'. apply Hlegal. now right.
      * cbn [flat_map] in Hnd. now apply NoDup_app in Hnd as (_ & _ & Hn).
      * eapply siblings_stay_absent; eauto.
      * now rewrite Ha1.
      * rewrite Ha2 in Hcut |- *.
        rewrite (min_continue _ _ _ _ Hchild Hcut).
        rewrite <- HV. now rewrite py_min_assoc.
Qed.
End Node.
End PruningExact.

Section PruningTheorem.
Context {Board : Type} `{PositionAdapter Board}.

(** With fresh keys all over the tree below it, a node searched with a
    window [alpha < beta] returns a result within the alpha-beta bounds of
    its plain minimax value. *)
Lemma minimax_bounds (d : nat) :
  pop_undoes_push ->
  forall fuel b alpha beta w r w',
    board w = b ->
    NoDup (tree_keys d b) -> absent (tree_keys d b) (tt w) ->
    num_ltb alpha beta = true ->
    minimax fuel (Z.of_nat d) alpha beta w = Ok r w' ->
    bounds alpha beta (Int r) (plain_value d b).
Proof.
  intros Hpp. induction d as [|d IH];
    intros [|fuel] b alpha beta w r w' Hb Hnd Habs Hwin Hrun;
    try discriminate; subst b;
    rewrite minimax_step in Hrun; cbv zeta in Hrun;
    (rewrite (Habs (cache_key (board w) _)) in Hrun by now left).
  - cbn [Z.of_nat Z.eqb orb] in Hrun. cbn [plain_value]. unfold static.
    destruct (evaluate (board w)); inversion Hrun; subst. apply bounds_exact.
  - rewrite depth_succ_nonzero in Hrun. cbn [orb] in Hrun.
    cbn [plain_value tree_keys] in *.
    destruct (is_game_over (board w)).
    { unfold static.
      destruct (evaluate (board w)); inversion Hrun; subst.
      apply bounds_exact. }
    destruct (outcome_map _ _) as [best w''|e s|] eqn:Hloop;
      try discriminate.
    apply outcome_map_ok in Hloop as (acc & Hloop & ->).
    destruct (py_int (fst (fst acc))) as [z|] eqn:Hint; inversion Hrun; subst.
    assert (Hbest : fst (fst acc) = Int r).
    { destruct (fst (fst acc)); simpl in Hint; congruence. }
    rewrite <- Hbest. clear Hrun Hint Hbest.
    rewrite (move_ordering_frame _ Hpp) in Hloop. cbn [fst snd] in Hloop.
    pose proof (sort_by_perm (heuristic (board w)) (legal_moves (board w)))
      as Hperm.
    set (mvs := map snd _) in *.
    apply NoDup_cons in Hnd as [_ Hnd].
    assert (Hnd' : NoDup (flat_map (fun m => tree_keys d (push (board w) m))
                            mvs)).
    { now rewrite Hperm. }
    assert (Habs' : absent (flat_map (fun m => tree_keys d
                                                 (push (board w) m)) mvs)
                      (tt w)).
    { intros k Hk. apply Habs. right.
      apply in_flat_map in Hk as (m & Hm & Hk). apply in_flat_map.
      exists m. split; [|exact Hk]. now apply (Permutation_in _ Hperm). }
    assert (Hlegal : forall m, In m mvs -> In m (legal_moves (board w))).
    { intros m. apply Permutation_in, Hperm. }
    destruct (turn (board w)); cbn beta iota.
    + rewrite <- (fold_max_perm _ _ _ Hperm).
      eapply (max_loop_bounds d fuel (board w) Hpp) with (best := NegInf);
        [| | | | | | | |exact Hloop];
        [ intros m a c u x u' Hu; now apply IH
        | reflexivity | exact Hlegal | exact Hnd' | exact Habs'
        | apply py_max_neg_inf | apply py_max_neg_inf | exact Hwin ].
    + rewrite <- (fold_min_perm _ _ _ Hperm).
      eapply (min_loop_bounds d fuel (board w) Hpp) with (best := PosInf);
        [| | | | | | | |exact Hloop];
        [ intros m a c u x u' Hu; now apply IH
        | reflexivity | exact Hlegal | exact Hnd' | exact Habs'
        | apply py_min_pos_inf | apply py_min_pos_inf | exact Hwin ].
Qed.

Lemma static_value (b : Board) (v : Z) : evaluate b = Some v -> static b = v.
Proof. unfold static. now intros ->. Qed.

(** Where every piece stands on the board, the reference search returns
    its value. *)
Lemma plain_minimax_value (d : nat) :
  squares_on_board ->
  forall b, plain_minimax d b = Some (plain_value d b).
Proof.
  intros Hsq. induction d as [|d IH]; intros b; cbn [plain_minimax plain_value].
  - destruct (evaluate_some b Hsq) as [v Hv].
    now rewrite Hv, (static_value _ _ Hv).
  - destruct (is_game_over b).
    { destruct (evaluate_some b Hsq) as [v Hv].
      now rewrite Hv, (static_value _ _ Hv). }
    generalize (if turn b then NegInf else PosInf).
    induction (legal_moves b) as [|m rest IHl]; intros init; [reflexivity|].
    cbn [fold_left]. rewrite IH.
    destruct (turn b); apply IHl.
Qed.

(** When the full-window search returns, it returns the plain minimax
    value. *)
Lemma pruning_exact_when_it_returns (d fuel : nat)
    (w w' : World Board) (r : Z) :
  pop_undoes_push -> squares_on_board ->
  NoDup (tree_keys d (board w)) ->
  absent (tree_keys d (board w)) (tt w) ->
  minimax fuel (Z.of_nat d) NegInf PosInf w = Ok r w' ->
  plain_minimax d (board w) = Some (Int r).
Proof.
  intros Hpp Hsq Hnd Habs Hrun.
  rewrite (plain_minimax_value d Hsq). f_equal.
  apply bounds_full_window.
  now apply (minimax_bounds d Hpp fuel (board w) NegInf PosInf w r w').
Qed.

(** X11.  What pruning alone guarantees.  With a rules library whose
    [pop] undoes [push], that offers a move whenever the game is not over
    and keeps its pieces on the board: when no two nodes of the game tree
    below the position share a cache key and none of these keys is in the
    cache, [minimax] with the full window returns, within [d + 1] nested
    calls, and what it returns is exactly the plain minimax value to the
    same depth. *)
Theorem pruning_exact_without_transpositions (d fuel : nat)
    (w : World Board) :
  pop_undoes_push -> moves_unless_over -> squares_on_board ->
  (d < fuel)%nat ->
  NoDup (tree_keys d (board w)) ->
  absent (tree_keys d (board w)) (tt w) ->
  exists r w',
    minimax fuel (Z.of_nat d) NegInf PosInf w = Ok r w'
    /\ plain_minimax d (board w) = Some (Int r).
Proof.
  intros Hpp Hmoves Hsq Hfuel Hnd Habs.
  destruct (minimax_total fuel Hmoves Hsq (Z.of_nat d) ltac:(lia)
              NegInf PosInf w) as (r & w' & Hrun).
  exists r, w'. split; [exact Hrun|].
  now apply (pruning_exact_when_it_returns d fuel w w' r).
Qed.
End PruningTheorem.

(** Below position A of the transposition game no key occurs twice.  The
    search from A to depth 2 cuts off at P after the first move and still
    returns A's plain minimax value, 0. *)
Lemma pruning_exact_without_transpositions_witness :
  @pop_undoes_push TBoard (tabulated transposition_game)
  /\ @moves_unless_over TBoard (tabulated transposition_game)
  /\ @squares_on_board TBoard (tabulated transposition_game)
  /\ (2 < 3)%nat
  /\ NoDup (@tree_keys TBoard (tabulated transposition_game) 2 (start_at 1))
  /\ absent (@tree_keys TBoard (tabulated transposition_game) 2 (start_at 1))
       (tt (fresh_world (start_at 1)))
  /\ @minimax TBoard (tabulated transposition_game) 3 2 NegInf PosInf
       (fresh_world (start_at 1)) = Ok 0 subtree_world
  /\ nodes subtree_world = 5
  /\ exists r w',
       @minimax TBoard (tabulated transposition_game) 3 (Z.of_nat 2) NegInf
         PosInf (fresh_world (start_at 1)) = Ok r w'
       /\ @plain_minimax TBoard (tabulated transposition_game) 2 (start_at 1)
          = Some (Int r).
Proof.
  assert (Hnd : NoDup (@tree_keys TBoard (tabulated transposition_game) 2
                         (start_at 1))).
  { apply (bool_decide_unpack _). vm_compute. reflexivity. }
  assert (Habs : absent (@tree_keys TBoard (tabulated transposition_game) 2
                           (start_at 1)) (tt (fresh_world (start_at 1)))).
  { intros k _. apply lookup_empty. }
  split; [apply tabulated_pop_push|].
  split; [apply tabulated_moves_unless_over|].
  split; [apply tabulated_squares; reflexivity|].
  split; [lia|]. split; [exact Hnd|]. split; [exact Habs|].
  split; [vm_compute; reflexivity|]. split; [reflexivity|].
  exact (@pruning_exact_without_transpositions TBoard
           (tabulated transposition_game) 2 3 (fresh_world (start_at 1))
           (tabulated_pop_push transposition_game)
           (tabulated_moves_unless_over transposition_game)
           (tabulated_squares transposition_game eq_refl) ltac:(lia)
           Hnd Habs).
Defined.

(** ** Table lookups outside the board *)

Lemma py_index_some_iff {A} (l : list A) (i : Z) :
  is_Some (py_index l i)
  <-> - Z.of_nat (length l) <= i < Z.of_nat (length l).
Proof.
  unfold py_index.
  destruct (Z.leb_spec 0 i) as [Hi|Hi].
  - rewrite lookup_lt_is_Some. lia.
  - destruct (Z.leb_spec (- Z.of_nat (length l)) i) as [Hn|Hn].
    + rewrite lookup_lt_is_Some. lia.
    + split; [intros [x Hx]; discriminate | lia].
Qed.

Lemma py_index_wraps {A} (l : list A) (i : Z) :
  - Z.of_nat (length l) <= i < 0 ->
  py_index l i = py_index l (i + Z.of_nat (length l)).
Proof.
  intros Hi. unfold py_index.
  destruct (Z.leb_spec 0 i); [lia|].
  destruct (Z.leb_spec (- Z.of_nat (length l)) i); [|lia].
  destruct (Z.leb_spec 0 (i + Z.of_nat (length l))); [|lia].
  f_equal. lia.
Qed.

Lemma py_index_in {A} (l : list A) (i : Z) (x : A) :
  py_index l i = Some x -> In x l.
Proof.
  unfold py_index. intros Hx. apply list_elem_of_In.
  destruct (0 <=? i); [eapply list_elem_of_lookup_2; exact Hx|].
  destruct (- Z.of_nat (length l) <=? i); [|discriminate].
  eapply list_elem_of_lookup_2; exact Hx.
Qed.

(** Mirroring flips bits 3 to 5 only, so it stays within a block of 64. *)
Lemma square_mirror_block (sq : Square) : square_mirror sq / 64 = sq / 64.
Proof.
  unfold square_mirror.
  change 64 with (2 ^ 6). rewrite <- !Z.shiftr_div_pow2 by lia.
  rewrite Z.shiftr_lxor. change (Z.shiftr 56 6) with 0. apply Z.lxor_0_r.
Qed.

Lemma square_mirror_in_table (sq : Square) :
  -64 <= square_mirror sq < 64 <-> -64 <= sq < 64.
Proof.
  pose proof (square_mirror_block sq) as Hb.
  pose proof (Z.div_mod (square_mirror sq) 64 ltac:(lia)).
  pose proof (Z.mod_pos_bound (square_mirror sq) 64 ltac:(lia)).
  pose proof (Z.div_mod sq 64 ltac:(lia)).
  pose proof (Z.mod_pos_bound sq 64 ltac:(lia)).
  lia.
Qed.

Lemma square_mirror_shift (sq : Square) :
  -64 <= sq < 0 -> square_mirror (sq + 64) = square_mirror sq + 64.
Proof.
  intros Hsq. unfold square_mirror.
  assert (Hcases : forall n : nat, (n < 64)%nat ->
            Z.lxor (Z.of_nat n) 56 = Z.lxor (Z.of_nat n - 64) 56 + 64).
  { intros n Hn. do 64 (destruct n as [|n]; [vm_compute; reflexivity|]).
    lia. }
  specialize (Hcases (Z.to_nat (sq + 64))).
  rewrite Z2Nat.id in Hcases by lia.
  replace (sq + 64 - 64) with sq in Hcases by lia.
  apply Hcases. lia.
Qed.

Lemma table_lookup_defined (pt : PieceType) (sq : Square) (c : Color) :
  is_Some (pieceSquareTableValue pt sq c) <-> -64 <= sq < 64.
Proof.
  unfold pieceSquareTableValue.
  rewrite py_index_some_iff, table_length.
  destruct c; [lia|]. change (Z.of_nat 64) with 64.
  apply square_mirror_in_table.
Qed.

Lemma table_lookup_wraps (pt : PieceType) (sq : Square) (c : Color) :
  -64 <= sq < 0 ->
  pieceSquareTableValue pt sq c = pieceSquareTableValue pt (sq + 64) c.
Proof.
  intros Hsq. unfold pieceSquareTableValue. destruct c.
  - rewrite py_index_wraps by (rewrite table_length; lia).
    rewrite table_length. reflexivity.
  - rewrite square_mirror_shift by exact Hsq.
    rewrite py_index_wraps; rewrite table_length; [reflexivity|].
    change (Z.of_nat 64) with 64.
    pose proof (proj2 (square_mirror_in_table sq) ltac:(lia)) as Hm.
    assert (square_mirror sq / 64 = -1) as Hd.
    { rewrite square_mirror_block.
      pose proof (Z.div_mod sq 64 ltac:(lia)).
      pose proof (Z.mod_pos_bound sq 64 ltac:(lia)). lia. }
    pose proof (Z.div_mod (square_mirror sq) 64 ltac:(lia)).
    pose proof (Z.mod_pos_bound (square_mirror sq) 64 ltac:(lia)). lia.
Qed.

(** X1.  [pieceSquareTableValue] indexes a 64-entry Python list with the
    square (White) or its mirror (Black): it returns a value exactly for
    the squares from -64 to 63 and raises [IndexError] for every other one;
    a negative square from -64 to -1 does not raise but reads the entry of
    the square 64 higher. *)
Theorem table_lookup_wraps_below_zero (pt : PieceType) (sq : Square)
    (c : Color) :
  (is_Some (pieceSquareTableValue pt sq c) <-> -64 <= sq < 64)
  /\ (-64 <= sq < 0 ->
      pieceSquareTableValue pt sq c = pieceSquareTableValue pt (sq + 64) c).
Proof.
  split; [apply table_lookup_defined | apply table_lookup_wraps].
Qed.

(** ** The range of the evaluation *)

Lemma table_entry_bounds (pt : PieceType) (v : Z) :
  In v (PIECE_SQUARE_TABLE pt) -> -50 <= PIECE_VALUES pt + v <= 905.
Proof.
  intros Hin.
  assert (forallb (fun v => (-50 <=? PIECE_VALUES pt + v)
                            && (PIECE_VALUES pt + v <=? 905))
            (PIECE_SQUARE_TABLE pt) = true) as Hall
    by (destruct pt; vm_compute; reflexivity).
  rewrite forallb_forall in Hall. specialize (Hall v Hin). lia.
Qed.

Lemma piece_term_bounds (sq : Square) (p : Piece) (t : Z) :
  piece_term sq p = Some t -> Z.abs t <= 905.
Proof.
  unfold piece_term, pieceSquareTableValue.
  destruct (py_index _ _) as [v|] eqn:Hv; [|discriminate].
  apply py_index_in, table_entry_bounds in Hv.
  intros [= <-]. destruct (color p); lia.
Qed.

Lemma sum_terms_bounds (items : list (Square * Piece)) (s : Z) :
  sum_terms items = Some s -> Z.abs s <= 905 * Z.of_nat (length items).
Proof.
  revert s. induction items as [|it rest IH]; intros s; cbn [sum_terms].
  - intros [= <-]. simpl. lia.
  - destruct (piece_term (fst it) (snd it)) as [t|] eqn:Ht; [|discriminate].
    destruct (sum_terms rest) as [r|]; [|discriminate].
    intros [= <-]. apply piece_term_bounds in Ht.
    specialize (IH r eq_refl). cbn [length]. lia.
Qed.

Lemma piece_term_none_iff (sq : Square) (p : Piece) :
  piece_term sq p = None <-> sq < -64 \/ 64 <= sq.
Proof.
  pose proof (table_lookup_defined (piece_type p) sq (color p)) as Hiff.
  unfold piece_term.
  destruct (pieceSquareTableValue (piece_type p) sq (color p)) as [v|].
  - split; [discriminate|]. intros Hout.
    assert (-64 <= sq < 64) by (apply Hiff; eauto). lia.
  - split; [|reflexivity]. intros _.
    destruct (Z_lt_ge_dec sq (-64)); [lia|].
    destruct (Z_lt_ge_dec sq 64); [|lia].
    destruct (proj2 Hiff ltac:(lia)) as [v Hv]. discriminate.
Qed.

Lemma sum_terms_none_iff (items : list (Square * Piece)) :
  sum_terms items = None
  <-> exists sq p, In (sq, p) items /\ (sq < -64 \/ 64 <= sq).
Proof.
  induction items as [|[sq p] rest IH]; cbn [sum_terms fst snd].
  - split; [discriminate | intros (? & ? & [] & _)].
  - pose proof (piece_term_none_iff sq p) as Hp.
    destruct (piece_term sq p) as [t|].
    + destruct (sum_terms rest) as [s|].
      * split; [discriminate|]. intros (sq' & p' & [Heq|Hin] & Hout).
        -- inversion Heq; subst. apply Hp in Hout. discriminate.
        -- assert (Some s = None) as Hn by (apply IH; eauto).
           discriminate.
      * split; [|reflexivity]. intros _.
        destruct (proj1 IH eq_refl) as (sq' & p' & Hin & Hout).
        exists sq', p'. split; [now right | exact Hout].
    + split; [|reflexivity]. intros _.
      exists sq, p. split; [now left | apply Hp; reflexivity].
Qed.

Section EvaluateEdges.
Context {Board : Type} `{PositionAdapter Board}.

(** X2.  A score returned by [evaluate] is either a mate score, of
    magnitude exactly [MATE_SCORE] and only for a checkmate, or bounded by
    what is on the board: at most 905 per piece (its value plus its table
    entry) plus one per legal move. *)
Theorem evaluate_magnitude (b : Board) (v : Z) :
  evaluate b = Some v ->
  (is_checkmate b = true /\ Z.abs v = MATE_SCORE)
  \/ (is_checkmate b = false
      /\ Z.abs v <= 905 * Z.of_nat (length (piece_map b))
                    + Z.of_nat (length (legal_moves b))).
Proof.
  unfold evaluate. rewrite material_loop_sum. intros Hv.
  destruct (is_checkmate b).
  { injection Hv as <-. left. split; [reflexivity|].
    destruct (turn b); reflexivity. }
  right. split; [reflexivity|].
  destruct (is_stalemate b || is_insufficient_material b || can_claim_draw b).
  { injection Hv as <-. unfold DRAW_SCORE. simpl Z.abs. lia. }
  destruct (sum_terms (piece_map b)) as [s|] eqn:Hs; [|discriminate].
  apply sum_terms_bounds in Hs. cbn [option_map] in Hv.
  injection Hv as <-. destruct (turn b); lia.
Qed.

(** X3.  [evaluate] raises [IndexError] exactly when the position is
    neither checkmate nor one of the three draws and some piece of the
    piece map stands on a square below -64 or above 63; in every other case
    it returns a score. *)
Theorem evaluate_raises_iff (b : Board) :
  evaluate b = None
  <-> is_checkmate b = false
      /\ (is_stalemate b || is_insufficient_material b || can_claim_draw b)
         = false
      /\ exists sq p, In (sq, p) (piece_map b) /\ (sq < -64 \/ 64 <= sq).
Proof.
  unfold evaluate. rewrite material_loop_sum.
  pose proof (sum_terms_none_iff (piece_map b)) as Hs.
  destruct (is_checkmate b).
  { split; [discriminate | intros [? _]; discriminate]. }
  destruct (is_stalemate b || is_insufficient_material b || can_claim_draw b).
  { split; [discriminate | intros (_ & ? & _); discriminate]. }
  destruct (sum_terms (piece_map b)) as [s|]; cbn [option_map].
  - split; [discriminate|]. intros (_ & _ & Hex).
    apply Hs in Hex. discriminate.
  - split; [|reflexivity]. intros _.
    split; [reflexivity|]. split; [reflexivity|]. apply Hs. reflexivity.
Qed.

Lemma evaluate_of_mirror (b b' : Board) :
  mirror_image b b' -> evaluate b' = option_map Z.opp (evaluate b).
Proof.
  intros [Hp Ht Hcm Hsm Him Hcd Hmob]. unfold evaluate.
  rewrite Hcm, Hsm, Him, Hcd, Ht, Hmob.
  destruct (is_checkmate b).
  { destruct (turn b); reflexivity. }
  destruct (is_stalemate b || is_insufficient_material b || can_claim_draw b).
  { reflexivity. }
  rewrite !material_loop_sum, (sum_terms_perm _ _ Hp), sum_terms_mirror.
  destruct (sum_terms (piece_map b)) as [s|]; simpl; [|reflexivity].
  f_equal. destruct (turn b); simpl; lia.
Qed.
End EvaluateEdges.

Lemma evaluate_magnitude_witness :
  @evaluate TBoard (tabulated mirror_game) (start_at 0) = Some 131
  /\ ((@is_checkmate TBoard (tabulated mirror_game) (start_at 0) = true
       /\ Z.abs 131 = MATE_SCORE)
      \/ (@is_checkmate TBoard (tabulated mirror_game) (start_at 0) = false
          /\ Z.abs 131 <= 905 * 3 + 6)).
Proof.
  split; [vm_compute; reflexivity|].
  apply (@evaluate_magnitude TBoard (tabulated mirror_game) (start_at 0) 131).
  vm_compute; reflexivity.
Defined.

(** ** Captures of an empty square, and the range of the heuristic *)

Section OrderingEdges.
Context {Board : Type} `{PositionAdapter Board}.

Lemma move_ordering_ranks (b : Board) (m m' : Move) :
  pop_undoes_push ->
  In m (legal_moves b) -> In m' (legal_moves b) ->
  heuristic b m' < heuristic b m ->
  precedes m m' (fst (move_ordering b)).
Proof.
  intros Hpp Hm Hm' Hlt.
  apply (sorted_precedes (heuristic b)); auto;
    [|now apply move_ordering_in|now apply move_ordering_in].
  rewrite (move_ordering_frame b Hpp). apply sort_by_sorted.
Qed.

(** X4.  A capture whose destination square is empty (an en-passant
    capture) gets no victim term: its score is minus the value of the
    capturing piece, plus the promotion and check terms.  When it neither
    promotes nor gives check and the capturing piece has a positive value,
    it is ordered after every legal move that is not a capture. *)
Theorem capture_of_empty_square_ranks_last (b : Board) (c : Move)
    (ap : Piece) :
  pop_undoes_push ->
  In c (legal_moves b) ->
  is_capture b c = true ->
  piece_at b (to_square c) = None ->
  piece_at b (from_square c) = Some ap ->
  heuristic b c
  = - PIECE_VALUES (piece_type ap) + promotion_bonus c + check_bonus b c
  /\ (promotion c = None -> is_check (push b c) = false ->
      0 < PIECE_VALUES (piece_type ap) ->
      forall q, In q (legal_moves b) -> is_capture b q = false ->
        precedes q c (fst (move_ordering b))).
Proof.
  intros Hpp Hc Hcap Hto Hfrom.
  assert (Hscore : heuristic b c
    = - PIECE_VALUES (piece_type ap) + promotion_bonus c + check_bonus b c).
  { rewrite key_score, Hcap, Hto, Hfrom. lia. }
  split; [exact Hscore|].
  intros Hnopromo Hnocheck Hpos q Hq Hquiet.
  apply move_ordering_ranks; auto.
  rewrite Hscore, (key_score b q), Hquiet.
  unfold promotion_bonus at 1. rewrite Hnopromo.
  unfold check_bonus at 1. rewrite Hnocheck.
  pose proof (promotion_bonus_bounds q).
  pose proof (check_bonus_bounds b q). lia.
Qed.

(** X5.  Every heuristic score lies between -900 and 29400, and a move
    that is not a capture scores between 0 and 10400. *)
Theorem heuristic_range (b : Board) (m : Move) :
  -900 <= heuristic b m <= 29400
  /\ (is_capture b m = false -> 0 <= heuristic b m <= 10400).
Proof.
  rewrite key_score.
  pose proof (promotion_bonus_bounds m).
  pose proof (check_bonus_bounds b m).
  destruct (is_capture b m); [|split; [lia | intros _; lia]].
  split; [|discriminate].
  destruct (piece_at b (to_square m)) as [cp|],
    (piece_at b (from_square m)) as [ap|];
    try pose proof (piece_value_bounds (piece_type cp));
    try pose proof (piece_value_bounds (piece_type ap)); lia.
Qed.
End OrderingEdges.

Lemma capture_of_empty_square_ranks_last_witness :
  @pop_undoes_push TBoard (tabulated ep_game)
  /\ In exd6 (@legal_moves TBoard (tabulated ep_game) (start_at 0))
  /\ @is_capture TBoard (tabulated ep_game) (start_at 0) exd6 = true
  /\ @piece_at TBoard (tabulated ep_game) (start_at 0) (to_square exd6)
     = None
  /\ @piece_at TBoard (tabulated ep_game) (start_at 0) (from_square exd6)
     = Some wP
  /\ @heuristic TBoard (tabulated ep_game) (start_at 0) exd6 = - 100 + 0 + 0
  /\ precedes (mv 36 44) exd6
       (fst (@move_ordering TBoard (tabulated ep_game) (start_at 0))).
Proof.
  assert (Hin : In exd6 (@legal_moves TBoard (tabulated ep_game)
                           (start_at 0))) by (vm_compute; tauto).
  pose proof (@capture_of_empty_square_ranks_last TBoard (tabulated ep_game)
                (start_at 0) exd6 wP (tabulated_pop_push ep_game)
                Hin eq_refl eq_refl eq_refl) as (Hscore & Hlast).
  split; [apply tabulated_pop_push|]. split; [exact Hin|].
  split; [reflexivity|]. split; [reflexivity|]. split; [reflexivity|].
  split; [exact Hscore|].
  apply Hlast; [reflexivity | reflexivity | reflexivity
               | vm_compute; tauto | reflexivity].
Defined.

(** ** What a search call does *)

Section SearchContracts.
Context {Board : Type} `{PositionAdapter Board}.

(** X6.  With a rules library that offers a move whenever the game is not
    over and keeps its pieces on the 64 squares, [minimax] at any depth
    [>= 0] returns a score, for every window and every cache: it raises
    neither [OverflowError] nor [IndexError], and [depth + 1] nested calls
    are enough. *)
Theorem minimax_returns_a_score (fuel : nat) (depth : Z)
    (alpha beta : Num) (w : World Board) :
  moves_unless_over -> squares_on_board ->
  0 <= depth < Z.of_nat fuel ->
  exists v w', minimax fuel depth alpha beta w = Ok v w'.
Proof.
  intros Hmoves Hsq Hd. now apply (minimax_total _ Hmoves Hsq).
Qed.

Lemma minimax_below_zero (fuel : nat) :
  pop_undoes_push -> moves_unless_over ->
  forall depth alpha beta w,
    depth < 0 -> no_negative_depth (tt w) ->
    alive_for fuel (board w) = true ->
    minimax fuel depth alpha beta w = OutOfFuel.
Proof.
  intros Hpp Hmoves. induction fuel as [|fuel IH];
    intros depth alpha beta w Hd Htt Halive; [reflexivity|].
  rewrite minimax_step. cbv zeta.
  cbn [alive_for] in Halive. apply andb_true_iff in Halive as [Hover Hkids].
  apply negb_true_iff in Hover. rewrite forallb_forall in Hkids.
  destruct (tt w !! cache_key (board w) depth) as [v|] eqn:Hhit.
  { assert (0 <= depth) by (apply (Htt (cache_key (board w) depth)); eauto).
    lia. }
  destruct (Z.eqb_spec depth 0) as [->|_]; [lia|]. rewrite Hover. cbn [orb].
  pose proof (move_ordering_nonempty _ (Hmoves _ Hover)) as Hne.
  rewrite (move_ordering_frame _ Hpp) in *. cbn [fst snd] in *.
  pose proof (sort_by_perm (heuristic (board w)) (legal_moves (board w)))
    as Hperm.
  set (mvs := map snd _) in *.
  destruct mvs as [|m rest]; [congruence|].
  cbn [search_loop].
  assert (Hm : In m (legal_moves (board w))).
  { apply (Permutation_in _ Hperm). now left. }
  destruct (turn (board w)); cbn [windowed];
    rewrite IH; try reflexivity; try lia; try exact Htt;
    cbn [world_push set_board board]; now apply Hkids.
Qed.

(** X7.  A negative depth is not treated as depth 0: the test
    [depth == 0] never fires, so on a cache without entries of negative
    depth [minimax] keeps recursing as long as the positions it meets are
    not game over.  If no position within [fuel] plies is over, [fuel]
    nested calls are not enough, however negative the depth. *)
Theorem negative_depth_is_no_leaf (fuel : nat) (depth : Z)
    (alpha beta : Num) (w : World Board) :
  pop_undoes_push -> moves_unless_over ->
  depth < 0 -> no_negative_depth (tt w) ->
  alive_for fuel (board w) = true ->
  minimax fuel depth alpha beta w = OutOfFuel.
Proof.
  intros Hpp Hmoves. now apply minimax_below_zero.
Qed.

(** X8.  [best_move] with a depth of 0 or less searches every root move
    with a negative depth, so it does not return after a shallow search: if
    no position within [fuel + 1] plies of the root is over, [fuel] nested
    calls of [minimax] are not enough. *)
Theorem best_move_needs_positive_depth (fuel : nat) (depth : Z)
    (w : World Board) :
  pop_undoes_push -> moves_unless_over ->
  depth <= 0 -> no_negative_depth (tt w) ->
  alive_for (S fuel) (board w) = true ->
  best_move fuel depth w = OutOfFuel.
Proof.
  intros Hpp Hmoves Hd Htt Halive.
  rewrite best_move_step. cbv zeta.
  cbn [alive_for] in Halive. apply andb_true_iff in Halive as [Hover Hkids].
  apply negb_true_iff in Hover. rewrite forallb_forall in Hkids.
  pose proof (move_ordering_nonempty _ (Hmoves _ Hover)) as Hne.
  rewrite (move_ordering_frame _ Hpp) in *. cbn [fst snd] in *.
  pose proof (sort_by_perm (heuristic (board w)) (legal_moves (board w)))
    as Hperm.
  set (mvs := map snd _) in *.
  destruct mvs as [|m rest]; [congruence|].
  cbn [search_loop].
  assert (Hm : In m (legal_moves (board w))).
  { apply (Permutation_in _ Hperm). now left. }
  rewrite (minimax_below_zero fuel Hpp Hmoves); [reflexivity|lia|exact Htt|].
  cbn [world_push set_board board]. now apply Hkids.
Qed.

(** X9.  A search never overwrites or drops a cache entry, and every entry
    it adds is keyed by a node of the game tree below the position it was
    called on, down to the depth it was called with. *)
Theorem search_writes_only_its_subtree (d fuel : nat) (alpha beta : Num)
    (w w' : World Board) (v : Z) :
  pop_undoes_push ->
  minimax fuel (Z.of_nat d) alpha beta w = Ok v w' ->
  tt w ⊆ tt w'
  /\ forall k, tt w !! k = None -> is_Some (tt w' !! k) ->
       In k (tree_keys d (board w)).
Proof.
  intros Hpp Hrun. split.
  - apply (minimax_grows fuel (Z.of_nat d) alpha beta w w').
    now rewrite Hrun.
  - now apply (minimax_adds_tree_keys d Hpp fuel alpha beta w v w').
Qed.

(** X10.  What a window search promises.  With a rules library whose
    [pop] undoes [push], that offers a move whenever the game is not over
    and keeps its pieces on the board: when no two nodes of the game tree
    below the position share a cache key and none of these keys is in the
    cache, [minimax] with a window [alpha < beta] returns, within [d + 1]
    nested calls, and with [v] the value of plain minimax to the same depth
    it returns [v] if [alpha < v < beta], a result at or below [alpha] if
    [v <= alpha], and a result at or above [beta] if [v >= beta]. *)
Theorem window_search_brackets_value (d fuel : nat) (alpha beta : Num)
    (w : World Board) :
  pop_undoes_push -> moves_unless_over -> squares_on_board ->
  (d < fuel)%nat ->
  NoDup (tree_keys d (board w)) ->
  absent (tree_keys d (board w)) (tt w) ->
  num_ltb alpha beta = true ->
  exists r w' v,
    minimax fuel (Z.of_nat d) alpha beta w = Ok r w'
    /\ plain_minimax d (board w) = Some v
    /\ (num_ltb alpha v = true -> num_ltb v beta = true -> Int r = v)
    /\ (num_leb v alpha = true -> num_leb (Int r) alpha = true)
    /\ (num_leb beta v = true -> num_leb beta (Int r) = true).
Proof.
  intros Hpp Hmoves Hsq Hfuel Hnd Habs Hwin.
  destruct (minimax_total fuel Hmoves Hsq (Z.of_nat d) ltac:(lia)
              alpha beta w) as (r & w' & Hrun).
  exists r, w', (plain_value d (board w)).
  split; [exact Hrun|]. split; [apply (plain_minimax_value d Hsq)|].
  destruct (minimax_bounds d Hpp fuel (board w) alpha beta w r w' eq_refl
              Hnd Habs Hwin Hrun) as (Hlow & Hhigh & Hexact).
  unfold num_leb. split; [exact Hexact|]. split.
  - intros Hv. apply negb_true_iff in Hv. rewrite (Hlow Hv). reflexivity.
  - intros Hv. apply negb_true_iff in Hv. rewrite (Hhigh Hv). reflexivity.
Qed.

(** *** The node counter *)

Lemma search_loop_counts {Acc : Type}
    (call : Acc -> World Board -> Outcome (World Board) Z)
    (step : Acc -> Move -> Z -> Acc) :
  (forall acc w v w', call acc w = Ok v w' -> nodes w + 1 <= nodes w') ->
  forall mvs acc w acc' w',
    search_loop call step (fun _ => false) mvs acc w = Ok acc' w' ->
    nodes w + Z.of_nat (length mvs) <= nodes w'.
Proof.
  intros Hcall. induction mvs as [|m rest IH]; intros acc w acc' w' Hrun.
  - simpl in Hrun. injection Hrun as _ <-. simpl. lia.
  - cbn [search_loop] in Hrun.
    destruct (call acc (world_push w m)) as [val w1|e s|] eqn:Hc;
      try discriminate.
    apply Hcall in Hc. apply IH in Hrun.
    cbn [world_push world_pop set_board nodes length] in *. lia.
Qed.

Lemma search_loop_nodes_mono {Acc : Type}
    (call : Acc -> World Board -> Outcome (World Board) Z)
    (step : Acc -> Move -> Z -> Acc) (stop : Acc -> bool) :
  (forall acc w v w', call acc w = Ok v w' -> nodes w <= nodes w') ->
  forall mvs acc w acc' w',
    search_loop call step stop mvs acc w = Ok acc' w' ->
    nodes w <= nodes w'.
Proof.
  intros Hcall. induction mvs as [|m rest IH]; intros acc w acc' w' Hrun.
  - simpl in Hrun. injection Hrun as _ <-. lia.
  - cbn [search_loop] in Hrun.
    destruct (call acc (world_push w m)) as [val w1|e s|] eqn:Hc;
      try discriminate.
    apply Hcall in Hc. cbn [world_push set_board nodes] in Hc.
    destruct (stop (step acc m val)).
    + injection Hrun as _ <-. simpl. exact Hc.
    + apply IH in Hrun. simpl in Hrun. lia.
Qed.

Lemma minimax_counts (fuel : nat) :
  forall depth alpha beta w v w',
    minimax fuel depth alpha beta w = Ok v w' -> nodes w + 1 <= nodes w'.
Proof.
  induction fuel as [|fuel IH]; intros depth alpha beta w v w' Hrun;
    [discriminate|].
  rewrite minimax_step in Hrun. cbv zeta in Hrun.
  destruct (tt w !! cache_key (board w) depth).
  { inversion Hrun; subst. simpl. lia. }
  destruct ((depth =? 0) || is_game_over (board w)).
  { destruct (evaluate (board w)); inversion Hrun; subst. simpl. lia. }
  destruct (outcome_map _ _) as [best w''|e s|] eqn:Hloop; try discriminate.
  apply outcome_map_ok in Hloop as (acc & Hloop & _).
  apply search_loop_nodes_mono in Hloop.
  - destruct (py_int best); inversion Hrun; subst. simpl in *. exact Hloop.
  - intros [[b0 a0] c0] u x u' Hu. cbn [windowed] in Hu.
    apply IH in Hu. lia.
Qed.

(** X12.  [best_move] starts its node count at zero whatever the counter
    held before, and when it returns the counter is at least the number of
    legal moves of the root: every root move costs at least one node. *)
Theorem best_move_counts_its_own_nodes (fuel : nat) (depth : Z)
    (w w' : World Board) (r : SearchResult) :
  best_move fuel depth w = Ok r w' ->
  Z.of_nat (length (legal_moves (board w))) <= nodes w'
  /\ forall n, best_move fuel depth (mkWorld (board w) (tt w) n) = Ok r w'.
Proof.
  intros Hrun. split.
  - rewrite best_move_step in Hrun. cbv zeta in Hrun.
    destruct (search_loop _ _ _ _ _ _) as [acc w''|e s|] eqn:Hloop;
      try discriminate.
    apply search_loop_counts in Hloop.
    + destruct (py_int (fst acc)); inversion Hrun; subst.
      rewrite (Permutation_length (move_ordering_perm (board w))) in Hloop.
      simpl in Hloop. lia.
    + intros _ u v u'. apply minimax_counts.
  - intros n. rewrite <- Hrun. reflexivity.
Qed.

(** *** The first best root move *)

Lemma root_step_improves (c : Color) acc m s :
  root_step c acc m s
  = if improves c (fst acc) s then (Int s, Some m) else acc.
Proof.
  unfold root_step, improves, white_step, black_step. now destruct c.
Qed.

Lemma improves_int (c : Color) s t :
  improves c (Int t) s = true <-> better c s t.
Proof.
  unfold improves, better. destruct c; simpl; apply Z.ltb_lt.
Qed.

Lemma improves_later (c : Color) best s t :
  improves c best s = false -> improves c best t = true -> better c t s.
Proof.
  unfold improves, better.
  destruct c, best; simpl; try discriminate;
    rewrite ?Z.ltb_lt, ?Z.ltb_ge; lia.
Qed.

Lemma improves_further (c : Color) best s t :
  improves c best s = true -> better c t s -> improves c best t = true.
Proof.
  unfold improves, better.
  destruct c, best; simpl; try discriminate; try reflexivity;
    rewrite ?Z.ltb_lt; lia.
Qed.

Lemma root_loop_first_best (fuel : nat) (depth : Z) (c : Color) :
  forall mvs best bm w acc' w',
    search_loop (fun _ => minimax fuel (depth - 1) NegInf PosInf)
      (root_step c) (fun _ => false) mvs (best, bm) w = Ok acc' w' ->
    map fst (root_scores fuel depth mvs w) = mvs
    /\ ((acc' = (best, bm)
         /\ forall m s, In (m, s) (root_scores fuel depth mvs w) ->
              improves c best s = false)
        \/ exists before m sc after,
             root_scores fuel depth mvs w = before ++ (m, sc) :: after
             /\ acc' = (Int sc, Some m)
             /\ improves c best sc = true
             /\ (forall m' s, In (m', s) before -> better c sc s)
             /\ (forall m' s, In (m', s) after -> ~ better c s sc)).
Proof.
  induction mvs as [|m rest IH]; intros best bm w acc' w' Hrun.
  - simpl in Hrun. injection Hrun as <- _. cbn.
    split; [reflexivity|]. left. split; [reflexivity|]. intros ? ? [].
  - cbn [search_loop] in Hrun. cbn [root_scores].
    destruct (minimax fuel (depth - 1) NegInf PosInf (world_push w m))
      as [sc0 w1|e s|]; try discriminate.
    rewrite root_step_improves in Hrun. cbn [fst] in Hrun.
    destruct (improves c best sc0) eqn:Himp.
    + apply IH in Hrun as [Hfst Hrest].
      split; [cbn [map fst]; now rewrite Hfst|]. right.
      destruct Hrest as [[-> Hall] | (before & m' & sc' & after & Heq & ->
                                       & Hbetter & Hbefore & Hafter)].
      * exists [], m, sc0, (root_scores fuel depth rest (world_pop w1)).
        split; [reflexivity|]. split; [reflexivity|]. split; [exact Himp|].
        split; [intros ? ? []|].
        intros m' s Hin Hb. apply improves_int in Hb.
        rewrite (Hall _ _ Hin) in Hb. discriminate.
      * exists ((m, sc0) :: before), m', sc', after.
        split; [now rewrite Heq|]. split; [reflexivity|].
        apply improves_int in Hbetter.
        split; [now apply (improves_further c best sc0)|].
        split; [|exact Hafter].
        intros m0 s [Heq0|Hin]; [|now apply (Hbefore m0)].
        now injection Heq0 as <- <-.
    + apply IH in Hrun as [Hfst Hrest].
      split; [cbn [map fst]; now rewrite Hfst|].
      destruct Hrest as [[-> Hall] | (before & m' & sc' & after & Heq & ->
                                       & Hbetter & Hbefore & Hafter)].
      * left. split; [reflexivity|].
        intros m0 s [Heq0|Hin]; [|now apply (Hall m0)].
        now injection Heq0 as <- <-.
      * right. exists ((m, sc0) :: before), m', sc', after.
        split; [now rewrite Heq|]. split; [reflexivity|].
        split; [exact Hbetter|]. split; [|exact Hafter].
        intros m0 s [Heq0|Hin]; [|now apply (Hbefore m0)].
        injection Heq0 as <- <-. now apply (improves_later c best).
Qed.

(** X13.  [best_move] returns the first best root move.  Listing the root
    moves in search order with the scores [minimax] returned for them, the
    returned move and score are an entry of that list; every entry before
    it has a strictly worse score for the side to move and no entry after
    it has a better one. *)
Theorem best_move_takes_first_best (fuel : nat) (depth : Z)
    (w w' : World Board) (r : SearchResult) :
  best_move fuel depth w = Ok r w' ->
  let b := board w in
  let scored :=
    root_scores fuel depth (fst (move_ordering b))
      (mkWorld (snd (move_ordering b)) (tt w) 0) in
  map fst scored = fst (move_ordering b)
  /\ exists before m after,
       scored = before ++ (m, score r) :: after
       /\ move r = Some m
       /\ (forall m' s, In (m', s) before -> better (turn b) (score r) s)
       /\ (forall m' s, In (m', s) after -> ~ better (turn b) s (score r)).
Proof.
  intros Hrun b scored. subst b scored.
  rewrite best_move_step in Hrun. cbv zeta in Hrun.
  destruct (search_loop _ _ _ _ _ _) as [acc w''|e s|] eqn:Hloop;
    try discriminate.
  destruct (py_int (fst acc)) as [sc|] eqn:Hint; inversion Hrun; subst.
  clear Hrun. cbn [score move].
  assert (Hloop' :
    search_loop (fun _ => minimax fuel (depth - 1) NegInf PosInf)
      (root_step (turn (board w)))
      (fun _ => false) (fst (move_ordering (board w)))
      (if turn (board w) then NegInf else PosInf, None)
      (mkWorld (snd (move_ordering (board w))) (tt w) 0) = Ok acc w').
  { exact Hloop. }
  apply root_loop_first_best in Hloop' as [Hfst Hrest].
  split; [exact Hfst|].
  destruct Hrest as [[-> _] | (before & m & sc' & after & Heq & -> & _
                               & Hbefore & Hafter)].
  { destruct (turn (board w)); discriminate. }
  injection Hint as <-. exists before, m, after. cbn [snd]. auto.
Qed.
(** With a rules library whose [pop] undoes [push], that offers a move
    whenever the game is not over and keeps its pieces on the board: on a
    position with at least one legal move and for a depth [>= 1],
    [best_move] returns (given [depth] nested calls) a result whose move is
    a legal move of the input position and whose score is the score the
    loop got for that move from [minimax], on the engine as the searches
    of the earlier root moves left it.  With exactly one legal move, that
    move is returned. *)
Lemma best_move_returns_a_root_move (fuel : nat) (depth : Z)
    (w : World Board) :
  pop_undoes_push -> moves_unless_over -> squares_on_board ->
  legal_moves (board w) <> [] ->
  1 <= depth <= Z.of_nat fuel ->
  exists sc m w',
    best_move fuel depth w = Ok (mkSearchResult sc (Some m)) w'
    /\ In m (legal_moves (board w))
    /\ In (m, sc)
         (root_scores fuel depth (fst (move_ordering (board w)))
            (mkWorld (board w) (tt w) 0))
    /\ (forall m0, legal_moves (board w) = [m0] -> m = m0).
Proof.
  intros Hpp Hmoves Hsq Hne Hd.
  destruct (search_loop_total
              (fun _ : Num * option Move =>
                 minimax fuel (depth - 1) NegInf PosInf)
              (root_step (turn (board w))) (fun _ => false))
    with (mvs := fst (move_ordering (board w)))
         (acc := (if turn (board w) then NegInf else PosInf,
                  @None Move))
         (w := mkWorld (snd (move_ordering (board w))) (tt w) 0)
    as (acc' & w'' & Hloop).
  { intros _ u. apply (minimax_total fuel Hmoves Hsq). lia. }
  assert (Hsame : snd (move_ordering (board w)) = board w)
    by now rewrite (move_ordering_frame _ Hpp).
  pose proof Hloop as Hfirst.
  apply root_loop_first_best in Hfirst as [Hfst Hrest].
  rewrite Hsame in Hfst, Hrest.
  set (scored := root_scores fuel depth (fst (move_ordering (board w)))
                   (mkWorld (board w) (tt w) 0)) in *.
  assert (Hrun : forall sc m, acc' = (Int sc, Some m) ->
            best_move fuel depth w = Ok (mkSearchResult sc (Some m)) w'').
  { intros sc m ->. rewrite best_move_step. cbv zeta.
    unfold root_step in Hloop. unfold set_board. cbn [board tt nodes].
    destruct (turn (board w)); rewrite Hloop; reflexivity. }
  destruct Hrest as [[-> Hall] | (before & m & sc & after & Heq & -> & _)].
  - exfalso. pose proof (move_ordering_nonempty _ Hne) as Hnil.
    destruct scored as [|[m s] rest] eqn:Hsc.
    + apply Hnil. now rewrite <- Hfst.
    + specialize (Hall m s (or_introl eq_refl)).
      unfold improves in Hall. destruct (turn (board w)); discriminate.
  - exists sc, m, w''. split; [now apply Hrun|].
    assert (Hin : In (m, sc) scored).
    { rewrite Heq. apply in_or_app. right. now left. }
    assert (Hm : In m (legal_moves (board w))).
    { apply move_ordering_in. rewrite <- Hfst.
      apply in_map_iff. now exists (m, sc). }
    split; [exact Hm|]. split; [exact Hin|].
    intros m0 Hone. rewrite Hone in Hm. destruct Hm as [<-|[]]. reflexivity.
Qed.
End SearchContracts.

Lemma no_negative_depth_empty :
  @no_negative_depth (∅ : gmap CacheKey Z).
Proof. intros k [v Hv]. rewrite lookup_empty in Hv. discriminate. Qed.

Lemma minimax_returns_a_score_witness :
  @moves_unless_over TBoard (tabulated transposition_game)
  /\ @squares_on_board TBoard (tabulated transposition_game)
  /\ 0 <= 3 < Z.of_nat 4
  /\ exists v w',
       @minimax TBoard (tabulated transposition_game) 4 3 NegInf PosInf
         (fresh_world (start_at 0)) = Ok v w'.
Proof.
  split; [apply tabulated_moves_unless_over|].
  split; [apply tabulated_squares; reflexivity|].
  split; [simpl; lia|].
  apply (@minimax_returns_a_score TBoard (tabulated transposition_game));
    [ apply tabulated_moves_unless_over
    | apply tabulated_squares; reflexivity
    | simpl; lia ].
Defined.

Lemma negative_depth_is_no_leaf_witness :
  @pop_undoes_push TBoard (tabulated transposition_game)
  /\ @moves_unless_over TBoard (tabulated transposition_game)
  /\ -1 < 0
  /\ no_negative_depth (tt (fresh_world (start_at 0)))
  /\ @alive_for TBoard (tabulated transposition_game) 2 (start_at 0) = true
  /\ @minimax TBoard (tabulated transposition_game) 2 (-1) NegInf PosInf
       (fresh_world (start_at 0)) = OutOfFuel.
Proof.
  split; [apply tabulated_pop_push|].
  split; [apply tabulated_moves_unless_over|].
  split; [lia|]. split; [apply no_negative_depth_empty|].
  split; [vm_compute; reflexivity|].
  apply (@negative_depth_is_no_leaf TBoard (tabulated transposition_game));
    [ apply tabulated_pop_push | apply tabulated_moves_unless_over | lia
    | apply no_negative_depth_empty | vm_compute; reflexivity ].
Defined.

Lemma best_move_needs_positive_depth_witness :
  @pop_undoes_push TBoard (tabulated transposition_game)
  /\ @moves_unless_over TBoard (tabulated transposition_game)
  /\ 0 <= 0
  /\ no_negative_depth (tt (fresh_world (start_at 0)))
  /\ @alive_for TBoard (tabulated transposition_game) 2 (start_at 0) = true
  /\ @best_move TBoard (tabulated transposition_game) 1 0
       (fresh_world (start_at 0)) = OutOfFuel.
Proof.
  split; [apply tabulated_pop_push|].
  split; [apply tabulated_moves_unless_over|].
  split; [lia|]. split; [apply no_negative_depth_empty|].
  split; [vm_compute; reflexivity|].
  apply (@best_move_needs_positive_depth TBoard
           (tabulated transposition_game));
    [ apply tabulated_pop_push | apply tabulated_moves_unless_over | lia
    | apply no_negative_depth_empty | vm_compute; reflexivity ].
Defined.

Lemma search_writes_only_its_subtree_witness :
  @pop_undoes_push TBoard (tabulated transposition_game)
  /\ @minimax TBoard (tabulated transposition_game) 3 2 NegInf PosInf
       (fresh_world (start_at 1)) = Ok 0 subtree_world
  /\ tt (fresh_world (start_at 1)) ⊆ tt subtree_world
  /\ forall k, tt (fresh_world (start_at 1)) !! k = None ->
       is_Some (tt subtree_world !! k) ->
       In k (@tree_keys TBoard (tabulated transposition_game) 2 (start_at 1)).
Proof.
  assert (Hrun : @minimax TBoard (tabulated transposition_game) 3 2 NegInf
                   PosInf (fresh_world (start_at 1)) = Ok 0 subtree_world).
  { vm_compute. reflexivity. }
  split; [apply tabulated_pop_push|]. split; [exact Hrun|].
  exact (@search_writes_only_its_subtree TBoard
           (tabulated transposition_game) 2 3 NegInf PosInf
           (fresh_world (start_at 1)) subtree_world 0
           (tabulated_pop_push transposition_game) Hrun).
Defined.

Lemma window_search_brackets_value_witness :
  @pop_undoes_push TBoard (tabulated transposition_game)
  /\ @moves_unless_over TBoard (tabulated transposition_game)
  /\ @squares_on_board TBoard (tabulated transposition_game)
  /\ (1 < 2)%nat
  /\ NoDup (@tree_keys TBoard (tabulated transposition_game) 1 (start_at 4))
  /\ absent (@tree_keys TBoard (tabulated transposition_game) 1 (start_at 4))
       (tt (fresh_world (start_at 4)))
  /\ num_ltb NegInf (Int 0) = true
  /\ @minimax TBoard (tabulated transposition_game) 2 1 NegInf (Int 0)
       (fresh_world (start_at 4)) = Ok 0 cutoff_world
  /\ @plain_minimax TBoard (tabulated transposition_game) 1 (start_at 4)
     = Some (Int 894)
  /\ exists r w' v,
       @minimax TBoard (tabulated transposition_game) 2 (Z.of_nat 1) NegInf
         (Int 0) (fresh_world (start_at 4)) = Ok r w'
       /\ @plain_minimax TBoard (tabulated transposition_game) 1 (start_at 4)
          = Some v
       /\ (num_ltb NegInf v = true -> num_ltb v (Int 0) = true -> Int r = v)
       /\ (num_leb v NegInf = true -> num_leb (Int r) NegInf = true)
       /\ (num_leb (Int 0) v = true -> num_leb (Int 0) (Int r) = true).
Proof.
  assert (Hnd : NoDup (@tree_keys TBoard (tabulated transposition_game) 1
                         (start_at 4))).
  { apply (bool_decide_unpack _). vm_compute. reflexivity. }
  assert (Habs : absent (@tree_keys TBoard (tabulated transposition_game) 1
                           (start_at 4)) (tt (fresh_world (start_at 4)))).
  { intros k _. apply lookup_empty. }
  split; [apply tabulated_pop_push|].
  split; [apply tabulated_moves_unless_over|].
  split; [apply tabulated_squares; reflexivity|].
  split; [lia|]. split; [exact Hnd|]. split; [exact Habs|].
  split; [reflexivity|]. split; [vm_compute; reflexivity|].
  split; [vm_compute; reflexivity|].
  exact (@window_search_brackets_value TBoard
           (tabulated transposition_game) 1 2 NegInf (Int 0)
           (fresh_world (start_at 4))
           (tabulated_pop_push transposition_game)
           (tabulated_moves_unless_over transposition_game)
           (tabulated_squares transposition_game eq_refl) ltac:(lia)
           Hnd Habs eq_refl).
Defined.

Lemma best_move_counts_its_own_nodes_witness :
  @best_move TBoard (tabulated transposition_game) 4 3
    (fresh_world (start_at 0))
  = Ok (mkSearchResult 0 (Some (mv 4 3))) root_search_world
  /\ 2 <= nodes root_search_world
  /\ forall n,
       @best_move TBoard (tabulated transposition_game) 4 3
         (mkWorld (start_at 0) ∅ n)
       = Ok (mkSearchResult 0 (Some (mv 4 3))) root_search_world.
Proof.
  assert (Hrun : @best_move TBoard (tabulated transposition_game) 4 3
                   (fresh_world (start_at 0))
                 = Ok (mkSearchResult 0 (Some (mv 4 3))) root_search_world).
  { vm_compute. reflexivity. }
  split; [exact Hrun|].
  exact (@best_move_counts_its_own_nodes TBoard
           (tabulated transposition_game) 4 3 (fresh_world (start_at 0))
           root_search_world (mkSearchResult 0 (Some (mv 4 3))) Hrun).
Defined.

Lemma best_move_takes_first_best_witness :
  @best_move TBoard (tabulated transposition_game) 4 3
    (fresh_world (start_at 0))
  = Ok (mkSearchResult 0 (Some (mv 4 3))) root_search_world
  /\ @root_scores TBoard (tabulated transposition_game) 4 3
       (fst (@move_ordering TBoard (tabulated transposition_game)
               (start_at 0)))
       (mkWorld (snd (@move_ordering TBoard (tabulated transposition_game)
                        (start_at 0))) ∅ 0)
     = [(mv 4 3, 0); (mv 4 5, 0)]
  /\ exists before m after,
       @root_scores TBoard (tabulated transposition_game) 4 3
         (fst (@move_ordering TBoard (tabulated transposition_game)
                 (start_at 0)))
         (mkWorld (snd (@move_ordering TBoard (tabulated transposition_game)
                          (start_at 0))) ∅ 0)
       = before ++ (m, 0) :: after
       /\ Some (mv 4 3) = Some m
       /\ (forall m' s, In (m', s) before -> better true 0 s)
       /\ (forall m' s, In (m', s) after -> ~ better true s 0).
Proof.
  assert (Hrun : @best_move TBoard (tabulated transposition_game) 4 3
                   (fresh_world (start_at 0))
                 = Ok (mkSearchResult 0 (Some (mv 4 3))) root_search_world).
  { vm_compute. reflexivity. }
  split; [exact Hrun|]. split; [vm_compute; reflexivity|].
  exact (proj2 (@best_move_takes_first_best TBoard
                  (tabulated transposition_game) 4 3
                  (fresh_world (start_at 0)) root_search_world
                  (mkSearchResult 0 (Some (mv 4 3))) Hrun)).
Defined.

(** ** The board on the canvas *)

Lemma square_file_rank (f r : Z) :
  0 <= f <= 7 -> 0 <= r <= 7 ->
  square_file (chess_square f r) = f /\ square_rank (chess_square f r) = r
  /\ 0 <= chess_square f r < 64.
Proof.
  intros Hf Hr. unfold square_file, square_rank, chess_square.
  change 7 with (Z.ones 3). rewrite Z.land_ones by lia.
  rewrite Z.shiftr_div_pow2 by lia. change (2 ^ 3) with 8.
  split; [|split; [|lia]].
  - rewrite Z.add_comm, Z.mod_add by lia. apply Z.mod_small. lia.
  - rewrite Z.add_comm, Z.div_add by lia. rewrite Z.div_small by lia. lia.
Qed.

Lemma square_of_file_rank (sq : Square) :
  0 <= sq < 64 ->
  0 <= square_file sq <= 7 /\ 0 <= square_rank sq <= 7
  /\ chess_square (square_file sq) (square_rank sq) = sq.
Proof.
  intros Hsq. unfold square_file, square_rank, chess_square.
  change 7 with (Z.ones 3). rewrite Z.land_ones by lia.
  rewrite Z.shiftr_div_pow2 by lia. change (2 ^ 3) with 8.
  change (Z.ones 3) with 7.
  pose proof (Z.div_mod sq 8 ltac:(lia)).
  pose proof (Z.mod_pos_bound sq 8 ltac:(lia)). lia.
Qed.

Lemma div_in_cell (s a q : Z) :
  0 < s -> (a / s = q <-> q * s <= a < q * s + s).
Proof.
  intros Hs. pose proof (Z.div_mod a s ltac:(lia)).
  pose proof (Z.mod_pos_bound a s Hs). split; [intros <-; lia|].
  intros Ha. symmetry. apply (Z.div_unique a s q (a - q * s)); lia.
Qed.

(** X14.  A click selects the square drawn under it.  With a positive
    square size, [_xy_to_square] returns square [sq] exactly for the points
    of the rectangle that [_square_to_xy] assigns to [sq], for the squares
    0 to 63 and in both orientations; for every other point it returns
    [None]. *)
Theorem click_hits_the_drawn_square (self : Canvas) (x y : Z) (sq : Square) :
  0 < square_size self ->
  _xy_to_square self x y = Some sq
  <-> 0 <= sq < 64
      /\ fst (_square_to_xy self sq) <= x
         < fst (_square_to_xy self sq) + square_size self
      /\ snd (_square_to_xy self sq) <= y
         < snd (_square_to_xy self sq) + square_size self.
Proof.
  intros Hs. unfold _xy_to_square, _square_to_xy. cbv zeta.
  set (s := square_size self) in *. set (mg := margin self).
  split.
  - destruct (Z.ltb_spec (x - mg) 0); [discriminate|].
    destruct (Z.ltb_spec (y - mg) 0); [discriminate|]. cbn [orb].
    destruct (Z.ltb_spec ((x - mg) / s) 0); [discriminate|].
    destruct (Z.ltb_spec 7 ((x - mg) / s)); [discriminate|].
    destruct (Z.ltb_spec ((y - mg) / s) 0); [discriminate|].
    destruct (Z.ltb_spec 7 ((y - mg) / s)); [discriminate|]. cbn [orb].
    pose proof (proj1 (div_in_cell s (x - mg) _ Hs) eq_refl).
    pose proof (proj1 (div_in_cell s (y - mg) _ Hs) eq_refl).
    destruct (flipped self); cbn [negb]; intros [= <-].
    + destruct (square_file_rank (7 - (x - mg) / s) ((y - mg) / s))
        as (-> & -> & Hsq); [lia|lia|].
      cbn [fst snd]. split; [exact Hsq|].
      replace (7 - (7 - (x - mg) / s)) with ((x - mg) / s) by lia. lia.
    + destruct (square_file_rank ((x - mg) / s) (7 - (y - mg) / s))
        as (-> & -> & Hsq); [lia|lia|].
      cbn [fst snd]. split; [exact Hsq|].
      replace (7 - (7 - (y - mg) / s)) with ((y - mg) / s) by lia. lia.
  - intros (Hsq & Hx & Hy).
    destruct (square_of_file_rank sq Hsq) as (Hf & Hr & Hback).
    destruct (flipped self); cbn [negb fst snd] in *.
    + assert ((x - mg) / s = 7 - square_file sq) as Hcol
        by (apply div_in_cell; lia).
      assert ((y - mg) / s = square_rank sq) as Hrow
        by (apply div_in_cell; lia).
      assert (0 <= (7 - square_file sq) * s) by nia.
      assert (0 <= square_rank sq * s) by nia.
      destruct (Z.ltb_spec (x - mg) 0); [lia|].
      destruct (Z.ltb_spec (y - mg) 0); [lia|]. cbn [orb].
      rewrite Hcol, Hrow.
      destruct (Z.ltb_spec (7 - square_file sq) 0); [lia|].
      destruct (Z.ltb_spec 7 (7 - square_file sq)); [lia|].
      destruct (Z.ltb_spec (square_rank sq) 0); [lia|].
      destruct (Z.ltb_spec 7 (square_rank sq)); [lia|]. cbn [orb].
      replace (7 - (7 - square_file sq)) with (square_file sq) by lia.
      now rewrite Hback.
    + assert ((x - mg) / s = square_file sq) as Hcol
        by (apply div_in_cell; lia).
      assert ((y - mg) / s = 7 - square_rank sq) as Hrow
        by (apply div_in_cell; lia).
      assert (0 <= square_file sq * s) by nia.
      assert (0 <= (7 - square_rank sq) * s) by nia.
      destruct (Z.ltb_spec (x - mg) 0); [lia|].
      destruct (Z.ltb_spec (y - mg) 0); [lia|]. cbn [orb].
      rewrite Hcol, Hrow.
      destruct (Z.ltb_spec (square_file sq) 0); [lia|].
      destruct (Z.ltb_spec 7 (square_file sq)); [lia|].
      destruct (Z.ltb_spec (7 - square_rank sq) 0); [lia|].
      destruct (Z.ltb_spec 7 (7 - square_rank sq)); [lia|]. cbn [orb].
      replace (7 - (7 - square_rank sq)) with (square_rank sq) by lia.
      now rewrite Hback.
Qed.

Lemma click_hits_the_drawn_square_witness :
  0 < square_size initial_canvas
  /\ _square_to_xy initial_canvas 4 = (650, 1100)
  /\ _xy_to_square initial_canvas 725 1110 = Some 4
  /\ (_xy_to_square initial_canvas 725 1110 = Some 4
      <-> 0 <= 4 < 64
          /\ fst (_square_to_xy initial_canvas 4) <= 725
             < fst (_square_to_xy initial_canvas 4)
               + square_size initial_canvas
          /\ snd (_square_to_xy initial_canvas 4) <= 1110
             < snd (_square_to_xy initial_canvas 4)
               + square_size initial_canvas).
Proof.
  split; [reflexivity|]. split; [reflexivity|]. split; [reflexivity|].
  apply (click_hits_the_drawn_square initial_canvas 725 1110 4).
  reflexivity.
Defined.

Lemma flip_click (self : Canvas) (x y : Z) :
  _xy_to_square (flip_board self) x y
  = option_map (fun sq => 63 - sq) (_xy_to_square self x y).
Proof.
  unfold _xy_to_square, flip_board. cbn [square_size margin flipped].
  destruct ((x - margin self <? 0) || (y - margin self <? 0));
    [reflexivity|].
  destruct ((_ <? 0) || (7 <? _) || (_ <? 0) || (7 <? _)); [reflexivity|].
  unfold chess_square.
  destruct (flipped self); cbn [negb option_map]; f_equal; lia.
Qed.

Lemma flip_corner (self : Canvas) (sq : Square) :
  0 <= sq < 64 ->
  _square_to_xy (flip_board self) sq = _square_to_xy self (63 - sq).
Proof.
  intros Hsq.
  destruct (square_of_file_rank sq Hsq) as (Hf & Hr & Hback).
  assert (63 - sq
          = chess_square (7 - square_file sq) (7 - square_rank sq)) as Hopp.
  { rewrite <- Hback at 1. unfold chess_square. lia. }
  destruct (square_file_rank (7 - square_file sq) (7 - square_rank sq))
    as (Hf' & Hr' & _); [lia|lia|].
  unfold _square_to_xy, flip_board. cbn [square_size margin flipped].
  rewrite Hopp, Hf', Hr'.
  destruct (flipped self); cbn [negb]; f_equal; f_equal; lia.
Qed.

(** X15.  Flipping the board turns it half round: the point that selected
    square [sq] selects square [63 - sq] afterwards, each of the 64 squares
    is drawn where square [63 - sq] was, and flipping twice restores the
    orientation. *)
Theorem flip_turns_the_board_half_round (self : Canvas) :
  (forall x y,
     _xy_to_square (flip_board self) x y
     = option_map (fun sq => 63 - sq) (_xy_to_square self x y))
  /\ (forall sq, 0 <= sq < 64 ->
        _square_to_xy (flip_board self) sq = _square_to_xy self (63 - sq))
  /\ flip_board (flip_board self) = self.
Proof.
  split; [apply flip_click|]. split; [apply flip_corner|].
  destruct self as [s m f]. unfold flip_board. simpl.
  now rewrite negb_involutive.
Qed.

(** ** Entering a move *)

Section MoveEntryFacts.
Context {Board : Type} `{PositionAdapter Board}.

Lemma joins_spec from_sq to_sq mv :
  joins from_sq to_sq mv = true
  <-> from_square mv = from_sq /\ to_square mv = to_sq.
Proof. unfold joins. rewrite andb_true_iff, !Z.eqb_eq. tauto. Qed.

Lemma candidates_spec (b : Board) from_sq to_sq mv :
  In mv (List.filter (joins from_sq to_sq) (legal_moves b))
  <-> In mv (legal_moves b)
      /\ from_square mv = from_sq /\ to_square mv = to_sq.
Proof. rewrite filter_In, joins_spec. tauto. Qed.

Lemma promo_moves_spec (l : list Move) (mv : Move) :
  In mv (List.filter promotes l)
  <-> In mv l /\ exists pt, promotion mv = Some pt.
Proof.
  rewrite filter_In. unfold promotes.
  destruct (promotion mv) as [pt|].
  - split; [intros [Hin _]; eauto | intros [Hin _]; auto].
  - split; [intros [_ Hf]; discriminate
           | intros [_ [pt Hpt]]; discriminate].
Qed.

Lemma make_move_in_candidates (b : Board) from_sq to_sq dialog mv :
  _make_move_from_to b from_sq to_sq dialog = Some mv ->
  In mv (List.filter (joins from_sq to_sq) (legal_moves b)).
Proof.
  unfold _make_move_from_to. cbv zeta.
  destruct (List.filter (joins from_sq to_sq) (legal_moves b))
    as [|first others] eqn:Hc; [discriminate|].
  destruct (match others with [] => _ | _ => _ end).
  { intros [= <-]. now left. }
  destruct (List.filter promotes (first :: others))
    as [|first_promo rest] eqn:Hp.
  { intros [= <-]. now left. }
  destruct dialog as [choice|]; [|discriminate].
  assert (Hsub : forall m, In m (first_promo :: rest)
                           -> In m (first :: others)).
  { intros m Hm. rewrite <- Hp in Hm. now apply filter_In in Hm. }
  destruct (List.find _ _) as [found|] eqn:Hfind.
  - intros [= <-]. apply find_some in Hfind as [Hin _]. now apply Hsub.
  - intros [= <-]. apply Hsub. now left.
Qed.

(** X16.  Whatever the player clicks and answers in the promotion dialog,
    a move returned by [_make_move_from_to] is a legal move of the board
    that goes from the first clicked square to the second. *)
Theorem entered_move_is_legal (b : Board) (from_sq to_sq : Square)
    (dialog : option PromoChoice) (mv : Move) :
  _make_move_from_to b from_sq to_sq dialog = Some mv ->
  In mv (legal_moves b)
  /\ from_square mv = from_sq /\ to_square mv = to_sq.
Proof.
  intros Hmv. apply candidates_spec.
  now apply (make_move_in_candidates b from_sq to_sq dialog).
Qed.

Lemma destinations_fold (mvs : list Move) (from_sq sq : Square)
    (acc : gset Z) :
  sq ∈ fold_left
         (fun dests mv =>
            if from_square mv =? from_sq then dests ∪ {[ to_square mv ]}
            else dests) mvs acc
  <-> sq ∈ acc
      \/ exists mv, In mv mvs /\ from_square mv = from_sq
                    /\ to_square mv = sq.
Proof.
  revert acc. induction mvs as [|m rest IH]; intros acc; cbn [fold_left].
  - split; [auto | intros [Hin | (mv & [] & _)]; exact Hin].
  - rewrite IH. destruct (Z.eqb_spec (from_square m) from_sq) as [Hm|Hm].
    + rewrite elem_of_union, elem_of_singleton. split.
      * intros [[Hin | ->] | (mv & Hmv & Hrest)]; auto.
        -- right. exists m. split; [now left | auto].
        -- right. exists mv. split; [now right | exact Hrest].
      * intros [Hin | (mv & [<- | Hmv] & Hf & Ht)]; auto.
        right. exists mv. auto.
    + split.
      * intros [Hin | (mv & Hmv & Hrest)]; auto.
        right. exists mv. split; [now right | exact Hrest].
      * intros [Hin | (mv & [<- | Hmv] & Hf & Ht)]; auto; [congruence|].
        right. exists mv. auto.
Qed.

Lemma destinations_spec (b : Board) (from_sq sq : Square) :
  sq ∈ _legal_destinations_from b from_sq
  <-> exists mv, In mv (legal_moves b) /\ from_square mv = from_sq
                 /\ to_square mv = sq.
Proof.
  unfold _legal_destinations_from. rewrite destinations_fold.
  split; [intros [Hin | Hex]; [set_solver | exact Hex] | auto].
Qed.

Lemma make_move_some (b : Board) (from_sq to_sq : Square)
    (choice : PromoChoice) :
  is_Some (_make_move_from_to b from_sq to_sq (Some choice))
  <-> List.filter (joins from_sq to_sq) (legal_moves b) <> [].
Proof.
  unfold _make_move_from_to. cbv zeta.
  destruct (List.filter (joins from_sq to_sq) (legal_moves b))
    as [|first others].
  { split; [intros [x Hx]; discriminate | congruence]. }
  split; [discriminate|]. intros _.
  destruct (match others with [] => _ | _ => _ end); [eauto|].
  destruct (List.filter _ (first :: others)); [eauto|].
  destruct (List.find _ _); eauto.
Qed.

(** X17.  The squares [_legal_destinations_from] highlights for a piece
    are exactly the targets of its legal moves, and they are exactly the
    squares where a second click yields a move once the promotion dialog,
    if shown, is answered.  A cancelled dialog yields no move, and only a
    promotion brings the dialog up. *)
Theorem highlighted_squares_accept_a_click (b : Board)
    (from_sq to_sq : Square) :
  (to_sq ∈ _legal_destinations_from b from_sq
   <-> exists mv, In mv (legal_moves b) /\ from_square mv = from_sq
                  /\ to_square mv = to_sq)
  /\ (forall choice,
        is_Some (_make_move_from_to b from_sq to_sq (Some choice))
        <-> to_sq ∈ _legal_destinations_from b from_sq)
  /\ (_make_move_from_to b from_sq to_sq None = None
      <-> to_sq ∉ _legal_destinations_from b from_sq
          \/ exists mv pt, In mv (legal_moves b) /\ from_square mv = from_sq
                           /\ to_square mv = to_sq
                           /\ promotion mv = Some pt).
Proof.
  split; [apply destinations_spec|]. split.
  - intros choice. rewrite make_move_some, destinations_spec. split.
    + intros Hne.
      destruct (List.filter (joins from_sq to_sq) (legal_moves b))
        as [|mv rest] eqn:Hc; [congruence|].
      exists mv. apply candidates_spec. rewrite Hc. now left.
    + intros (mv & Hmv) Hnil. apply candidates_spec in Hmv.
      rewrite Hnil in Hmv. exact Hmv.
  - rewrite destinations_spec.
    unfold _make_move_from_to. cbv zeta.
    pose proof (candidates_spec b from_sq to_sq) as Hspec.
    destruct (List.filter (joins from_sq to_sq) (legal_moves b))
      as [|first others].
    { split; [|reflexivity]. intros _. left. intros (mv & Hmv).
      now apply Hspec in Hmv. }
    pose proof (promo_moves_spec (first :: others)) as Hpromo.
    destruct others as [|second others], (promotion first) as [pt|] eqn:Hfirst.
    + cbn [List.filter]. unfold promotes at 1. rewrite Hfirst.
      split; [|reflexivity]. intros _. right. exists first, pt.
      destruct (proj1 (Hspec first) (or_introl eq_refl)) as (? & ? & ?). auto.
    + split; [discriminate|].
      intros [Hno | (mv & pt & Hin & Hf & Ht & Hp)].
      * exfalso. apply Hno. exists first. apply Hspec. now left.
      * assert (In mv [first]) as [<- | []] by (apply Hspec; auto).
        congruence.
    + cbn [List.filter]. unfold promotes at 1. rewrite Hfirst.
      split; [|reflexivity]. intros _. right. exists first, pt.
      destruct (proj1 (Hspec first) (or_introl eq_refl)) as (? & ? & ?). auto.
    + destruct (List.filter promotes (first :: second :: others))
        as [|fp rest] eqn:Hp.
      * split; [discriminate|].
        intros [Hno | (mv & pt & Hin & Hf & Ht & Hpm)].
        -- exfalso. apply Hno. exists first. apply Hspec. now left.
        -- assert (In mv []) as [].
           apply Hpromo. split; [apply Hspec; auto | eauto].
      * split; [|reflexivity]. intros _. right.
        destruct (proj1 (Hpromo fp) (or_introl eq_refl)) as (Hin & pt & Hpt).
        exists fp, pt. apply Hspec in Hin as (? & ? & ?). auto.
Qed.

(** X18.  When the promotion to the piece chosen in the dialog is a legal
    move between the two clicked squares, that promotion is the move
    [_make_move_from_to] returns. *)
Theorem chosen_promotion_is_played (b : Board) (from_sq to_sq : Square)
    (choice : PromoChoice) :
  In (mkMove from_sq to_sq (Some (PROMO_MAP choice))) (legal_moves b) ->
  _make_move_from_to b from_sq to_sq (Some choice)
  = Some (mkMove from_sq to_sq (Some (PROMO_MAP choice))).
Proof.
  intros Hlegal.
  set (wanted := mkMove from_sq to_sq (Some (PROMO_MAP choice))) in *.
  assert (Hcand : In wanted (List.filter (joins from_sq to_sq)
                               (legal_moves b))).
  { apply candidates_spec. auto. }
  unfold _make_move_from_to. cbv zeta.
  pose proof (candidates_spec b from_sq to_sq) as Hspec.
  destruct (List.filter (joins from_sq to_sq) (legal_moves b))
    as [|first others]; [destruct Hcand|].
  assert (Hpromo : In wanted (List.filter promotes (first :: others))).
  { apply filter_In. split; [exact Hcand | reflexivity]. }
  assert (Hforced : match others, promotion first with
                    | [], None => true | _, _ => false end = false).
  { destruct others as [|? ?]; [|reflexivity].
    destruct Hcand as [Heq | []]. rewrite Heq. reflexivity. }
  rewrite Hforced.
  destruct (List.filter promotes (first :: others)) as [|fp rest] eqn:Hp;
    [destruct Hpromo|].
  destruct (List.find _ (fp :: rest)) as [found|] eqn:Hfind.
  - apply find_some in Hfind as [Hin Heq]. f_equal.
    assert (In found (first :: others)) as Hc.
    { rewrite <- Hp in Hin. now apply filter_In in Hin. }
    apply Hspec in Hc as (_ & Hf & Ht).
    destruct found as [f t p]. simpl in *. subst. unfold wanted. f_equal.
    destruct p as [pt|]; [|discriminate]. f_equal.
    destruct pt, choice; simpl in *; congruence.
  - exfalso. apply (find_none _ _ Hfind) in Hpromo.
    unfold wanted in Hpromo. simpl in Hpromo.
    destruct choice; discriminate.
Qed.

(** ** The draw offer *)

(** X19.  The answer to a draw offer does not depend on the colours: on
    the mirror-image colour swap of a position [offer_draw] ends the same
    way as on the position itself. *)
Theorem draw_offer_is_colour_blind (game_over : bool) (b b' : Board) :
  mirror_image b b' ->
  offer_draw game_over b' = offer_draw game_over b.
Proof.
  intros Hm. unfold offer_draw. rewrite (evaluate_of_mirror b b' Hm).
  destruct game_over; [reflexivity|].
  destruct (evaluate b) as [s|]; [|reflexivity]. cbn [option_map].
  now rewrite Z.abs_opp.
Qed.
End MoveEntryFacts.

Lemma entered_move_is_legal_witness :
  @_make_move_from_to TBoard (tabulated ordering_game) (start_at 0) 3 35 None
  = Some Qxd5
  /\ In Qxd5 (@legal_moves TBoard (tabulated ordering_game) (start_at 0))
  /\ from_square Qxd5 = 3 /\ to_square Qxd5 = 35.
Proof.
  split; [vm_compute; reflexivity|].
  apply (@entered_move_is_legal TBoard (tabulated ordering_game)
           (start_at 0) 3 35 None Qxd5).
  vm_compute; reflexivity.
Defined.

Lemma chosen_promotion_is_played_witness :
  In (mkMove 49 57 (Some (PROMO_MAP choice_R)))
     (@legal_moves TBoard (tabulated ordering_game) (start_at 0))
  /\ @_make_move_from_to TBoard (tabulated ordering_game) (start_at 0) 49 57
       (Some choice_R)
     = Some (mkMove 49 57 (Some (PROMO_MAP choice_R))).
Proof.
  assert (Hin : In (mkMove 49 57 (Some (PROMO_MAP choice_R)))
                  (@legal_moves TBoard (tabulated ordering_game)
                     (start_at 0))) by (vm_compute; tauto).
  split; [exact Hin|].
  exact (@chosen_promotion_is_played TBoard (tabulated ordering_game)
           (start_at 0) 49 57 choice_R Hin).
Defined.

Lemma draw_offer_is_colour_blind_witness :
  @mirror_image TBoard (tabulated mirror_game) (start_at 0) (start_at 1)
  /\ @offer_draw TBoard (tabulated mirror_game) false (start_at 1)
     = @offer_draw TBoard (tabulated mirror_game) false (start_at 0)
  /\ @offer_draw TBoard (tabulated mirror_game) false (start_at 0)
     = Some draw_agreed.
Proof.
  assert (Hmirror : @mirror_image TBoard (tabulated mirror_game)
                      (start_at 0) (start_at 1)).
  { constructor; try reflexivity.
    apply (Permutation_rev [(60, bK); (36, bP); (4, wK)]). }
  split; [exact Hmirror|]. split; [|reflexivity].
  exact (@draw_offer_is_colour_blind TBoard (tabulated mirror_game) false
           (start_at 0) (start_at 1) Hmirror).
Defined.

(** ** The evaluation label and bar *)

Lemma consecutive_in (lo : Z) (n : nat) (z : Z) :
  lo <= z < lo + Z.of_nat n -> In z (consecutive lo n).
Proof.
  intros Hz. unfold consecutive. apply in_map_iff.
  exists (Z.to_nat (z - lo)). split; [lia|]. apply in_seq. lia.
Qed.

(** The float computation of the bar, run on every clipped score. *)
Lemma white_height_table :
  forallb (fun s => match white_height eval_canvas_height s with
                    | Some white_h => white_h =? 280 * (s + 1000) / 2000
                    | None => false
                    end)
    (consecutive (-1000) (Z.to_nat 2001)) = true.
Proof. vm_compute. reflexivity. Qed.

Lemma white_height_clipped (score : Z) :
  white_height eval_canvas_height score
  = white_height eval_canvas_height (Z.max (-1000) (Z.min 1000 score)).
Proof.
  unfold white_height. cbv zeta.
  assert (Hsame : forall a b : Z, a = b ->
            int_of_float
              (PrimFloat.mul (float_of_int eval_canvas_height)
                 (PrimFloat.div (float_of_int (a + 1000))
                    (float_of_int (2 * 1000))))
            = int_of_float
                (PrimFloat.mul (float_of_int eval_canvas_height)
                   (PrimFloat.div (float_of_int (b + 1000))
                      (float_of_int (2 * 1000)))))
    by (intros a b ->; reflexivity).
  apply Hsame. lia.
Qed.

Lemma white_height_exact (score : Z) :
  white_height eval_canvas_height score
  = Some (280 * (Z.max (-1000) (Z.min 1000 score) + 1000) / 2000).
Proof.
  rewrite white_height_clipped.
  set (s := Z.max (-1000) (Z.min 1000 score)).
  pose proof white_height_table as Hall. rewrite forallb_forall in Hall.
  specialize (Hall s).
  assert (In s (consecutive (-1000) (Z.to_nat 2001))) as Hin
    by (apply consecutive_in; lia).
  apply Hall in Hin.
  destruct (white_height eval_canvas_height s) as [white_h|];
    [|discriminate].
  apply Z.eqb_eq in Hin. now subst.
Qed.

Lemma format_2f_is_not_mate (x : PrimFloat.float) :
  format_2f x <> "MATE"%string.
Proof.
  unfold format_2f.
  destruct (FloatOps.Prim2SF x) as [s|s| |s m e].
  - destruct s; discriminate.
  - destruct s; discriminate.
  - discriminate.
  - destruct s; cbn [String.append]; [discriminate|].
    unfold decimal.
    destruct (N.to_uint _) as [|u|u|u|u|u|u|u|u|u|u]; cbn; discriminate.
Qed.

(** X20.  The white part of the evaluation bar has exactly the height
    280 x (s + 1000) / 2000 rounded down, where [s] is the score clipped to
    -1000 .. 1000: the floating-point division and multiplication never
    move it by a pixel.  It lies between 0 and the canvas height. *)
Theorem eval_bar_height_is_exact (score : Z) :
  let s := Z.max (-1000) (Z.min 1000 score) in
  white_height eval_canvas_height score = Some (280 * (s + 1000) / 2000)
  /\ 0 <= 280 * (s + 1000) / 2000 <= eval_canvas_height.
Proof.
  intros s. split; [apply white_height_exact|].
  unfold eval_canvas_height. subst s.
  split; [apply Z.div_pos; lia|].
  apply Z.div_le_upper_bound; lia.
Qed.

Section EvalBarFacts.
Context {Board : Type} `{PositionAdapter Board}.

Lemma evaluate_bounds (b : Board) (v : Z) :
  evaluate b = Some v ->
  (is_checkmate b = true /\ v = if turn b then - MATE_SCORE else MATE_SCORE)
  \/ (is_checkmate b = false
      /\ Z.abs v <= 905 * Z.of_nat (length (piece_map b))
                    + Z.of_nat (length (legal_moves b))).
Proof.
  unfold evaluate. rewrite material_loop_sum. intros Hv.
  destruct (is_checkmate b).
  { injection Hv as <-. left. split; reflexivity. }
  right. split; [reflexivity|].
  destruct (is_stalemate b || is_insufficient_material b || can_claim_draw b).
  { injection Hv as <-. unfold DRAW_SCORE. simpl Z.abs. lia. }
  destruct (sum_terms (piece_map b)) as [s|] eqn:Hs; [|discriminate].
  apply sum_terms_bounds in Hs. cbn [option_map] in Hv.
  injection Hv as <-. destruct (turn b); lia.
Qed.

(** X21.  What [_update_eval_bar] shows.  It fails only where [evaluate]
    does.  The white part of the bar never leaves the canvas.  On a
    checkmate the label reads MATE and the bar is all dark when White is
    mated, all white when Black is.  On any other position the label can
    read MATE only if 905 per piece plus one per legal move reaches
    9950. *)
Theorem eval_bar_on_a_position (b : Board) :
  (_update_eval_bar b = None <-> evaluate b = None)
  /\ forall label white_h,
       _update_eval_bar b = Some (label, white_h) ->
       0 <= white_h <= eval_canvas_height
       /\ (is_checkmate b = true ->
           label = "MATE"%string
           /\ white_h = if turn b then 0 else eval_canvas_height)
       /\ (label = "MATE"%string ->
           is_checkmate b = true
           \/ 9950 <= 905 * Z.of_nat (length (piece_map b))
                      + Z.of_nat (length (legal_moves b))).
Proof.
  unfold _update_eval_bar. split.
  - destruct (evaluate b) as [v|]; [|tauto].
    rewrite white_height_exact. split; discriminate.
  - intros label white_h.
    destruct (evaluate b) as [v|] eqn:Hv; [|discriminate].
    rewrite white_height_exact. unfold _format_eval_text.
    intros [= <- <-].
    split.
    { unfold eval_canvas_height.
      split; [apply Z.div_pos; lia | apply Z.div_le_upper_bound; lia]. }
    destruct (evaluate_bounds b v Hv) as [[Hmate ->] | [Hmate Hbound]].
    + split; [|auto]. intros _. destruct (turn b); split; reflexivity.
    + split; [rewrite Hmate; discriminate|].
      destruct (Z.leb_spec (MATE_SCORE - 50) (Z.abs v)) as [Hm|Hm].
      * intros _. right. unfold MATE_SCORE in Hm. lia.
      * intros Hp. now apply format_2f_is_not_mate in Hp.
Qed.
End EvalBarFacts.

Lemma eval_bar_on_a_position_witness :
  @_update_eval_bar TBoard (tabulated checkmate_game) (start_at 0)
  = Some ("MATE"%string, 280)
  /\ @is_checkmate TBoard (tabulated checkmate_game) (start_at 0) = true
  /\ 0 <= 280 <= eval_canvas_height
  /\ (@is_checkmate TBoard (tabulated checkmate_game) (start_at 0) = true ->
      "MATE"%string = "MATE"%string
      /\ 280 = if @turn TBoard (tabulated checkmate_game) (start_at 0)
               then 0 else eval_canvas_height).
Proof.
  assert (Hrun : @_update_eval_bar TBoard (tabulated checkmate_game)
                   (start_at 0) = Some ("MATE"%string, 280)).
  { vm_compute. reflexivity. }
  split; [exact Hrun|]. split; [reflexivity|].
  destruct (proj2 (@eval_bar_on_a_position TBoard (tabulated checkmate_game)
                     (start_at 0)) "MATE"%string 280 Hrun)
    as (Hrange & Hmate & _).
  split; [exact Hrange | exact Hmate].
Defined.
